(** * Titanic passenger clustering: the numeric pipeline of
      [src/services/mlService.ts] (PCA, K-means, silhouette, elbow) and of
      [src/utils/dataUtils.ts] (parsing, feature engineering, feature typing,
      imputation, one-hot encoding, standardisation, survival rates).

    The TypeScript code computes with JavaScript numbers.  The functions are
    embedded once, over an interface [Number] of the operations the code
    applies to numbers, and then read at two instances:

    - [Binary64]: IEEE 754 binary64, the numbers the program really runs on
      (Rocq's primitive floats), on which the code can be evaluated, and of
      which the bounds are proved from the specification of its rounding;
    - [Exact]: the same special values (infinities, NaN) around exact real
      arithmetic, a second reading that shows what the code attempts where
      rounding makes it miss.

    What is proved for every instance of [Number] holds of binary64.

    [Math.random()] is an explicit sequence of draws with a counter of the
    draws consumed; a JavaScript exception is a [Throw] result.  Counts,
    indices, cluster labels and the parameters [k], [maxIterations], [maxK]
    and [numComponents] are natural numbers. *)

From Stdlib Require Import String Ascii DecimalString.
From Stdlib Require Import List Arith Lia Bool ZArith.
From Stdlib Require Import Permutation Sorted.
From Stdlib Require Import Floats.
From Stdlib Require Import Reals Lra.
Import ListNotations.

Set Implicit Arguments.

(** ** JavaScript numbers, exceptions, arrays *)

Declare Scope js_scope.
Delimit Scope js_scope with js.

(** The operations of the source on values of type [number].  [js_nan] is also
    what arithmetic makes of [undefined] (an array read out of range):
    [ToNumber(undefined)] is NaN.  [of_nat] turns an array length or a counter
    into a number; [floor_index x] is the array index [Math.floor(x)] denotes,
    if it denotes one. *)
Class Number (num : Type) : Type := {
  js_zero : num;
  js_one : num;
  js_infinity : num;
  js_neg_infinity : num;
  js_nan : num;
  js_add : num -> num -> num;
  js_sub : num -> num -> num;
  js_mul : num -> num -> num;
  js_div : num -> num -> num;
  js_sqrt : num -> num;
  js_lt : num -> num -> bool;
  js_le : num -> num -> bool;
  js_eq : num -> num -> bool;
  js_min : num -> num -> num;
  js_max : num -> num -> num;
  of_nat : nat -> num;
  floor_index : num -> option nat
}.

Infix "+" := js_add : js_scope.
Infix "-" := js_sub : js_scope.
Infix "*" := js_mul : js_scope.
Infix "/" := js_div : js_scope.
Infix "<?" := js_lt : js_scope.
Infix "<=?" := js_le : js_scope.
Infix "===" := js_eq (at level 70, no associativity) : js_scope.

Inductive js_error : Type := TypeError.

Inductive result (A : Type) : Type :=
| Ok (a : A)
| Throw (e : js_error).

Arguments Ok {A} a.
Arguments Throw {A} e.

Definition bind {A B : Type} (r : result A) (f : A -> result B) : result B :=
  match r with
  | Ok a => f a
  | Throw e => Throw e
  end.

Notation "'do' x <- r ; k" := (bind r (fun x => k))
  (at level 10, x pattern, r at level 100, k at level 200).

(** [a[i] = v] on an array that has index [i]. *)
Fixpoint set_nth {A : Type} (i : nat) (v : A) (l : list A) : list A :=
  match l, i with
  | [], _ => []
  | _ :: l', 0 => v :: l'
  | x :: l', S i' => x :: set_nth i' v l'
  end.

(** ** Arrays of numbers *)

(** [number[][]]. *)
Abbreviation Matrix num := (list (list num)).

Section Arrays.

Context (num : Type) {N : Number num}.
Local Open Scope js_scope.

Local Abbreviation matrix := (Matrix num).

(** [row[j]] where a number is expected. *)
Definition at_ (row : list num) (j : nat) : num := nth j row js_nan.

(** [arr.reduce((acc, x) => acc + x, 0)]. *)
Definition sum_list (l : list num) : num := fold_left js_add l js_zero.

(** [row.forEach((val, j) => { sums[j] += val })]: an index the accumulator
    lacks reads as [undefined] and is created. *)
Fixpoint addInto (sums row : list num) : list num :=
  match row, sums with
  | [], _ => sums
  | val :: row', s :: sums' => (s + val) :: addInto sums' row'
  | val :: row', [] => (js_nan + val) :: addInto [] row'
  end.

Definition columnSums (d : nat) (data : matrix) : list num :=
  fold_left addInto data (repeat js_zero d).

Definition columnMeans (d : nat) (data : matrix) : list num :=
  map (fun sum => sum / of_nat (length data)) (columnSums d data).

(** [arr.sort(compare)] as the stable sort it is for a consistent comparator:
    [x] goes in before the first element the comparator puts after it. *)
Fixpoint insertSorted {A : Type} (compare : A -> A -> num) (x : A)
         (sorted : list A) : list A :=
  match sorted with
  | [] => [x]
  | y :: rest =>
      if js_zero <? compare y x then x :: y :: rest
      else y :: insertSorted compare x rest
  end.

Definition sortBy {A : Type} (compare : A -> A -> num) (l : list A) : list A :=
  fold_left (fun sorted x => insertSorted compare x sorted) l [].

End Arrays.

(** ** services/mlService.ts *)

Section MLService.

Context (num : Type) {N : Number num}.
Local Open Scope js_scope.
Local Abbreviation matrix := (Matrix num).


(** *** euclideanDistance *)

(** The loop over [i < a.length]: [b[i]] is read whether or not [b] has it. *)
Fixpoint sumSquaredDiffs (a b : list num) (sum : num) : num :=
  match a with
  | [] => sum
  | x :: a' =>
      let diff := x - hd js_nan b in
      sumSquaredDiffs a' (tl b) (sum + diff * diff)
  end.

Definition euclideanDistance (a b : list num) : num :=
  js_sqrt (sumSquaredDiffs a b js_zero).

(** *** initializeCentroids (k-means++) *)

(** The successive values of [Math.random()]. *)
Definition random_source : Type := nat -> num.

(** The centroids pushed so far and, beside them, the rows they were copied
    from. *)
Record seeding : Type := {
  seed_centroids : matrix;
  seed_rows : list nat
}.

(** [centroids.push([...data[idx]])]: spreading [undefined] throws. *)
Definition pushRow (data : matrix) (idx : option nat) (st : seeding)
  : result seeding :=
  match idx with
  | None => Throw TypeError
  | Some i =>
      match nth_error data i with
      | None => Throw TypeError
      | Some row =>
          Ok {| seed_centroids := seed_centroids st ++ [row];
                seed_rows := seed_rows st ++ [i] |}
      end
  end.

(** [Math.floor(Math.random() * n)]. *)
Definition randomIndex (r : num) (n : nat) : option nat :=
  floor_index (r * of_nat n).

(** The squared distance of a point to the nearest centroid chosen so far. *)
Definition nearestSquared (centroids : matrix) (point : list num) : num :=
  let minDistance :=
    fold_left (fun m centroid => js_min m (euclideanDistance point centroid))
              centroids js_infinity in
  minDistance * minDistance.

(** The cumulative-probability scan from index [j]; [selectedIndex] keeps its
    initial value 0 when no prefix sum reaches [r]. *)
Fixpoint drawIndex (r : num) (probabilities : list num) (j : nat)
         (cumulativeProb : num) : nat :=
  match probabilities with
  | [] => 0
  | p :: rest =>
      let c := cumulativeProb + p in
      if r <=? c then j else drawIndex r rest (S j) c
  end.

(** The loop [for (let i = 1; i < k; i++)], with [todo] iterations left and
    [c] draws consumed. *)
Fixpoint seedLoop (data : matrix) (random : random_source) (todo : nat)
         (st : seeding) (c : nat) : result (seeding * nat) :=
  match todo with
  | 0 => Ok (st, c)
  | S todo' =>
      let distances := map (nearestSquared (seed_centroids st)) data in
      let sum := sum_list distances in
      if sum === js_zero then
        do st' <- pushRow data (randomIndex (random c) (length data)) st;
        seedLoop data random todo' st' (S c)
      else
        let probabilities := map (fun distance => distance / sum) distances in
        let r := random c in
        let selectedIndex := drawIndex r probabilities 0 js_zero in
        do st' <- pushRow data (Some selectedIndex) st;
        seedLoop data random todo' st' (S c)
  end.

Definition seedCentroids (data : matrix) (k : nat) (random : random_source)
           (c : nat) : result (seeding * nat) :=
  do st <- pushRow data (randomIndex (random c) (length data))
                   {| seed_centroids := []; seed_rows := [] |};
  seedLoop data random (k - 1) st (S c).

Definition initializeCentroids (data : matrix) (k : nat)
           (random : random_source) (c : nat) : result (matrix * nat) :=
  do (st, c') <- seedCentroids data k random c;
  Ok (seed_centroids st, c').

(** *** performKMeans *)

(** The scan [for (let j = 0; j < k; j++)] for the nearest centroid: a later
    centroid wins only when strictly closer.  The seeding pushes [max 1 k]
    centroids and the update keeps their number ([initializeCentroids_ok],
    [lloydLoop_ok]), so [centroids[j]] is there for [j < k]. *)
Definition nearestCentroid (centroids : matrix) (k : nat) (point : list num)
  : nat :=
  snd (fold_left
         (fun (best : num * nat) j =>
            let distance := euclideanDistance point (nth j centroids []) in
            if distance <? fst best then (distance, j) else best)
         (seq 0 k) (js_infinity, 0)).

(** The assignment loop: the new labels, and whether one changed. *)
Fixpoint assignPoints (centroids : matrix) (k : nat) (data : matrix)
         (labels : list nat) : list nat * bool :=
  match data, labels with
  | point :: data', l :: labels' =>
      let minIndex := nearestCentroid centroids k point in
      let '(ls, changed) := assignPoints centroids k data' labels' in
      if Nat.eqb l minIndex then (l :: ls, changed) else (minIndex :: ls, true)
  | _, _ => ([], false)
  end.

(** [counts[label]++] and [newCentroids[label][j] += data[i][j]] for [j < d];
    [newCentroids[label]] must be there. *)
Definition accumulatePoint (d : nat) (acc : matrix * list nat)
           (point : list num) (label : nat) : result (matrix * list nat) :=
  match nth_error (fst acc) label with
  | None => Throw TypeError
  | Some row =>
      Ok (set_nth label (map (fun j => at_ row j + at_ point j) (seq 0 d))
                  (fst acc),
          set_nth label (S (nth label (snd acc) 0)) (snd acc))
  end.

Fixpoint accumulatePoints (d : nat) (acc : matrix * list nat)
         (data : matrix) (labels : list nat) : result (matrix * list nat) :=
  match data, labels with
  | point :: data', l :: labels' =>
      do acc' <- accumulatePoint d acc point l;
      accumulatePoints d acc' data' labels'
  | _, _ => Ok acc
  end.

(** [centroids[i][j] = newCentroids[i][j] / counts[i]] for [j < d], when
    [counts[i] > 0]. *)
Definition recentre (d : nat) (old sums : list num) (count : nat) : list num :=
  if Nat.ltb 0 count
  then map (fun j => at_ sums j / of_nat count) (seq 0 d) ++ skipn d old
  else old.

Definition updateCentroids (data : matrix) (labels : list nat) (k d : nat)
           (centroids : matrix) : result matrix :=
  do (newCentroids, counts) <-
     accumulatePoints d (repeat (repeat js_zero d) k, repeat 0 k) data labels;
  Ok (map (fun i => recentre d (nth i centroids []) (nth i newCentroids [])
                             (nth i counts 0))
          (seq 0 k)
      ++ skipn k centroids).

(** One turn of the [while] loop. *)
Definition lloydStep (data : matrix) (k d : nat) (labels : list nat)
           (centroids : matrix) : result (list nat * matrix * bool) :=
  let '(labels', changed) := assignPoints centroids k data labels in
  do centroids' <- updateCentroids data labels' k d centroids;
  Ok (labels', centroids', changed).

(** [while (changed && iterations < maxIterations)], with
    [fuel = maxIterations - iterations]. *)
Fixpoint lloydLoop (fuel : nat) (data : matrix) (k d : nat)
         (labels : list nat) (centroids : matrix) (changed : bool)
  : result (list nat * matrix) :=
  match fuel with
  | 0 => Ok (labels, centroids)
  | S fuel' =>
      if changed then
        do (labels', centroids', changed') <-
           lloydStep data k d labels centroids;
        lloydLoop fuel' data k d labels' centroids' changed'
      else Ok (labels, centroids)
  end.

Record KMeansResult : Type := {
  labels : list nat;
  centroids : matrix;
  inertia : num
}.

(** [for (let i = 0; i < n; i++) inertia += euclideanDistance(data[i],
    centroids[labels[i]])]. *)
Definition computeInertia (data : matrix) (labels : list nat)
           (centroids : matrix) : num :=
  fold_left
    (fun inertia i =>
       inertia + euclideanDistance (nth i data [])
                                   (nth (nth i labels 0) centroids []))
    (seq 0 (length data)) js_zero.

Definition performKMeans (data : matrix) (k maxIterations : nat)
           (random : random_source) (c : nat) : result (KMeansResult * nat) :=
  match data with
  | [] => Ok ({| labels := []; centroids := []; inertia := js_zero |}, c)
  | row0 :: _ =>
      if Nat.eqb (length row0) 0
      then Ok ({| labels := []; centroids := []; inertia := js_zero |}, c)
      else
        let n := length data in
        let d := length row0 in
        do (centroids0, c') <- initializeCentroids data k random c;
        do (labels, centroids) <-
           lloydLoop maxIterations data k d (repeat 0 n) centroids0 true;
        Ok ({| labels := labels; centroids := centroids;
               inertia := computeInertia data labels centroids |}, c')
  end.

(** *** computeEigenvectors (power iteration with deflation) *)

(** [Array(n).fill(0).map(() => Math.random())]: the draws [c], ..., [c+n-1]. *)
Definition randomVector (random : random_source) (c n : nat) : list num :=
  map (fun i => random (c + i)%nat) (seq 0 n).

(** [Math.sqrt(v.reduce((sum, val) => sum + val * val, 0))]. *)
Definition norm (v : list num) : num :=
  js_sqrt (fold_left (fun sum val => sum + val * val) v js_zero).

Definition normalize (v : list num) : list num :=
  let nrm := norm v in map (fun val => val / nrm) v.

(** [newVector[i] += remainingMatrix[i][j] * vector[j]] for [j < n], from 0. *)
Definition matVec (n : nat) (m : matrix) (v : list num) : list num :=
  map (fun i =>
         fold_left (fun acc j => acc + at_ (nth i m []) j * at_ v j)
                   (seq 0 n) js_zero)
      (seq 0 n).

Definition powerStep (n : nat) (m : matrix) (v : list num) : list num :=
  normalize (matVec n m v).

(** [for (let iter = 0; iter < 30; iter++)]. *)
Definition powerIterations : nat := 30.

Fixpoint iterate {A : Type} (f : A -> A) (times : nat) (x : A) : A :=
  match times with
  | 0 => x
  | S t => iterate f t (f x)
  end.

(** [eigenvalue += vector[i] * remainingMatrix[i][j] * vector[j]] over
    [i, j < n]. *)
Definition rayleigh (n : nat) (m : matrix) (v : list num) : num :=
  fold_left
    (fun ev i =>
       fold_left (fun ev' j => ev' + at_ v i * at_ (nth i m []) j * at_ v j)
                 (seq 0 n) ev)
    (seq 0 n) js_zero.

(** [remainingMatrix[i][j] -= eigenvalue * vector[i] * vector[j]] over
    [i, j < n]; a row keeps what it has beyond column [n]. *)
Definition deflate (n : nat) (m : matrix) (ev : num) (v : list num) : matrix :=
  map (fun i =>
         let row := nth i m [] in
         map (fun j => at_ row j - ev * at_ v i * at_ v j) (seq 0 n)
         ++ skipn n row)
      (seq 0 n).

Record EigenResults : Type := {
  eigenvalues : list num;
  eigenvectors : matrix
}.

(** The loop [for (let k = 0; k < numComponents; k++)], [todo] turns left. *)
Fixpoint eigenLoop (n : nat) (random : random_source) (todo : nat)
         (remainingMatrix : matrix) (acc : EigenResults) (c : nat)
  : EigenResults * nat :=
  match todo with
  | 0 => (acc, c)
  | S todo' =>
      let vector0 := normalize (randomVector random c n) in
      let vector := iterate (powerStep n remainingMatrix) powerIterations
                            vector0 in
      let eigenvalue := rayleigh n remainingMatrix vector in
      eigenLoop n random todo'
                (deflate n remainingMatrix eigenvalue vector)
                {| eigenvalues := eigenvalues acc ++ [eigenvalue];
                   eigenvectors := eigenvectors acc ++ [vector] |}
                (c + n)%nat
  end.

Definition computeEigenvectors (m : matrix) (numComponents : nat)
           (random : random_source) (c : nat) : EigenResults * nat :=
  eigenLoop (length m) random numComponents m
            {| eigenvalues := []; eigenvectors := [] |} c.

(** *** performPCA *)


Definition centre (means : list num) (data : matrix) : matrix :=
  map (fun row => map (fun j => at_ row j - at_ means j)
                      (seq 0 (length row)))
      data.

(** [covariance[i][j]] for [i <= j], copied to [covariance[j][i]]. *)
Definition covarianceEntry (centeredData : matrix) (i j : nat) : num :=
  fold_left (fun sum row => sum + at_ row i * at_ row j) centeredData js_zero
  / (of_nat (length centeredData) - js_one).

Definition covarianceMatrix (d : nat) (centeredData : matrix) : matrix :=
  map (fun i =>
         map (fun j => covarianceEntry centeredData (Nat.min i j) (Nat.max i j))
             (seq 0 d))
      (seq 0 d).


(** [eigenvalues.map((val, idx) => ({ val, idx })).sort((a, b) => b.val - a.val)]. *)
Definition eigenPairsOf (evs : list num) : list (num * nat) :=
  sortBy (fun a b => fst b - fst a) (combine evs (seq 0 (length evs))).

Record PCAResult : Type := {
  projectedData : matrix;
  explainedVariance : list num;
  components : matrix
}.

(** Steps 1 to 4 of [performPCA] on a matrix with a first row of [d] cells:
    the eigenpairs extracted from the covariance matrix. *)
Definition pcaCentered (d : nat) (data : matrix) : matrix :=
  centre (columnMeans d data) data.

Definition pcaEigen (d : nat) (data : matrix) (random : random_source)
           (c : nat) : EigenResults * nat :=
  computeEigenvectors (covarianceMatrix d (pcaCentered d data)) d random c.

(** [numComponents || d]. *)
Definition keptComponents (numComponents : option nat) (d : nat) : nat :=
  match numComponents with
  | Some (S k) => S k
  | _ => d
  end.

Definition dot (d : nat) (row component : list num) : num :=
  fold_left (fun dotProduct i => dotProduct + at_ row i * at_ component i)
            (seq 0 d) js_zero.

Definition performPCA (data : matrix) (numComponents : option nat)
           (random : random_source) (c : nat) : PCAResult * nat :=
  match data with
  | [] => ({| projectedData := []; explainedVariance := [];
              components := [] |}, c)
  | row0 :: _ =>
      if Nat.eqb (length row0) 0
      then ({| projectedData := []; explainedVariance := [];
               components := [] |}, c)
      else
        let d := length row0 in
        let centeredData := pcaCentered d data in
        let '(eigenResults, c') := pcaEigen d data random c in
        let eigenPairs := eigenPairsOf (eigenvalues eigenResults) in
        let totalVariance :=
          fold_left (fun acc pair => acc + fst pair) eigenPairs js_zero in
        let explained :=
          map (fun pair => fst pair / totalVariance) eigenPairs in
        let k := keptComponents numComponents d in
        let comps :=
          map (fun pair => nth (snd pair) (eigenvectors eigenResults) [])
              (firstn k eigenPairs) in
        ({| projectedData :=
              map (fun row => map (dot d row) comps) centeredData;
            explainedVariance := firstn k explained;
            components := comps |}, c')
  end.

(** *** calculateSilhouetteScore *)

(** [labels[j] === cluster], where [labels[j]] may be [undefined]. *)
Definition sameLabel (a b : option nat) : bool :=
  match a, b with
  | Some x, Some y => Nat.eqb x y
  | None, None => true
  | _, _ => false
  end.

(** [[...new Set(labels)]]: the distinct labels, in order of first occurrence. *)
Definition uniqueLabels (labels : list nat) : list nat :=
  fold_left (fun seen l => if existsb (Nat.eqb l) seen then seen
                           else seen ++ [l])
            labels [].

(** The sum and the number of the distances from point [i] to the points [j]
    that [member] selects. *)
Definition distancesTo (data : matrix) (i : nat) (member : nat -> bool)
  : num * nat :=
  fold_left
    (fun (acc : num * nat) j =>
       if member j
       then (fst acc + euclideanDistance (nth i data []) (nth j data []),
             S (snd acc))
       else acc)
    (seq 0 (length data)) (js_zero, 0).

Definition intraCluster (data : matrix) (labels : list nat) (i : nat) : num :=
  let clusterI := nth_error labels i in
  let '(sumIntraCluster, countIntraCluster) :=
    distancesTo data i
      (fun j => negb (Nat.eqb i j)
                && sameLabel (nth_error labels j) clusterI) in
  if Nat.ltb 0 countIntraCluster
  then sumIntraCluster / of_nat countIntraCluster
  else js_zero.

Definition interCluster (data : matrix) (labels : list nat) (i : nat) : num :=
  let clusterI := nth_error labels i in
  let minInterClusterDistance :=
    fold_left
      (fun m cluster =>
         if sameLabel (Some cluster) clusterI then m
         else
           let '(sumDistances, count) :=
             distancesTo data i
               (fun j => sameLabel (nth_error labels j) (Some cluster)) in
           if Nat.ltb 0 count
           then js_min m (sumDistances / of_nat count)
           else m)
      (uniqueLabels labels) js_infinity in
  if minInterClusterDistance === js_infinity then js_zero
  else minInterClusterDistance.

Definition silhouetteOf (a b : num) : num :=
  if (a === js_zero) && (b === js_zero) then js_zero
  else if a === js_zero then js_one
  else if b === js_zero then js_zero - js_one
  else (b - a) / js_max a b.

Definition pointSilhouette (data : matrix) (labels : list nat) (i : nat)
  : num :=
  silhouetteOf (intraCluster data labels i) (interCluster data labels i).

Definition calculateSilhouetteScore (data : matrix) (labels : list nat)
  : num :=
  if Nat.ltb (length data) 2 || Nat.ltb (length (uniqueLabels labels)) 2
  then js_zero
  else
    fold_left (fun silhouetteSum i =>
                 silhouetteSum + pointSilhouette data labels i)
              (seq 0 (length data)) js_zero
    / of_nat (length data).

(** *** findOptimalK *)

Inductive method : Type := Elbow | Silhouette.

Record OptimalK : Type := {
  scores : list num;
  recommendedK : nat
}.

(** [maxIterations] when [performKMeans] is called without it. *)
Definition defaultMaxIterations : nat := 100.

(** The loop [for (let k = 2; k <= maxK; k++)] over the values of [k] left. *)
Fixpoint sweep (data : matrix) (m : method) (random : random_source)
         (ks : list nat) (scores : list num) (c : nat)
  : result (list num * nat) :=
  match ks with
  | [] => Ok (scores, c)
  | k :: ks' =>
      do (r, c') <- performKMeans data k defaultMaxIterations random c;
      let score :=
        match m with
        | Elbow => inertia r
        | Silhouette => calculateSilhouetteScore data (labels r)
        end in
      sweep data m random ks' (scores ++ [score]) c'
  end.

(** [l.slice(0, -1).map((val, i) => val - l[i + 1])]. *)
Definition differences (l : list num) : list num :=
  map (fun i => at_ l i - at_ l (S i)) (seq 0 (length l - 1)).

(** The index of the first maximum, by [forEach] with [>] from [-Infinity];
    0 on an empty array. *)
Definition argMax (l : list num) : nat :=
  snd (fold_left
         (fun (best : num * nat) i =>
            if fst best <? at_ l i then (at_ l i, i) else best)
         (seq 0 (length l)) (js_neg_infinity, 0)).

Definition recommend (m : method) (scores : list num) : nat :=
  match m with
  | Elbow => (argMax (differences (differences scores)) + 2)%nat
  | Silhouette => (argMax scores + 2)%nat
  end.

Definition findOptimalK (data : matrix) (maxK : nat) (m : method)
           (random : random_source) (c : nat) : result (OptimalK * nat) :=
  do (scores, c') <- sweep data m random (seq 2 (maxK - 1)) [] c;
  Ok ({| scores := scores; recommendedK := recommend m scores |}, c').

End MLService.

(** ** utils/dataUtils.ts *)

(** *** Objects with string keys *)

(** An object is the list of its own properties in creation order; a key is
    looked up from the front and is written where it is, or added at the
    end.  Properties inherited from [Object.prototype] are not in the list.
    The object that counts the values of a column and the record a line is
    parsed into are written under keys taken from the data: [countValue] and
    [setField] say what the prototype does there.  Elsewhere a key is taken
    not to name a member of [Object.prototype]. *)
Definition object (V : Type) : Type := list (string * V).

Fixpoint lookup {V : Type} (key : string) (o : object V) : option V :=
  match o with
  | [] => None
  | (k, v) :: o' => if String.eqb k key then Some v else lookup key o'
  end.

Fixpoint assign {V : Type} (key : string) (v : V) (o : object V) : object V :=
  match o with
  | [] => [(key, v)]
  | (k, w) :: o' =>
      if String.eqb k key then (k, v) :: o' else (k, w) :: assign key v o'
  end.

Definition digitOf (a : ascii) : option N :=
  let n := N_of_ascii a in
  if (48 <=? n)%N && (n <=? 57)%N then Some (n - 48)%N else None.

Fixpoint parseDigits (s : string) (acc : N) : option N :=
  match s with
  | EmptyString => Some acc
  | String a s' =>
      match digitOf a with
      | Some dg => parseDigits s' (10 * acc + dg)%N
      | None => None
      end
  end.

(** The array index a key is, if it is one: a canonical decimal numeral
    below 2^32 - 1. *)
Definition arrayIndex (key : string) : option N :=
  match key with
  | EmptyString => None
  | String a rest =>
      if Ascii.eqb a "0"
      then match rest with EmptyString => Some 0%N | _ => None end
      else match parseDigits key 0 with
           | Some n => if (n <? 4294967295)%N then Some n else None
           | None => None
           end
  end.

Fixpoint insertIndex (x : N * string) (sorted : list (N * string))
  : list (N * string) :=
  match sorted with
  | [] => [x]
  | y :: rest =>
      if (fst x <? fst y)%N then x :: y :: rest
      else y :: insertIndex x rest
  end.

(** The order in which [for ... in] and [Object.entries] visit the own keys:
    array indices in ascending order, then the other keys in creation
    order. *)
Definition ownKeys {V : Type} (o : object V) : list string :=
  let keys := map fst o in
  let indices :=
    fold_right insertIndex []
      (flat_map (fun k => match arrayIndex k with
                          | Some n => [(n, k)]
                          | None => []
                          end) keys) in
  map snd indices
  ++ filter (fun k => match arrayIndex k with Some _ => false | None => true end)
            keys.

Section DataUtils.

Context (num : Type) {N : Number num}.
Local Open Scope js_scope.
Local Abbreviation matrix := (Matrix num).

(** [String(x)] and [Number(s)], which the code applies through JavaScript's
    coercions. *)
Variable number_to_string : num -> string.
Variable string_to_number : string -> num.

(** A cell of a passenger record. *)
Inductive value : Type :=
| VNumber (x : num)
| VString (s : string)
| VNull
| VUndefined.

Definition passenger : Type := object value.

(** [passenger[feature]]. *)
Definition get (p : passenger) (feature : string) : value :=
  match lookup feature p with
  | Some v => v
  | None => VUndefined
  end.

Definition isNumber (v : value) : bool :=
  match v with VNumber _ => true | _ => false end.

(** [v === null || v === undefined]. *)
Definition isMissing (v : value) : bool :=
  match v with VNull | VUndefined => true | _ => false end.

(** [v === null || v === undefined || v === '']. *)
Definition isBlank (v : value) : bool :=
  match v with
  | VNull | VUndefined => true
  | VString s => String.eqb s ""
  | VNumber _ => false
  end.

(** *** identifyFeatureTypes *)

Definition excludeFeatures : list string :=
  ["PassengerId"; "Name"; "Ticket"; "Cabin"; "Survived"]%string.

Definition excluded (feature : string) : bool :=
  existsb (String.eqb feature) excludeFeatures.

Record FeatureTypes : Type := {
  numericalFeatures : list string;
  categoricalFeatures : list string
}.

Definition classify (samplePassenger : passenger) (acc : FeatureTypes)
           (feature : string) : FeatureTypes :=
  if excluded feature then acc
  else if isNumber (get samplePassenger feature)
  then {| numericalFeatures := numericalFeatures acc ++ [feature];
          categoricalFeatures := categoricalFeatures acc |}
  else {| numericalFeatures := numericalFeatures acc;
          categoricalFeatures := categoricalFeatures acc ++ [feature] |}.

Definition identifyFeatureTypes (data : list passenger) : FeatureTypes :=
  match data with
  | [] => {| numericalFeatures := []; categoricalFeatures := [] |}
  | samplePassenger :: _ =>
      fold_left (classify samplePassenger) (ownKeys samplePassenger)
                {| numericalFeatures := []; categoricalFeatures := [] |}
  end.

(** *** imputeMissingValues *)

(** [ToNumber] and [ToString] of a cell that is neither [null] nor
    [undefined]. *)
Definition toNumber (v : value) : num :=
  match v with
  | VNumber x => x
  | VString s => string_to_number s
  | VNull => js_zero
  | VUndefined => js_nan
  end.

Definition toString (v : value) : string :=
  match v with
  | VNumber x => number_to_string x
  | VString s => s
  | VNull => "null"
  | VUndefined => "undefined"
  end.

(** [a + b]: the sum of two numbers, the concatenation otherwise. *)
Definition plus (a b : value) : value :=
  match a, b with
  | VNumber x, VNumber y => VNumber (x + y)
  | _, _ => VString (toString a ++ toString b)
  end.

(** [medians[feature]]. *)
Definition medianOf (data : list passenger) (feature : string) : value :=
  let validValues :=
    filter (fun v => negb (isMissing v)) (map (fun p => get p feature) data) in
  if Nat.ltb 0 (length validValues) then
    let sorted := sortBy (fun a b => toNumber a - toNumber b) validValues in
    let mid := Nat.div (length sorted) 2 in
    if Nat.eqb (Nat.modulo (length sorted) 2) 0
    then VNumber (toNumber (plus (nth (mid - 1) sorted VUndefined)
                                 (nth mid sorted VUndefined))
                  / of_nat 2)
    else nth mid sorted VUndefined
  else VNumber js_zero.

(** The names [Object.prototype] gives every object: under one of them a
    fresh object already holds a function (under [__proto__], the prototype
    itself). *)
Definition objectPrototypeMembers : list string :=
  ["constructor"; "__defineGetter__"; "__defineSetter__"; "hasOwnProperty";
   "__lookupGetter__"; "__lookupSetter__"; "isPrototypeOf";
   "propertyIsEnumerable"; "toString"; "valueOf"; "__proto__";
   "toLocaleString"]%string.

Definition inherited (key : string) : bool :=
  existsb (String.eqb key) objectPrototypeMembers.

(** What [valueCounts] holds under a key: a count, or the text that
    [(valueCounts[value] || 0) + 1] makes of an inherited member. *)
Inductive tally : Type :=
| Tally (count : nat)
| Garbled.

(** [valueCounts[value] = (valueCounts[value] || 0) + 1] over the cells of the
    column that are not blank.  [valueCounts] starts as [{}]: under a name of
    [objectPrototypeMembers] the first read finds the inherited member, which
    is truthy, and [+ 1] appends to its text; the text is stored as an own
    property, and grows at each later cell.  Under [__proto__] the store is
    ignored, since the text is no object. *)
Definition countValue (valueCounts : object tally) (v : value)
  : object tally :=
  if isBlank v then valueCounts
  else
    let key := toString v in
    match lookup key valueCounts with
    | Some (Tally (S count)) => assign key (Tally (S (S count))) valueCounts
    | Some (Tally 0) => assign key (Tally 1) valueCounts
    | Some Garbled => assign key Garbled valueCounts
    | None =>
        if inherited key
        then if String.eqb key "__proto__" then valueCounts
             else assign key Garbled valueCounts
        else assign key (Tally 1) valueCounts
    end.

Definition valueCountsOf (data : list passenger) (feature : string)
  : object tally :=
  fold_left countValue (map (fun p => get p feature) data) [].

(** The scan of [Object.entries(valueCounts)] with [count > maxCount]; a text
    compares as NaN, so that it is never above [maxCount]. *)
Definition modeOfCounts (valueCounts : object tally) : string :=
  snd (fold_left
         (fun (best : nat * string) key =>
            match lookup key valueCounts with
            | Some (Tally count) =>
                if Nat.ltb (fst best) count then (count, key) else best
            | _ => best
            end)
         (ownKeys valueCounts) (0, ""%string)).

(** [modes[feature]]. *)
Definition modeOf (data : list passenger) (feature : string) : string :=
  modeOfCounts (valueCountsOf data feature).

Definition imputeNumerical (data : list passenger) (imputed : passenger)
           (feature : string) : passenger :=
  if isMissing (get imputed feature)
  then assign feature (medianOf data feature) imputed
  else imputed.

Definition imputeCategorical (data : list passenger) (imputed : passenger)
           (feature : string) : passenger :=
  if isBlank (get imputed feature)
  then assign feature (VString (modeOf data feature)) imputed
  else imputed.

Definition imputePassenger (data : list passenger) (types : FeatureTypes)
           (p : passenger) : passenger :=
  fold_left (imputeCategorical data) (categoricalFeatures types)
            (fold_left (imputeNumerical data) (numericalFeatures types) p).

Definition imputeMissingValues (data : list passenger) : list passenger :=
  map (imputePassenger data (identifyFeatureTypes data)) data.

(** *** standardizeData *)

(** [row.forEach((val, i) => { stds[i] += Math.pow(val - means[i], 2) })],
    with [Math.pow(x, 2)] as the product [x * x]. *)
Fixpoint addSquaresInto (stds row means : list num) : list num :=
  match row with
  | [] => stds
  | val :: row' =>
      let dev := val - hd js_nan means in
      (hd js_nan stds + dev * dev)
        :: addSquaresInto (tl stds) row' (tl means)
  end.

Definition columnStds (numFeatures : nat) (data : matrix) (means : list num)
  : list num :=
  map (fun sum =>
         let std := js_sqrt (sum / of_nat (length data)) in
         if std === js_zero then js_one else std)
      (fold_left (fun stds row => addSquaresInto stds row means) data
                 (repeat js_zero numFeatures)).

Definition standardizeData (data : matrix) : matrix :=
  match data with
  | [] => []
  | row0 :: _ =>
      if Nat.eqb (length row0) 0 then []
      else
        let numFeatures := length row0 in
        let means := columnMeans numFeatures data in
        let stds := columnStds numFeatures data means in
        map (fun row =>
               map (fun i => (at_ row i - at_ means i) / at_ stds i)
                   (seq 0 (length row)))
            data
  end.

End DataUtils.

Arguments VString {num} s.
Arguments VNull {num}.
Arguments VUndefined {num}.

(** ** utils/dataUtils.ts: parsing, feature engineering, encoding, rates *)

(** [data.map(f)], where [f] may throw. *)
Fixpoint traverse {A B : Type} (f : A -> result B) (l : list A)
  : result (list B) :=
  match l with
  | [] => Ok []
  | x :: l' =>
      do y <- f x;
      do ys <- traverse f l';
      Ok (y :: ys)
  end.

(** *** Strings *)

(** A string is the list of its code units, here below 256.  [isSpace] is
    the class [\s] of regular expressions on them: tab, line feed, vertical
    tab, form feed, carriage return, space and no-break space. *)
Definition isSpace (a : ascii) : bool :=
  let n := nat_of_ascii a in
  (Nat.leb 9 n && Nat.leb n 13) || Nat.eqb n 32 || Nat.eqb n 160.

Fixpoint allChars (f : ascii -> bool) (s : string) : bool :=
  match s with
  | EmptyString => true
  | String a s' => f a && allChars f s'
  end.

(** [\s*]: the string less its leading spaces. *)
Fixpoint skipSpaces (s : string) : string :=
  match s with
  | EmptyString => EmptyString
  | String a s' => if isSpace a then skipSpaces s' else s
  end.

(** A character [[^\s\.]] matches. *)
Definition isTitleChar (a : ascii) : bool :=
  negb (isSpace a || Ascii.eqb a ".").

(** [[^\s\.]+], greedy: the longest prefix of such characters, and the rest. *)
Fixpoint takeWord (s : string) : string * string :=
  match s with
  | EmptyString => (EmptyString, EmptyString)
  | String a s' =>
      if isTitleChar a
      then let (word, rest) := takeWord s' in (String a word, rest)
      else (EmptyString, s)
  end.

(** A match of [\s*([^\s\.]+)\.] at the start of [s]: the group.  The two
    greedy runs leave the matcher nothing to backtrack to: a shorter run of
    spaces is followed by a space, a shorter word by a word character. *)
Definition titleAfterComma (s : string) : option string :=
  match takeWord (skipSpaces s) with
  | (EmptyString, _) => None
  | (word, String a _) => if Ascii.eqb a "." then Some word else None
  | (_, EmptyString) => None
  end.

(** [name.match(/,\s*([^\s\.]+)\./)]: group 1 of the leftmost match. *)
Fixpoint matchTitle (name : string) : option string :=
  match name with
  | EmptyString => None
  | String a rest =>
      if Ascii.eqb a ","
      then match titleAfterComma rest with
           | Some title => Some title
           | None => matchTitle rest
           end
      else matchTitle rest
  end.

(** *** parseCSV *)

(** The double quote, the backslash and the line feed. *)
Definition quoteChar : ascii := "034"%char.
Definition backslashChar : ascii := "092"%char.
Definition newlineChar : ascii := "010"%char.

(** [s.trimEnd()] and [s.trim()]. *)
Fixpoint trimEnd (s : string) : string :=
  match s with
  | EmptyString => EmptyString
  | String a s' =>
      match trimEnd s' with
      | EmptyString => if isSpace a then EmptyString else String a EmptyString
      | rest => String a rest
      end
  end.

Definition trim (s : string) : string := trimEnd (skipSpaces s).

(** [s.split(sep)] for a separator of one character. *)
Fixpoint split (sep : ascii) (s : string) : list string :=
  match s with
  | EmptyString => [EmptyString]
  | String a s' =>
      if Ascii.eqb a sep then EmptyString :: split sep s'
      else match split sep s' with
           | first :: rest => String a first :: rest
           | [] => [String a EmptyString]
           end
  end.

(** The loop of [parseCSV] over the characters of a line from index [i]:
    [previous] is [line[i-1]], if there is one. *)
Fixpoint scanFields (line : string) (previous : option ascii)
         (inQuotes : bool) (currentValue : string) (values : list string)
  : list string :=
  match line with
  | EmptyString => values ++ [currentValue]
  | String char rest =>
      if Ascii.eqb char quoteChar
         && match previous with
            | None => true
            | Some before => negb (Ascii.eqb before backslashChar)
            end
      then scanFields rest (Some char) (negb inQuotes) currentValue values
      else if Ascii.eqb char "," && negb inQuotes
      then scanFields rest (Some char) inQuotes EmptyString
                      (values ++ [currentValue])
      else scanFields rest (Some char) inQuotes
                      (currentValue ++ String char EmptyString) values
  end.

(** The values of a line. *)
Definition splitFields (line : string) : list string :=
  scanFields line None false EmptyString [].

(** [value.replace] of a quote at the start and of a quote at the end by
    nothing. *)
Fixpoint dropLastQuote (s : string) : string :=
  match s with
  | EmptyString => EmptyString
  | String a EmptyString =>
      if Ascii.eqb a quoteChar then EmptyString else s
  | String a s' => String a (dropLastQuote s')
  end.

Definition stripQuotes (s : string) : string :=
  match s with
  | EmptyString => EmptyString
  | String a s' =>
      if Ascii.eqb a quoteChar then dropLastQuote s' else dropLastQuote s
  end.

Section ParseCSV.

Context (num : Type).

(** [parseInt(value, 10)] and [parseFloat(value)]. *)
Variable parse_int : string -> num.
Variable parse_float : string -> num.

Local Abbreviation passenger := (passenger num).
Local Abbreviation value := (value num).

Definition integerColumns : list string :=
  ["PassengerId"; "Survived"; "Pclass"; "SibSp"; "Parch"]%string.

Definition floatColumns : list string := ["Age"; "Fare"]%string.

(** A value, typed by the header of its column. *)
Definition convertField (header field : string) : value :=
  if existsb (String.eqb header) integerColumns then
    if String.eqb field "" then VNull else VNumber (parse_int field)
  else if existsb (String.eqb header) floatColumns then
    if String.eqb field "" then VNull else VNumber (parse_float field)
  else VString field.

(** [values[index]], less its outer quotes; the empty string when there is
    no such value. *)
Definition fieldAt (values : list string) (index : nat) : string :=
  match nth_error values index with
  | Some field => stripQuotes field
  | None => EmptyString
  end.

(** [passenger[header] = value] on the record under construction.  Under the
    header [__proto__] the value is a string, and the store of a string there
    is ignored: the record gets no field. *)
Definition setField (header : string) (v : value) (p : passenger)
  : passenger :=
  if String.eqb header "__proto__" then p else assign header v p.

Definition parseLine (headers : list string) (line : string) : passenger :=
  let values := splitFields line in
  fold_left
    (fun (p : passenger) (column : nat * string) =>
       setField (snd column)
                (convertField (snd column) (fieldAt values (fst column))) p)
    (combine (seq 0 (length headers)) headers) [].

Definition parseCSV (csvText : string) : list passenger :=
  let lines := split newlineChar (trim csvText) in
  let headers := map trim (split "," (hd EmptyString lines)) in
  map (parseLine headers) (tl lines).

End ParseCSV.

Section Features.

Context (num : Type) {N : Number num}.
Local Open Scope js_scope.
Variable number_to_string : num -> string.

Local Abbreviation passenger := (passenger num).
Local Abbreviation value := (value num).

(** *** engineerFeatures *)

(** Whether a cell counts as true: not [null], [undefined], 0, NaN or the
    empty string. *)
Definition truthy (v : value) : bool :=
  match v with
  | VNumber x => negb (x === js_zero) && (x === x)
  | VString s => negb (String.eqb s "")
  | VNull | VUndefined => false
  end.

(** [v || fallback]. *)
Definition orElse (v fallback : value) : value :=
  if truthy v then v else fallback.

(** [a === b]. *)
Definition strictEquals (a b : value) : bool :=
  match a, b with
  | VNumber x, VNumber y => x === y
  | VString s, VString t => String.eqb s t
  | VNull, VNull | VUndefined, VUndefined => true
  | _, _ => false
  end.

(** [{ ...passenger }]: the own properties, copied in the order
    of [ownKeys]. *)
Definition copyOf (p : passenger) : passenger :=
  map (fun key => (key, get p key)) (ownKeys p).

(** The body of the [map]; [passenger.Name.match] is not a function when
    [Name] is a number. *)
Definition engineerPassenger (p : passenger) : result passenger :=
  let enhanced := copyOf p in
  let enhanced :=
    assign "FamilySize"
           (plus number_to_string
                 (plus number_to_string
                       (orElse (get p "SibSp") (VNumber js_zero))
                       (orElse (get p "Parch") (VNumber js_zero)))
                 (VNumber js_one))
           enhanced in
  do enhanced <-
     (if truthy (get p "Name") then
        match get p "Name" with
        | VString name =>
            Ok (assign "Title"
                       (VString match matchTitle name with
                                | Some title => title
                                | None => "Unknown"
                                end)
                       enhanced)
        | _ => Throw TypeError
        end
      else Ok enhanced);
  Ok (assign "HasCabin"
             (if truthy (get p "Cabin")
                 && negb (strictEquals (get p "Cabin") (VString ""))
              then VNumber js_one else VNumber js_zero)
             enhanced).

Definition engineerFeatures (data : list passenger) : result (list passenger) :=
  traverse engineerPassenger data.

(** *** separateFeatures *)

(** [const { Survived, ...rest } = passenger]: the copy without one key. *)
Definition restWithout (key : string) (p : passenger) : passenger :=
  map (fun k => (k, get p k))
      (filter (fun k => negb (String.eqb k key)) (ownKeys p)).

(** The features, and the column [survived]. *)
Definition separateFeatures (data : list passenger)
  : list passenger * list value :=
  (map (restWithout "Survived") data,
   map (fun p => orElse (get p "Survived") (VNumber js_zero)) data).

(** *** oneHotEncodeCategorical *)

(** The equality of the members of a [Set]: [===], but NaN equals NaN. *)
Definition sameValueZero (a b : value) : bool :=
  match a, b with
  | VNumber x, VNumber y => (x === y) || (negb (x === x) && negb (y === y))
  | _, _ => strictEquals a b
  end.

(** [set.add(v)]; a [Set] lists its members in insertion order. *)
Definition addValue (set : list value) (v : value) : list value :=
  if existsb (sameValueZero v) set then set else set ++ [v].

(** [categoricalValues[feature]]. *)
Definition categoricalValuesOf (data : list passenger) (feature : string)
  : list value :=
  fold_left (fun set p =>
               let v := get p feature in
               if isBlank v then set else addValue set v)
            data [].

(** The cells of a row for one categorical feature. *)
Definition oneHotBlock (data : list passenger) (p : passenger)
           (feature : string) : list value :=
  map (fun v => if strictEquals (get p feature) v
                then VNumber js_one else VNumber js_zero)
      (categoricalValuesOf data feature).

(** A row holds the cells as they are: what is not a number is pushed all
    the same. *)
Record Encoded : Type := {
  encodedData : list (list value);
  features : list string
}.

Definition oneHotEncodeCategorical (data : list passenger)
           (categoricalFeatures : list string) : Encoded :=
  let numericalFeatures := numericalFeatures (identifyFeatureTypes data) in
  {| encodedData :=
       map (fun p =>
              map (fun feature => get p feature) numericalFeatures
              ++ flat_map (oneHotBlock data p) categoricalFeatures)
           data;
     features :=
       numericalFeatures
       ++ flat_map (fun feature =>
                      map (fun v => (feature ++ "_"
                                     ++ toString number_to_string v)%string)
                          (categoricalValuesOf data feature))
                   categoricalFeatures |}.

End Features.

(** *** getClusterSurvivalRates *)

Section ClusterRates.

Context (num : Type) {N : Number num}.
Local Open Scope js_scope.

(** The key a cluster label is in an object: its decimal numeral. *)
Definition keyOfLabel (cluster : nat) : string :=
  NilZero.string_of_uint (Nat.to_uint cluster).

(** [survived.filter((s, i) => clusters[i] === cluster)]. *)
Definition clusterSurvived (survived : list num) (clusters : list nat)
           (cluster : nat) : list num :=
  map fst
      (filter (fun flag : num * nat =>
                 sameLabel (nth_error clusters (snd flag)) (Some cluster))
              (combine survived (seq 0 (length survived)))).

Definition survivalRate (survived : list num) (clusters : list nat)
           (cluster : nat) : num :=
  let flags := clusterSurvived survived clusters cluster in
  if Nat.eqb (length flags) 0 then js_zero
  else sum_list flags / of_nat (length flags).

(** [survived] is [None] when the column is [undefined]. *)
Definition getClusterSurvivalRates (survived : option (list num))
           (clusters : list nat) : object num :=
  match survived with
  | None => []
  | Some flags =>
      fold_left (fun survivalRates cluster =>
                   assign (keyOfLabel cluster)
                          (survivalRate flags clusters cluster)
                          survivalRates)
                (uniqueLabels clusters) []
  end.

End ClusterRates.

(** ** The two readings of [number] *)

(** *** IEEE 754 binary64 *)

Module Binary64.

(** [Math.min] and [Math.max]: NaN if an argument is, and -0 below +0. *)
Definition fmin (a b : float) : float :=
  if PrimFloat.is_nan a || PrimFloat.is_nan b then nan
  else if PrimFloat.ltb a b then a
  else if PrimFloat.ltb b a then b
  else match PrimFloat.classify a with NZero => a | _ => b end.

Definition fmax (a b : float) : float :=
  if PrimFloat.is_nan a || PrimFloat.is_nan b then nan
  else if PrimFloat.ltb a b then b
  else if PrimFloat.ltb b a then a
  else match PrimFloat.classify a with PZero => a | _ => b end.

(** The index [Math.floor(x)] is: that of a non-negative finite [x]. *)
Definition floorIndex (x : float) : option nat :=
  match Prim2SF x with
  | S754_zero _ => Some 0
  | S754_finite false m e => Some (Z.to_nat (Z.shiftl (Zpos m) e))
  | _ => None
  end.

Definition ofNat (n : nat) : float :=
  PrimFloat.of_uint63 (Uint63.of_Z (Z.of_nat n)).

#[export] Instance float_Number : Number float := {|
  js_zero := 0%float;
  js_one := 1%float;
  js_infinity := infinity;
  js_neg_infinity := neg_infinity;
  js_nan := nan;
  js_add := PrimFloat.add;
  js_sub := PrimFloat.sub;
  js_mul := PrimFloat.mul;
  js_div := PrimFloat.div;
  js_sqrt := PrimFloat.sqrt;
  js_lt := PrimFloat.ltb;
  js_le := PrimFloat.leb;
  js_eq := PrimFloat.eqb;
  js_min := fmin;
  js_max := fmax;
  of_nat := ofNat;
  floor_index := floorIndex
|}.

End Binary64.

(** *** Exact arithmetic *)

Module Exact.

Local Open Scope R_scope.

(** A number is a real, an infinity or NaN: the special values behave as in
    IEEE 754, finite values are computed without rounding and never
    overflow, and there is one zero. *)
Inductive xreal : Type :=
| Fin (r : R)
| PInf
| NInf
| NaN.

Definition Rltb (x y : R) : bool := if Rlt_dec x y then true else false.
Definition Reqb (x y : R) : bool := if Req_dec_T x y then true else false.

Definition xneg (x : xreal) : xreal :=
  match x with
  | Fin a => Fin (- a)
  | PInf => NInf
  | NInf => PInf
  | NaN => NaN
  end.

Definition xadd (x y : xreal) : xreal :=
  match x, y with
  | NaN, _ | _, NaN => NaN
  | Fin a, Fin b => Fin (a + b)
  | PInf, NInf | NInf, PInf => NaN
  | PInf, _ | _, PInf => PInf
  | NInf, _ | _, NInf => NInf
  end.

Definition xsub (x y : xreal) : xreal := xadd x (xneg y).

(** An infinity of the sign of [a], NaN for [a = 0]. *)
Definition infinityOfSign (a : R) : xreal :=
  if Rltb 0 a then PInf else if Rltb a 0 then NInf else NaN.

Definition xmul (x y : xreal) : xreal :=
  match x, y with
  | NaN, _ | _, NaN => NaN
  | Fin a, Fin b => Fin (a * b)
  | Fin a, PInf | PInf, Fin a => infinityOfSign a
  | Fin a, NInf | NInf, Fin a => infinityOfSign (- a)
  | PInf, PInf | NInf, NInf => PInf
  | PInf, NInf | NInf, PInf => NInf
  end.

Definition xdiv (x y : xreal) : xreal :=
  match x, y with
  | NaN, _ | _, NaN => NaN
  | Fin a, Fin b => if Reqb b 0 then infinityOfSign a else Fin (a / b)
  | Fin _, _ => Fin 0
  | PInf, Fin b => if Rltb b 0 then NInf else PInf
  | NInf, Fin b => if Rltb b 0 then PInf else NInf
  | _, _ => NaN
  end.

Definition xsqrt (x : xreal) : xreal :=
  match x with
  | Fin a => if Rltb a 0 then NaN else Fin (sqrt a)
  | PInf => PInf
  | _ => NaN
  end.

Definition xlt (x y : xreal) : bool :=
  match x, y with
  | NaN, _ | _, NaN => false
  | Fin a, Fin b => Rltb a b
  | _, NInf | PInf, _ => false
  | _, _ => true
  end.

Definition xeq (x y : xreal) : bool :=
  match x, y with
  | Fin a, Fin b => Reqb a b
  | PInf, PInf | NInf, NInf => true
  | _, _ => false
  end.

Definition xle (x y : xreal) : bool := xlt x y || xeq x y.

Definition xmin (x y : xreal) : xreal :=
  match x, y with
  | NaN, _ | _, NaN => NaN
  | _, _ => if xlt y x then y else x
  end.

Definition xmax (x y : xreal) : xreal :=
  match x, y with
  | NaN, _ | _, NaN => NaN
  | _, _ => if xlt x y then y else x
  end.

Definition xfloorIndex (x : xreal) : option nat :=
  match x with
  | Fin a => if Rltb a 0 then None else Some (Z.to_nat (Int_part a))
  | _ => None
  end.

#[export] Instance xreal_Number : Number xreal := {|
  js_zero := Fin 0;
  js_one := Fin 1;
  js_infinity := PInf;
  js_neg_infinity := NInf;
  js_nan := NaN;
  js_add := xadd;
  js_sub := xsub;
  js_mul := xmul;
  js_div := xdiv;
  js_sqrt := xsqrt;
  js_lt := xlt;
  js_le := xle;
  js_eq := xeq;
  js_min := xmin;
  js_max := xmax;
  of_nat := fun n => Fin (INR n);
  floor_index := xfloorIndex
|}.

(** A matrix of reals, as a matrix of numbers. *)
Definition inject (data : list (list R)) : Matrix xreal :=
  map (map Fin) data.

End Exact.

(** ** The vocabulary of the specification *)

Section Vocabulary.

Context (num : Type) {N : Number num}.
Local Open Scope js_scope.
Local Abbreviation matrix := (Matrix num).

(** Every row has [d] cells. *)
Definition rectangular {A : Type} (d : nat) (data : list (list A)) : Prop :=
  Forall (fun row => length row = d) data.

(** Some row has another length than the first. *)
Definition ragged {A : Type} (data : list (list A)) : bool :=
  match data with
  | [] => false
  | row0 :: rest =>
      existsb (fun row => negb (Nat.eqb (length row) (length row0))) rest
  end.

(** Every draw of [Math.floor(Math.random() * n)] is an index below [n] (as
    it is for draws in [0, 1); nothing is drawn when [n] is 0). *)
Definition validDraws (random : random_source num) (n : nat) : Prop :=
  (0 < n)%nat ->
  forall c, exists i, randomIndex (random c) n = Some i /\ (i < n)%nat.

(** The sum, over the rows that have a label, of the distance from the row
    to the centroid of its label. *)
Definition sumOfDistances (data : matrix) (labels : list nat)
           (centroids : matrix) : num :=
  fold_left
    (fun acc (assigned : list num * nat) =>
       acc + euclideanDistance (fst assigned) (nth (snd assigned) centroids []))
    (combine data labels) js_zero.

(** The rows labelled [i], in row order. *)
Definition assignedPoints (data : matrix) (labels : list nat) (i : nat)
  : matrix :=
  map fst (filter (fun assigned : list num * nat => Nat.eqb (snd assigned) i)
                  (combine data labels)).

(** The mean of the [j]-th coordinates of some points, summed in order. *)
Definition coordinateMean (points : matrix) (j : nat) : num :=
  fold_left (fun sum point => sum + at_ point j) points js_zero
  / of_nat (length points).

Definition meanPoint (d : nat) (points : matrix) : list num :=
  map (coordinateMean points) (seq 0 d).

End Vocabulary.

(** A pass of [imputeMissingValues] over features: the cells a test selects
    are filled. *)
Definition fillStep (num : Type) (test : value num -> bool)
           (fill : string -> value num) (imputed : passenger num)
           (feature : string) : passenger num :=
  if test (get imputed feature) then assign feature (fill feature) imputed
  else imputed.

(** The number of non-blank cells of a column whose string is [key]. *)
Definition occurrences (num : Type) (number_to_string : num -> string)
           (data : list (passenger num)) (feature key : string) : nat :=
  length (filter (fun v => negb (isBlank v)
                           && String.eqb (toString number_to_string v) key)
                 (map (fun p => get p feature) data)).

(** The count [valueCounts] holds under a key, 0 where it holds none. *)
Definition countIn (valueCounts : object tally) (key : string) : nat :=
  match lookup key valueCounts with
  | Some (Tally count) => count
  | _ => 0
  end.

(** No text is held under a name that is not a member of
    [Object.prototype], and no count under a name that is. *)
Definition counted (valueCounts : object tally) : Prop :=
  forall key,
    match lookup key valueCounts with
    | Some (Tally _) => inherited key = false
    | Some Garbled => inherited key = true
    | None => True
    end.

(** A field as a CSV file writes it, bare or between quotes, and a line of
    fields. *)
Definition writeField (field : bool * string) : string :=
  if fst field
  then String quoteChar (snd field ++ String quoteChar EmptyString)
  else snd field.

Fixpoint joinFields (fields : list string) : string :=
  match fields with
  | [] => EmptyString
  | [field] => field
  | field :: rest => (field ++ String "," (joinFields rest))%string
  end.

Fixpoint lastChar (s : string) (otherwise : option ascii) : option ascii :=
  match s with
  | EmptyString => otherwise
  | String a s' => lastChar s' (Some a)
  end.

(** A field the scan reads back: it holds no quote; between quotes it does
    not end in a backslash, bare it holds no comma. *)
Definition readable (field : bool * string) : Prop :=
  allChars (fun a => negb (Ascii.eqb a quoteChar)) (snd field) = true
  /\ (if fst field
      then lastChar (snd field) None <> Some backslashChar
      else allChars (fun a => negb (Ascii.eqb a ",")) (snd field) = true).

(** A cell of a column of numbers is a number or [null]; a cell of another
    column is a string. *)
Definition typedAs (num : Type) (header : string) (v : value num) : Prop :=
  if existsb (String.eqb header) (integerColumns ++ floatColumns)
  then isNumber v = true \/ v = VNull
  else exists s, v = VString s.

(** Reals, and numbers that are reals. *)

Module ExactVocabulary.

Import Exact.
Local Open Scope R_scope.

(** A number that is a real, not below 0. *)
Definition nonneg (x : xreal) : Prop := exists r, x = Fin r /\ 0 <= r.

(** A number that is a real between -1 and 1. *)
Definition inUnit (x : xreal) : Prop := exists r, x = Fin r /\ -1 <= r <= 1.

(** A vector of numbers that holds the reals [e 0], ..., [e (d - 1)]. *)
Definition finVec (d : nat) (e : nat -> R) : list xreal :=
  map (fun j => Fin (e j)) (seq 0 d).

(** Column [j] of a matrix of reals. *)
Definition column (j : nat) (m : list (list R)) : list R :=
  map (fun row => nth j row 0) m.

Definition Rsum (l : list R) : R := fold_left Rplus l 0.

Definition mean (l : list R) : R := Rsum l / INR (length l).

(** The population standard deviation. *)
Definition deviation (l : list R) : R :=
  sqrt (Rsum (map (fun x => (x - mean l) * (x - mean l)) l) / INR (length l)).

Definition constant (l : list R) : Prop :=
  forall x y, In x l -> In y l -> x = y.

(** The scale of a column: its deviation, or 1 when that is 0. *)
Definition scale (l : list R) : R :=
  if Req_dec_T (deviation l) 0 then 1 else deviation l.

(** Each cell less the mean of its column, over the scale of its column. *)
Definition standardized (d : nat) (rows : list (list R)) : list (list R) :=
  map (fun row =>
         map (fun j => (nth j row 0 - mean (column j rows))
                       / scale (column j rows))
             (seq 0 d))
      rows.

(** The squared distance of two rows of reals. *)
Fixpoint squaredDistance (a b : list R) : R :=
  match a, b with
  | x :: a', y :: b' => (x + - y) * (x + - y) + squaredDistance a' b'
  | _, _ => 0
  end.

(** The rows picked so far are distinct rows of the matrix, and the
    centroids are their copies. *)
Definition seeded (rows : list (list R)) (st : seeding xreal) : Prop :=
  NoDup (seed_rows st)
  /\ Forall (fun i => (i < length rows)%nat) (seed_rows st)
  /\ seed_rows st <> []
  /\ seed_centroids st
     = inject (map (fun i => nth i rows []) (seed_rows st)).

End ExactVocabulary.

(** Binary64 numbers as reals: the value of a number of the format, and what
    the rounding lemmas speak of. *)

Module Binary64Vocabulary.

Import Binary64.
Local Open Scope R_scope.

(** [2^e], and [m * 2^e]. *)
Definition bpow (e : Z) : R := powerRZ 2 e.
Definition F2R (m e : Z) : R := IZR m * bpow e.

(** A positive number [mB * 2^eB] of the format: at most [prec] digits, and
    an exponent in range. *)
Definition inFormat (mB eB : Z) : Prop :=
  (0 < mB)%Z /\ (Zdigits2 mB <= prec)%Z
  /\ (SpecFloat.emin prec emax <= eB <= emax - prec)%Z.

(** While a mantissa is shifted right before it is rounded, it stays at or
    below the value [v] that is rounded, and strictly below once a bit has
    been lost. *)
Definition below (v : R) (e : Z) (mrs : shr_record) : Prop :=
  (0 <= shr_m mrs)%Z
  /\ F2R (shr_m mrs) e <= v
  /\ (shr_r mrs || shr_s mrs = true -> F2R (shr_m mrs) e < v).

(** The real a number of the format is; 0 for an infinity and for NaN. *)
Definition B2R (f : spec_float) : R :=
  match f with
  | S754_finite s m e => F2R (cond_Zopp s (Zpos m)) e
  | _ => 0
  end.

(** Neither an infinity nor NaN. *)
Definition isFin (f : spec_float) : bool :=
  match f with
  | S754_zero _ | S754_finite _ _ _ => true
  | _ => false
  end.

(** Not below 0: NaN and both zeros included. *)
Definition notNeg (f : spec_float) : bool :=
  match f with
  | S754_finite true _ _ | S754_infinity true => false
  | _ => true
  end.

Definition ordered (c : comparison) (x y : R) : Prop :=
  match c with
  | Lt => x < y
  | Eq => x = y
  | Gt => y < x
  end.

(** The same of JavaScript numbers. *)
Definition val (x : float) : R := B2R (Prim2SF x).
Definition fin (x : float) : Prop := isFin (Prim2SF x) = true.
Definition notNegative (x : float) : Prop := notNeg (Prim2SF x) = true.

(** [Number.isFinite(x)]. *)
Definition isFinite (x : float) : bool :=
  negb (PrimFloat.is_nan x) && negb (PrimFloat.is_infinity x).

End Binary64Vocabulary.

(** ** Sample inputs *)

Module Samples.

Import Binary64.
Local Open Scope float_scope.

(** [Math.random()] returning the same value at every call. *)
Definition always (r : float) : random_source float := fun _ => r.

(** The four points of the end-to-end scenario. *)
Definition fourPoints : Matrix float := [[0; 0]; [0; 1]; [10; 0]; [10; 1]].

(** A matrix whose second row is shorter than the first. *)
Definition raggedRows : Matrix float := [[1; 2]; [3]].

(** Three rows of two columns. *)
Definition threeRows : Matrix float := [[1; 2]; [3; 5]; [2; 2]].


(** Two rows on a line, and two equal rows. *)
Definition twoOnALine : Matrix float := [[0]; [1]].
Definition twoEqualRows : Matrix float := [[1; 2]; [1; 2]].

(** A column that holds one value, the double nearest to 0.1. *)
Definition constantColumn : Matrix float :=
  [[0x1.999999999999ap-4]; [0x1.999999999999ap-4]; [0x1.999999999999ap-4]].

(** A column of three finite values; the sum of the first two is beyond the
    largest double. *)
Definition hugeColumn : Matrix float := [[0x1p1023]; [0x1p1023]; [-0x1p1023]].

(** Four rows of one coordinate (0, 51.9, 200.33333333333334 and 188), and
    draws of 0.125 and then of the largest double below 1. *)
Definition spread : Matrix float :=
  [[0]; [0x1.9f33333333333p+5]; [0x1.90aaaaaaaaaabp+7]; [188]].
Definition lateDraws : random_source float :=
  fun c => match c with O => 0.125 | _ => 0x1.fffffffffffffp-1 end.


(** What the end-to-end scenario returns when every draw is 0.5: the two
    groups, and an inertia of four distances of 0.5. *)
Definition fourPointsResult : KMeansResult float :=
  {| labels := [1; 1; 0; 0]%nat;
     centroids := [[10; 0.5]; [0; 0.5]];
     inertia := 2 |}.

(** Two passengers; the first has no age. *)
Definition noAgeFirst : list (passenger float) :=
  [[("Age", VNull); ("Sex", VString "male")];
   [("Age", VNumber 22); ("Sex", VString "female")]]%string.

(** [String(x)] and [Number(s)] on the cells of [noAgeFirst]. *)
Definition showCell (x : float) : string := "22"%string.
Definition readCell (s : string) : float := nan.

(** The seeds of the four points when every draw is 0.5, and the state after
    a turn of the loop. *)
Definition fourPointsSeeds : Matrix float := [[10; 0]; [0; 1]].
Definition fourPointsLabels : list nat := [1; 1; 0; 0]%nat.
Definition fourPointsMeans : Matrix float := [[10; 0.5]; [0; 0.5]].

(** The inertias of the four points for [k] from 2 to 4. *)
Definition fourPointsElbow : OptimalK float :=
  {| scores := [2; 1; 0]; recommendedK := 2 |}.

(** A passenger, and what [engineerFeatures] makes of him. *)
Definition braund : passenger float :=
  [("Survived", VNumber 0); ("Name", VString "Braund, Mr. Owen Harris");
   ("SibSp", VNumber 1); ("Parch", VNumber 0); ("Cabin", VString "")]%string.
Definition braundEngineered : passenger float :=
  [("Survived", VNumber 0); ("Name", VString "Braund, Mr. Owen Harris");
   ("SibSp", VNumber 1); ("Parch", VNumber 0); ("Cabin", VString "");
   ("FamilySize", VNumber 2); ("Title", VString "Mr");
   ("HasCabin", VNumber 0)]%string.

(** Two passengers; the first has no field [Age], the second holds [null]
    there. *)
Definition noAgeKey : list (passenger float) :=
  [[("Sex", VString "male")];
   [("Age", VNull); ("Sex", VString "female")]]%string.

(** Three passengers; two embarked at a port named as a member of
    [Object.prototype] is. *)
Definition threePorts : list (passenger float) :=
  [[("Embarked", VString "constructor")];
   [("Embarked", VString "constructor")];
   [("Embarked", VString "S")]]%string.

(** The records of [noAgeFirst]: the first after imputation, and the
    second. *)
Definition noAgeFilled : passenger float :=
  [("Age", VString "22"); ("Sex", VString "male")]%string.
Definition aged22 : passenger float :=
  [("Age", VNumber 22); ("Sex", VString "female")]%string.

(** A file of a header line and one record, the number every numeral on it
    reads as, and the record parsed. *)
Definition twoLines : string :=
  ("Name,Age" ++ String newlineChar "Braund,22")%string.
Definition readNumeral (s : string) : float := 22.
Definition braundParsed : passenger float :=
  [("Name", VString "Braund"); ("Age", VNumber 22)]%string.

(** Three fields; the second is written between quotes. *)
Definition threeFields : list (bool * string) :=
  [(false, "1"); (true, "Braund, Mr. Owen"); (false, "male")]%string.

(** Two fields; the first is written between quotes. *)
Definition quotedName : list (bool * string) :=
  [(true, "Braund, Mr. Owen"); (false, "22")]%string.

End Samples.

Module ExactSamples.

Import Exact.
Local Open Scope R_scope.

(** Three points on a line, the first two in one cluster. *)
Definition threeOnALine : list (list R) := [[0]; [1]; [5]].

(** Two columns, the second constant. *)
Definition oneConstantColumn : list (list R) := [[1; 2]; [3; 2]; [5; 2]].

(** The three points as numbers, with the labels of two clusters. *)
Definition threeNumbers : Matrix xreal := inject threeOnALine.
Definition twoClusters : list nat := [0; 0; 1]%nat.

(** Flags of survival. *)
Definition threeFlags : list R := [1; 0; 1].

End ExactSamples.

(** ** Arrays: lengths and reads *)

Section ArrayFacts.

Context {A B : Type}.

Lemma set_nth_length (i : nat) (v : A) (l : list A) :
  length (set_nth i v l) = length l.
Proof.
  revert i; induction l as [|x l IH]; intros [|i]; simpl; auto.
Qed.

Lemma nth_set_nth_same (i : nat) (v d : A) (l : list A) :
  i < length l -> nth i (set_nth i v l) d = v.
Proof.
  revert i; induction l as [|x l IH]; intros [|i] Hi; simpl in *;
    try lia; auto.
  apply IH; lia.
Qed.

Lemma nth_set_nth_other (i j : nat) (v d : A) (l : list A) :
  i <> j -> nth j (set_nth i v l) d = nth j l d.
Proof.
  revert i j; induction l as [|x l IH]; intros [|i] [|j] Hij; simpl;
    try congruence; auto.
Qed.

Lemma nth_map_seq (f : nat -> A) (n j : nat) (d : A) :
  j < n -> nth j (map f (seq 0 n)) d = f j.
Proof.
  intros Hj.
  rewrite (nth_indep _ d (f 0)) by (rewrite length_map, length_seq; exact Hj).
  rewrite map_nth, seq_nth; auto.
Qed.

(** A loop over the indices of an array that reads the array at each is a
    fold of the array. *)
Lemma fold_left_indices (f : B -> A -> B) (l : list A) (d : A) :
  forall (start : nat) (pre : list A) (b : B),
    length pre = start ->
    fold_left (fun acc i => f acc (nth i (pre ++ l) d))
              (seq start (length l)) b
    = fold_left f l b.
Proof.
  induction l as [|x l IH]; intros start pre b Hpre; simpl; auto.
  rewrite app_nth2 by lia.
  replace (start - length pre) with 0 by lia; simpl.
  specialize (IH (S start) (pre ++ [x]) (f b x)).
  rewrite <- app_assoc in IH; simpl in IH.
  apply IH; rewrite length_app; simpl; lia.
Qed.

Lemma fold_left_nth (f : B -> A -> B) (l : list A) (d : A) (b : B) :
  fold_left (fun acc i => f acc (nth i l d)) (seq 0 (length l)) b
  = fold_left f l b.
Proof. exact (fold_left_indices f l d (start := 0) [] b eq_refl). Qed.

End ArrayFacts.

Lemma fold_left_ext {A B : Type} (f g : B -> A -> B) (l : list A) (b : B) :
  (forall acc x, f acc x = g acc x) -> fold_left f l b = fold_left g l b.
Proof.
  intros Hfg; revert b; induction l as [|x l IH]; intros b; simpl; auto.
  rewrite Hfg; apply IH.
Qed.

Lemma fold_left_ext_in {A B : Type} (f g : B -> A -> B) (l : list A) (b : B) :
  (forall acc x, In x l -> f acc x = g acc x) ->
  fold_left f l b = fold_left g l b.
Proof.
  revert b; induction l as [|x l IH]; intros b Hfg; simpl; auto.
  rewrite Hfg by (left; reflexivity).
  apply IH; intros; apply Hfg; right; assumption.
Qed.

(** A scan that keeps an index of the scanned list, or its initial one. *)
Lemma fold_left_index_bound {A : Type} (step : A * nat -> nat -> A * nat)
      (l : list nat) (m : nat) :
  (forall best j, step best j = best \/ snd (step best j) = j) ->
  Forall (fun j => j < m) l ->
  forall best, snd best < m -> snd (fold_left step l best) < m.
Proof.
  intros Hstep Hl; induction Hl as [|j l Hj _ IH]; intros best Hbest; simpl;
    auto.
  apply IH.
  destruct (Hstep best j) as [-> | ->]; assumption.
Qed.

Lemma Forall_seq_lt (n : nat) : Forall (fun j => j < n) (seq 0 n).
Proof. apply Forall_forall; intros j Hj; apply in_seq in Hj; lia. Qed.

(** ** K-means: the run returns, and what it returns *)

Section KMeansFacts.

Context (num : Type) {N : Number num}.
Local Open Scope js_scope.
Local Abbreviation matrix := (Matrix num).

Lemma computeInertia_sum (data : matrix) (labels : list nat)
      (centroids : matrix) :
  length labels = length data ->
  computeInertia data labels centroids = sumOfDistances data labels centroids.
Proof.
  intros Hlen; unfold computeInertia, sumOfDistances.
  rewrite <- (fold_left_nth _ (combine data labels) ([], 0)).
  rewrite length_combine, Hlen, Nat.min_id.
  apply fold_left_ext; intros acc i.
  rewrite combine_nth by (symmetry; exact Hlen); reflexivity.
Qed.

Lemma nearestCentroid_lt (centroids : matrix) (k : nat) (point : list num) :
  nearestCentroid centroids k point < Nat.max 1 k.
Proof.
  unfold nearestCentroid.
  apply fold_left_index_bound.
  - intros best j; simpl.
    destruct (js_lt _ _); [right; reflexivity | left; reflexivity].
  - eapply Forall_impl; [|apply Forall_seq_lt].
    intros j Hj; cbv beta in *; lia.
  - cbn [snd]; lia.
Qed.

Lemma assignPoints_length (centroids : matrix) (k : nat) (data : matrix) :
  forall labels,
    length labels = length data ->
    length (fst (assignPoints centroids k data labels)) = length data.
Proof.
  induction data as [|point data IH]; intros [|l labels] Hlen; simpl in *;
    try discriminate; auto.
  specialize (IH labels (eq_add_S _ _ Hlen)).
  destruct (assignPoints centroids k data labels) as [ls changed].
  destruct (Nat.eqb l _); simpl in *; congruence.
Qed.

Lemma assignPoints_lt (centroids : matrix) (k : nat) (data : matrix) :
  forall labels,
    Forall (fun l => l < Nat.max 1 k)
           (fst (assignPoints centroids k data labels)).
Proof.
  induction data as [|point data IH]; intros [|l labels]; simpl; auto.
  specialize (IH labels).
  destruct (assignPoints centroids k data labels) as [ls changed].
  destruct (Nat.eqb l _) eqn:E; simpl in *; constructor; auto.
  - apply Nat.eqb_eq in E; rewrite E; apply nearestCentroid_lt.
  - apply nearestCentroid_lt.
Qed.

Lemma accumulatePoints_ok (d k : nat) (data : matrix) :
  forall labels acc,
    length (fst acc) = k ->
    Forall (fun l => l < k) labels ->
    exists acc', accumulatePoints d acc data labels = Ok acc'
                 /\ length (fst acc') = k.
Proof.
  induction data as [|point data IH]; intros [|l labels] acc Hacc Hl; simpl;
    eauto.
  apply Forall_cons_iff in Hl as [Hlk Hl'].
  unfold accumulatePoint.
  destruct (nth_error (fst acc) l) as [row|] eqn:E.
  - simpl; apply IH; auto; simpl; rewrite set_nth_length; exact Hacc.
  - apply nth_error_None in E; lia.
Qed.

Lemma updateCentroids_ok (data : matrix) (labels : list nat) (k d : nat)
      (centroids : matrix) :
  Forall (fun l => l < k) labels ->
  exists centroids', updateCentroids data labels k d centroids = Ok centroids'
                     /\ length centroids' = (k + (length centroids - k))%nat.
Proof.
  intros Hl; unfold updateCentroids.
  destruct (@accumulatePoints_ok d k data labels
              (repeat (repeat js_zero d) k, repeat 0 k)) as [[nc cnt] [E _]];
    auto.
  - simpl; apply repeat_length.
  - rewrite E; simpl; eexists; split; [reflexivity|].
    rewrite length_app, length_map, length_seq, length_skipn; reflexivity.
Qed.

Lemma lloydStep_ok (data : matrix) (k d : nat) (labels : list nat)
      (centroids : matrix) :
  1 <= k -> length labels = length data ->
  exists labels' centroids' changed,
    lloydStep data k d labels centroids = Ok (labels', centroids', changed)
    /\ length labels' = length data
    /\ length centroids' = (k + (length centroids - k))%nat.
Proof.
  intros Hk Hlen; unfold lloydStep.
  pose proof (assignPoints_length centroids k data labels Hlen) as Hl.
  pose proof (assignPoints_lt centroids k data labels) as Hlt.
  destruct (assignPoints centroids k data labels) as [labels' changed];
    cbn [fst] in *.
  destruct (@updateCentroids_ok data labels' k d centroids) as [cs [E Hcs]].
  - eapply Forall_impl; [|exact Hlt].
    intros l Hl'; cbv beta in *; lia.
  - rewrite E; simpl; eauto 6.
Qed.

Lemma lloydLoop_ok (fuel : nat) (data : matrix) (k d : nat) :
  1 <= k ->
  forall labels centroids changed,
    length labels = length data -> length centroids = k ->
    exists labels' centroids',
      lloydLoop fuel data k d labels centroids changed
      = Ok (labels', centroids')
      /\ length labels' = length data /\ length centroids' = k.
Proof.
  intros Hk; induction fuel as [|fuel IH]; intros labels centroids changed
    Hlen Hcs; simpl; eauto.
  destruct changed; eauto.
  destruct (@lloydStep_ok data k d labels centroids Hk Hlen)
    as (labels' & centroids' & changed' & E & Hl' & Hc').
  rewrite E; simpl; apply IH; auto; lia.
Qed.

Lemma drawIndex_bound (r : num) (probabilities : list num) :
  forall j cumulativeProb,
    drawIndex r probabilities j cumulativeProb = 0
    \/ drawIndex r probabilities j cumulativeProb
       < (j + length probabilities)%nat.
Proof.
  induction probabilities as [|p rest IH]; intros j c; simpl; auto.
  destruct (js_le _ _); [right; lia|].
  destruct (IH (S j) (c + p)) as [E | E]; [left | right]; auto; lia.
Qed.

Lemma pushRow_ok (data : matrix) (i : nat) (st : seeding num) :
  i < length data ->
  exists row, nth_error data i = Some row
              /\ pushRow data (Some i) st
                 = Ok {| seed_centroids := seed_centroids st ++ [row];
                         seed_rows := seed_rows st ++ [i] |}.
Proof.
  intros Hi; unfold pushRow.
  destruct (nth_error data i) as [row|] eqn:E; eauto.
  apply nth_error_None in E; lia.
Qed.

Lemma seedLoop_ok (data : matrix) (random : random_source num) :
  0 < length data -> validDraws random (length data) ->
  forall todo st c,
    exists st' c',
      seedLoop data random todo st c = Ok (st', c')
      /\ length (seed_centroids st')
         = (length (seed_centroids st) + todo)%nat.
Proof.
  intros Hn Hdraws; induction todo as [|todo IH]; intros st c;
    cbn [seedLoop].
  - eexists; eexists; split; [reflexivity | lia].
  - cbv zeta; destruct (js_eq _ _).
    + destruct (Hdraws Hn c) as (i & -> & Hi).
      destruct (@pushRow_ok data _ st Hi) as (row & _ & ->); simpl.
      edestruct IH as (st' & c' & -> & Hlen).
      eexists; eexists; split; [reflexivity|].
      rewrite Hlen; simpl; rewrite length_app; simpl; lia.
    + match goal with |- context [drawIndex ?r ?ps 0 ?z] =>
        assert (Hi : drawIndex r ps 0 z < length data)
          by (destruct (drawIndex_bound r ps 0 z) as [-> | Hlt]; auto;
              rewrite length_map, length_map in Hlt; exact Hlt)
      end.
      destruct (@pushRow_ok data _ st Hi) as (row & _ & ->); simpl.
      edestruct IH as (st' & c' & -> & Hlen).
      eexists; eexists; split; [reflexivity|].
      rewrite Hlen; simpl; rewrite length_app; simpl; lia.
Qed.

Lemma initializeCentroids_ok (data : matrix) (k : nat)
      (random : random_source num) (c : nat) :
  0 < length data -> validDraws random (length data) ->
  exists centroids c',
    initializeCentroids data k random c = Ok (centroids, c')
    /\ length centroids = Nat.max 1 k.
Proof.
  intros Hn Hdraws; unfold initializeCentroids, seedCentroids.
  destruct (Hdraws Hn c) as (i & -> & Hi).
  destruct (@pushRow_ok data i {| seed_centroids := []; seed_rows := [] |} Hi)
    as (row & _ & ->); cbn [bind].
  edestruct (@seedLoop_ok data random Hn Hdraws) as (st' & c' & -> & Hlen);
    cbn [bind].
  eexists; eexists; split; [reflexivity|].
  rewrite Hlen; cbn [seed_centroids app length]; lia.
Qed.

Lemma performKMeans_ok (data : matrix) (k maxIterations : nat)
      (random : random_source num) (c : nat) :
  1 <= k -> validDraws random (length data) ->
  exists r c',
    performKMeans data k maxIterations random c = Ok (r, c')
    /\ (match data with
        | row0 :: _ => row0 <> [] -> length (labels r) = length data
                                     /\ length (centroids r) = k
        | [] => True
        end).
Proof.
  intros Hk Hdraws; unfold performKMeans.
  destruct data as [|row0 rest]; [eauto|].
  destruct (Nat.eqb (length row0) 0) eqn:E.
  - eexists; eexists; split; [reflexivity|].
    apply Nat.eqb_eq in E; destruct row0; [congruence | discriminate].
  - destruct (@initializeCentroids_ok (row0 :: rest) k random c)
      as (cs & c' & -> & Hcs); auto; [simpl; lia|]; cbv zeta; cbn [bind].
    destruct (@lloydLoop_ok maxIterations (row0 :: rest) k (length row0) Hk
                (repeat 0 (length (row0 :: rest))) cs true)
      as (ls & cs' & -> & Hls & Hcs'); [apply repeat_length | lia |].
    simpl; eexists; eexists; split; [reflexivity | auto].
Qed.

End KMeansFacts.

Section KMeansClaims.

Context (num : Type) {N : Number num}.
Local Open Scope js_scope.
Local Abbreviation matrix := (Matrix num).

Lemma lloydLoop_labels_length (fuel : nat) (data : matrix) (k d : nat) :
  forall labels centroids changed labels' centroids',
    lloydLoop fuel data k d labels centroids changed = Ok (labels', centroids') ->
    length labels = length data -> length labels' = length data.
Proof.
  induction fuel as [|fuel IH]; intros labels centroids changed labels'
    centroids' E Hlen; cbn [lloydLoop] in E.
  - inversion E; subst; exact Hlen.
  - destruct changed; [|inversion E; subst; exact Hlen].
    unfold lloydStep in E.
    pose proof (assignPoints_length centroids k data labels Hlen) as Hl.
    destruct (assignPoints centroids k data labels) as [ls changed].
    destruct (updateCentroids data ls k d centroids) as [cs|e];
      cbn [bind] in E; [|discriminate].
    eapply IH; [exact E | exact Hl].
Qed.

(** C1: the inertia [performKMeans] returns is the sum, over the rows, of the
    plain (not squared) Euclidean distance from the row to the centroid that
    the returned labels give it, among the returned centroids. *)
Theorem inertia_is_sum_of_distances (data : matrix) (k maxIterations : nat)
        (random : random_source num) (c : nat) (r : KMeansResult num)
        (c' : nat) :
  performKMeans data k maxIterations random c = Ok (r, c') ->
  inertia r = sumOfDistances data (labels r) (centroids r).
Proof.
  unfold performKMeans.
  destruct data as [|row0 rest].
  - intros E; inversion E; reflexivity.
  - destruct (Nat.eqb (length row0) 0).
    + intros E; inversion E; reflexivity.
    + cbv zeta.
      destruct (initializeCentroids (row0 :: rest) k random c)
        as [[cs c1]|e] eqn:Einit; cbn [bind]; [|discriminate].
      destruct (lloydLoop maxIterations (row0 :: rest) k (length row0)
                          (repeat 0 (length (row0 :: rest))) cs true)
        as [[ls cs']|e] eqn:Eloop; cbn [bind]; [|discriminate].
      intros E; inversion E; subst; cbn [inertia labels centroids].
      apply computeInertia_sum.
      eapply lloydLoop_labels_length; [exact Eloop | apply repeat_length].
Qed.

End KMeansClaims.

Section UpdateStep.

Context (num : Type) {N : Number num}.
Local Open Scope js_scope.
Local Abbreviation matrix := (Matrix num).

Lemma map_at_seq (row : list num) (d : nat) :
  length row = d -> map (fun j => at_ row j) (seq 0 d) = row.
Proof.
  intros Hlen; apply nth_ext with (d := js_nan) (d' := js_nan).
  - rewrite length_map, length_seq; auto.
  - rewrite length_map, length_seq; intros j Hj.
    rewrite nth_map_seq by exact Hj; reflexivity.
Qed.

Lemma assignedPoints_cons (point : list num) (data : matrix) (l : nat)
      (labels : list nat) (i : nat) :
  assignedPoints (point :: data) (l :: labels) i
  = if Nat.eqb l i then point :: assignedPoints data labels i
    else assignedPoints data labels i.
Proof.
  unfold assignedPoints; simpl; destruct (Nat.eqb l i); reflexivity.
Qed.

Lemma assignedPoints_nil (data : matrix) (labels : list nat) (i : nat) :
  data = [] \/ labels = [] -> assignedPoints data labels i = [].
Proof.
  unfold assignedPoints; intros [-> | ->]; [reflexivity|].
  destruct data; reflexivity.
Qed.

(** What the accumulation loop leaves in [newCentroids[i]] and [counts[i]]. *)
Lemma accumulatePoints_sums (d k : nat) (data : matrix) :
  forall labels acc acc',
    accumulatePoints d acc data labels = Ok acc' ->
    length (fst acc) = k -> length (snd acc) = k ->
    (forall i, i < k -> length (nth i (fst acc) []) = d) ->
    forall i, i < k ->
      nth i (fst acc') []
      = map (fun j =>
               fold_left (fun sum point => sum + at_ point j)
                         (assignedPoints data labels i)
                         (at_ (nth i (fst acc) []) j))
            (seq 0 d)
      /\ nth i (snd acc') 0
         = (nth i (snd acc) 0 + length (assignedPoints data labels i))%nat.
Proof.
  induction data as [|point data IH]; intros labels acc acc' E Hm Hc Hrows i Hi.
  - cbn [accumulatePoints] in E; inversion E; subst.
    rewrite assignedPoints_nil by (left; reflexivity); cbn [fold_left length].
    rewrite (@map_at_seq _ _ (Hrows i Hi)); split; [reflexivity | lia].
  - destruct labels as [|l labels].
    + cbn [accumulatePoints] in E; inversion E; subst.
      rewrite assignedPoints_nil by (right; reflexivity); cbn [fold_left length].
      rewrite (@map_at_seq _ _ (Hrows i Hi)); split; [reflexivity | lia].
    + cbn [accumulatePoints] in E; unfold accumulatePoint in E.
      destruct (nth_error (fst acc) l) as [row|] eqn:Erow;
        cbn [bind] in E; [|discriminate].
      assert (Hl : l < k)
        by (rewrite <- Hm; apply nth_error_Some; congruence).
      assert (Hrow : nth l (fst acc) [] = row)
        by (apply nth_error_nth; exact Erow).
      specialize (IH labels _ acc' E); cbn [fst snd] in IH.
      specialize (IH ltac:(rewrite set_nth_length; exact Hm)
                     ltac:(rewrite set_nth_length; exact Hc)).
      assert (Hrows' : forall i0, i0 < k ->
                length (nth i0 (set_nth l
                   (map (fun j => at_ row j + at_ point j) (seq 0 d))
                   (fst acc)) []) = d).
      { intros i0 Hi0; destruct (Nat.eq_dec l i0) as [->|Hne].
        - rewrite nth_set_nth_same by lia.
          rewrite length_map, length_seq; reflexivity.
        - rewrite nth_set_nth_other by exact Hne; auto. }
      destruct (IH Hrows' i Hi) as [IHs IHc]; clear IH.
      rewrite IHs, IHc, assignedPoints_cons.
      destruct (Nat.eqb l i) eqn:Eli.
      * apply Nat.eqb_eq in Eli; subst i.
        cbn [fold_left length]; split.
        -- apply map_ext_in; intros j Hj; apply in_seq in Hj.
           rewrite nth_set_nth_same by lia.
           unfold at_ at 2; rewrite nth_map_seq by lia.
           rewrite Hrow; reflexivity.
        -- rewrite nth_set_nth_same by lia; lia.
      * apply Nat.eqb_neq in Eli; split.
        -- apply map_ext_in; intros j Hj.
           rewrite nth_set_nth_other by exact Eli; reflexivity.
        -- rewrite nth_set_nth_other by exact Eli; reflexivity.
Qed.

Lemma at_repeat_zero (d j : nat) : j < d -> at_ (repeat js_zero d) j = js_zero.
Proof.
  intros Hj; unfold at_; apply nth_repeat_lt; exact Hj.
Qed.

(** Every turn of the loop is a [lloydStep]. *)
Lemma lloydLoop_turn (fuel : nat) (data : matrix) (k d : nat)
      (labels : list nat) (centroids : matrix) :
  lloydLoop (S fuel) data k d labels centroids true
  = bind (lloydStep data k d labels centroids)
         (fun next => lloydLoop fuel data k d (fst (fst next))
                                (snd (fst next)) (snd next)).
Proof.
  cbn [lloydLoop].
  destruct (lloydStep data k d labels centroids) as [[[ls cs] ch]|e];
    reflexivity.
Qed.

(** C8: in a turn of the Lloyd loop, a centroid that received a point
    becomes the coordinate-wise mean of the points assigned to it (over the
    [d] coordinates of the first row; a centroid copied from a longer row
    keeps the rest), and a centroid that received none is left as it was. *)
Theorem update_step_means_or_unchanged (data : matrix) (k d : nat)
        (labels : list nat) (centroids : matrix)
        (labels' : list nat) (centroids' : matrix) (changed : bool) (i : nat) :
  lloydStep data k d labels centroids = Ok (labels', centroids', changed) ->
  i < k ->
  let assigned := assignedPoints data labels' i in
  (assigned <> [] ->
   nth i centroids' [] = meanPoint d assigned ++ skipn d (nth i centroids []))
  /\ (assigned <> [] -> length (nth i centroids []) <= d ->
      nth i centroids' [] = meanPoint d assigned)
  /\ (assigned = [] -> nth i centroids' [] = nth i centroids []).
Proof.
  unfold lloydStep; intros E Hi.
  cut (let assigned := assignedPoints data labels' i in
       (assigned <> [] ->
        nth i centroids' []
        = meanPoint d assigned ++ skipn d (nth i centroids []))
       /\ (assigned = [] -> nth i centroids' [] = nth i centroids [])).
  { cbv zeta; intros [Hmean Hkeep]; repeat split; auto.
    intros Ha Hlen; rewrite (Hmean Ha), skipn_all2 by exact Hlen.
    apply app_nil_r. }
  destruct (assignPoints centroids k data labels) as [ls ch].
  unfold updateCentroids in E.
  destruct (accumulatePoints d (repeat (repeat js_zero d) k, repeat 0 k)
                             data ls) as [[sums counts]|e] eqn:Eacc;
    cbn [bind] in E; [|discriminate].
  inversion E; subst labels' centroids' changed; clear E.
  destruct (@accumulatePoints_sums d k data ls _ _ Eacc) with (i := i)
    as [Hs Hc]; cbn [fst snd] in *;
    try (apply repeat_length); auto.
  { intros i0 Hi0; rewrite nth_repeat_lt by exact Hi0; apply repeat_length. }
  rewrite nth_repeat_lt in Hc by exact Hi; cbn [Nat.add] in Hc.
  cbv zeta.
  rewrite app_nth1 by (rewrite length_map, length_seq; exact Hi).
  rewrite nth_map_seq by exact Hi.
  unfold recentre; rewrite Hc.
  split; intros Ha.
  - assert (Hpos : Nat.ltb 0 (length (assignedPoints data ls i)) = true)
      by (apply Nat.ltb_lt; destruct (assignedPoints data ls i);
          [congruence | simpl; lia]).
    rewrite Hpos; f_equal.
    unfold meanPoint; apply map_ext_in; intros j Hj; apply in_seq in Hj.
    unfold coordinateMean; rewrite Hs.
    unfold at_ at 1; rewrite nth_map_seq by lia.
    rewrite nth_repeat_lt by exact Hi.
    rewrite at_repeat_zero by lia; reflexivity.
  - rewrite Ha; reflexivity.
Qed.

End UpdateStep.

Section SweepClaims.

Context (num : Type) {N : Number num}.
Local Open Scope js_scope.
Local Abbreviation matrix := (Matrix num).

Lemma sweep_ok (data : matrix) (m : method) (random : random_source num) :
  validDraws random (length data) ->
  forall ks scores c,
    Forall (fun k => 1 <= k) ks ->
    exists scores' c',
      sweep data m random ks scores c = Ok (scores', c')
      /\ length scores' = (length scores + length ks)%nat.
Proof.
  intros Hdraws; induction ks as [|k ks IH]; intros scores c Hks;
    cbn [sweep].
  - eexists; eexists; split; [reflexivity | simpl; lia].
  - apply Forall_cons_iff in Hks as [Hk Hks].
    destruct (@performKMeans_ok _ _ data k defaultMaxIterations random c
                                Hk Hdraws) as (r & c' & -> & _).
    cbn [bind].
    edestruct IH as (scores' & c'' & -> & Hlen); [exact Hks|].
    eexists; eexists; split; [reflexivity|].
    rewrite Hlen, length_app; simpl; lia.
Qed.

Lemma differences_length (l : list num) :
  length (differences l) = (length l - 1)%nat.
Proof. unfold differences; rewrite length_map, length_seq; reflexivity. Qed.

(** C10: with the elbow method and [maxK <= 3] the sweep records at most two
    scores, their second differences are none, and the recommendation is
    index 0 plus 2, whatever the data. *)
Theorem elbow_recommends_2_up_to_maxK_3 (data : matrix) (maxK : nat)
        (random : random_source num) (c : nat) :
  maxK <= 3 ->
  validDraws random (length data) ->
  exists scores c',
    findOptimalK data maxK Elbow random c
    = Ok ({| scores := scores; recommendedK := 2 |}, c')
    /\ length scores <= 2
    /\ differences (differences scores) = [].
Proof.
  intros HmaxK Hdraws; unfold findOptimalK.
  destruct (@sweep_ok data Elbow random Hdraws (seq 2 (maxK - 1)) [] c)
    as (scores & c' & -> & Hlen).
  { apply Forall_forall; intros k Hk; apply in_seq in Hk; lia. }
  rewrite length_seq in Hlen; cbn [length Nat.add] in Hlen.
  assert (Hdd : differences (differences scores) = []).
  { apply length_zero_iff_nil; rewrite !differences_length; lia. }
  cbn [bind]; exists scores, c'; split; [|split; [lia | exact Hdd]].
  unfold recommend; rewrite Hdd; reflexivity.
Qed.

End SweepClaims.
(** ** PCA: how many eigenpairs are extracted, and how many are kept *)

Section PCAFacts.

Context (num : Type) {N : Number num}.
Local Open Scope js_scope.
Local Abbreviation matrix := (Matrix num).

Lemma eigenLoop_counts (n : nat) (random : random_source num) :
  forall todo m acc c,
    let out := eigenLoop n random todo m acc c in
    length (eigenvalues (fst out)) = (length (eigenvalues acc) + todo)%nat
    /\ length (eigenvectors (fst out))
       = (length (eigenvectors acc) + todo)%nat
    /\ snd out = (c + todo * n)%nat.
Proof.
  induction todo as [|todo IH]; intros m acc c; cbn [eigenLoop].
  - cbn [fst snd]; lia.
  - cbv zeta in IH |- *.
    match goal with |- context [eigenLoop n random todo ?m' ?acc' ?c'] =>
      destruct (IH m' acc' c') as (Hv & Hw & Hc)
    end.
    rewrite Hv, Hw, Hc; cbn [eigenvalues eigenvectors].
    rewrite !length_app; simpl; lia.
Qed.

Lemma insertSorted_perm {A : Type} (compare : A -> A -> num) (x : A)
      (sorted : list A) :
  Permutation (insertSorted compare x sorted) (x :: sorted).
Proof.
  induction sorted as [|y rest IH]; simpl; auto.
  destruct (js_lt _ _); auto.
  rewrite IH; apply perm_swap.
Qed.

Lemma sortBy_perm {A : Type} (compare : A -> A -> num) (l : list A) :
  Permutation (sortBy compare l) l.
Proof.
  unfold sortBy.
  assert (H : forall sorted,
             Permutation (fold_left (fun s x => insertSorted compare x s)
                                    l sorted)
                         (sorted ++ l)).
  { induction l as [|x l IH]; intros sorted; simpl.
    - rewrite app_nil_r; reflexivity.
    - rewrite IH, insertSorted_perm.
      change (x :: sorted) with ([x] ++ sorted).
      rewrite (Permutation_app_comm [x] sorted), <- app_assoc; reflexivity. }
  apply (H []).
Qed.

Lemma eigenPairsOf_length (evs : list num) :
  length (eigenPairsOf evs) = length evs.
Proof.
  unfold eigenPairsOf.
  rewrite (Permutation_length (sortBy_perm _ _)).
  rewrite length_combine, length_seq; apply Nat.min_id.
Qed.

Lemma pcaEigen_counts (d : nat) (data : matrix) (random : random_source num)
      (c : nat) :
  length (eigenvalues (fst (pcaEigen d data random c))) = d
  /\ length (eigenvectors (fst (pcaEigen d data random c))) = d
  /\ snd (pcaEigen d data random c) = (c + d * d)%nat.
Proof.
  unfold pcaEigen, computeEigenvectors.
  match goal with |- context [eigenLoop ?n random d ?m ?acc c] =>
    destruct (eigenLoop_counts n random d m acc c) as (Hv & Hw & Hc);
    assert (Hn : n = d)
      by (unfold covarianceMatrix; rewrite length_map, length_seq; reflexivity)
  end.
  cbv zeta in Hv, Hw, Hc; rewrite Hv, Hw, Hc, Hn.
  cbn [length eigenvalues eigenvectors]; lia.
Qed.

(** C3, as the code has it: on a matrix whose first row has [d >= 1] cells,
    power iteration with deflation is run for [d] components whatever
    [numComponents] is ([d] eigenvalues, [d] eigenvectors, [d * d] random
    draws); only what is returned is cut to the first [numComponents]
    sorted pairs, [d] of them when it is absent or 0. *)
Theorem pca_extracts_d_eigenpairs (x : num) (row0 : list num) (rest : matrix)
        (numComponents : option nat) (random : random_source num) (c : nat) :
  let data := (x :: row0) :: rest in
  let d := length (x :: row0) in
  let extracted := pcaEigen d data random c in
  let returned := performPCA data numComponents random c in
  let k := keptComponents numComponents d in
  length (eigenvalues (fst extracted)) = d
  /\ length (eigenvectors (fst extracted)) = d
  /\ snd returned = (c + d * d)%nat
  /\ length (components (fst returned)) = Nat.min k d
  /\ length (explainedVariance (fst returned)) = Nat.min k d.
Proof.
  cbv zeta.
  destruct (pcaEigen_counts (length (x :: row0)) ((x :: row0) :: rest)
                            random c) as (Hv & Hw & Hc).
  unfold performPCA; cbn [length Nat.eqb] in *; cbv zeta.
  destruct (pcaEigen (S (length row0)) ((x :: row0) :: rest) random c)
    as [eig c']; cbn [fst snd components explainedVariance] in *.
  repeat split; auto.
  - rewrite length_map, length_firstn, eigenPairsOf_length, Hv; reflexivity.
  - rewrite length_firstn, length_map, eigenPairsOf_length, Hv; reflexivity.
Qed.

(** C2, as the code has it: neither operation checks that the rows have one
    length.  On any matrix with a non-empty first row, rectangular or not,
    [performKMeans] with [k >= 1] returns labels for every row and [k]
    centroids (no exception is raised), and [performPCA] returns a projection
    of every row. *)
Theorem no_input_validation (x : num) (row0 : list num) (rest : matrix)
        (k maxIterations : nat) (numComponents : option nat)
        (random : random_source num) (c : nat) :
  let data := (x :: row0) :: rest in
  1 <= k ->
  validDraws random (length data) ->
  (exists r c',
      performKMeans data k maxIterations random c = Ok (r, c')
      /\ length (labels r) = length data
      /\ length (centroids r) = k)
  /\ length (projectedData (fst (performPCA data numComponents random c)))
     = length data.
Proof.
  cbv zeta; intros Hk Hdraws; split.
  - destruct (@performKMeans_ok _ _ ((x :: row0) :: rest) k maxIterations
                                random c Hk Hdraws) as (r & c' & E & H).
    exists r, c'; split; [exact E|]; apply H; discriminate.
  - unfold performPCA; cbn [length Nat.eqb]; cbv zeta.
    destruct (pcaEigen (S (length row0)) ((x :: row0) :: rest) random c)
      as [eig c'].
    cbn [fst projectedData]; unfold pcaCentered, centre.
    rewrite !length_map; reflexivity.
Qed.

End PCAFacts.

(** ** Feature typing and imputation *)

Section ObjectFacts.

Context {V : Type}.

Lemma lookup_assign_same (key : string) (v : V) (o : object V) :
  lookup key (assign key v o) = Some v.
Proof.
  induction o as [|[k w] o IH]; simpl.
  - rewrite String.eqb_refl; reflexivity.
  - destruct (String.eqb k key) eqn:E; simpl; rewrite E; auto.
Qed.

Lemma lookup_assign_other (key key' : string) (v : V) (o : object V) :
  key <> key' -> lookup key' (assign key v o) = lookup key' o.
Proof.
  intros Hne; induction o as [|[k w] o IH]; simpl.
  - apply String.eqb_neq in Hne; rewrite Hne; reflexivity.
  - destruct (String.eqb k key) eqn:E; simpl.
    + apply String.eqb_eq in E; subst k.
      apply String.eqb_neq in Hne; rewrite Hne; reflexivity.
    + rewrite IH; reflexivity.
Qed.

End ObjectFacts.

Section ImputationFacts.

Context (num : Type) {N : Number num}.
Variable number_to_string : num -> string.
Variable string_to_number : string -> num.

Local Abbreviation passenger := (passenger num).
Local Abbreviation value := (value num).

Lemma get_assign_same (feature : string) (v : value) (p : passenger) :
  get (assign feature v p) feature = v.
Proof. unfold get; rewrite lookup_assign_same; reflexivity. Qed.

Lemma get_assign_other (feature other : string) (v : value) (p : passenger) :
  feature <> other -> get (assign feature v p) other = get p other.
Proof. intros Hne; unfold get; rewrite lookup_assign_other; auto. Qed.

(** A pass over features that fills the cells a test selects. *)
Section FillPass.

Variable test : value -> bool.
Variable fill : string -> value.

Lemma fillPass_other (feature : string) (features : list string) :
  ~ In feature features ->
  forall p, get (fold_left (fillStep test fill) features p) feature = get p feature.
Proof.
  induction features as [|g features IH]; intros Hnot p; simpl; auto.
  rewrite IH by (intros H; apply Hnot; right; exact H).
  unfold fillStep; destruct (test (get p g)); auto.
  apply get_assign_other; intros ->; apply Hnot; left; reflexivity.
Qed.

Lemma fillPass_filled (feature : string) (features : list string) :
  forall p, get p feature = fill feature ->
            get (fold_left (fillStep test fill) features p) feature = fill feature.
Proof.
  induction features as [|g features IH]; intros p Hp; simpl; auto.
  apply IH; unfold fillStep; destruct (test (get p g)); auto.
  destruct (string_dec g feature) as [->|Hne].
  - apply get_assign_same.
  - rewrite get_assign_other by exact Hne; exact Hp.
Qed.

Lemma fillPass_fills (feature : string) (features : list string) :
  In feature features ->
  forall p, test (get p feature) = true ->
            get (fold_left (fillStep test fill) features p) feature = fill feature.
Proof.
  induction features as [|g features IH]; intros Hin p Hp; simpl;
    [contradiction|].
  destruct (string_dec g feature) as [->|Hne].
  - apply fillPass_filled; unfold fillStep; rewrite Hp.
    apply get_assign_same.
  - destruct Hin as [->|Hin]; [congruence|].
    apply IH; auto.
    unfold fillStep; destruct (test (get p g)); auto.
    rewrite get_assign_other by exact Hne; exact Hp.
Qed.

End FillPass.

(** What [identifyFeatureTypes] makes of the keys of the first record. *)
Lemma classify_lists (samplePassenger : passenger) (feature : string)
      (keys : list string) :
  forall acc,
    let types := fold_left (classify samplePassenger) keys acc in
    (In feature (numericalFeatures types) <->
     In feature (numericalFeatures acc)
     \/ (In feature keys /\ excluded feature = false
         /\ isNumber (get samplePassenger feature) = true))
    /\ (In feature (categoricalFeatures types) <->
        In feature (categoricalFeatures acc)
        \/ (In feature keys /\ excluded feature = false
            /\ isNumber (get samplePassenger feature) = false)).
Proof.
  induction keys as [|g keys IH]; intros acc; cbn [fold_left].
  - cbv zeta; split; (split; [auto | intros [H | [[] _]]; exact H]).
  - cbv zeta in IH |- *.
    destruct (IH (classify samplePassenger acc g)) as [IHn IHc].
    rewrite IHn, IHc; clear IHn IHc.
    unfold classify.
    destruct (excluded g) eqn:Eg;
      [|destruct (isNumber (get samplePassenger g)) eqn:Ng];
      cbn [numericalFeatures categoricalFeatures In];
      rewrite ?in_app_iff; cbn [In]; split; split;
      intuition (subst; try congruence; auto).
Qed.

End ImputationFacts.

(** ** Exact arithmetic: the silhouette score *)

Lemma fold_left_invariant {A B : Type} (P : B -> Prop) (f : B -> A -> B)
      (l : list A) :
  (forall acc x, In x l -> P acc -> P (f acc x)) ->
  forall b, P b -> P (fold_left f l b).
Proof.
  induction l as [|x l IH]; intros Hstep b Hb; simpl; auto.
  apply IH.
  - intros acc y Hy; apply Hstep; right; exact Hy.
  - apply Hstep; [left; reflexivity | exact Hb].
Qed.

Lemma silhouette_degenerate (num : Type) {N : Number num} (data : Matrix num)
      (labels : list nat) :
  (length data < 2 \/ length (uniqueLabels labels) < 2)%nat ->
  calculateSilhouetteScore data labels = js_zero.
Proof.
  intros H; unfold calculateSilhouetteScore.
  assert (E : Nat.ltb (length data) 2
              || Nat.ltb (length (uniqueLabels labels)) 2 = true)
    by (apply orb_true_iff; rewrite !Nat.ltb_lt; exact H).
  rewrite E; reflexivity.
Qed.

Module ExactFacts.

Import Exact ExactVocabulary.
Local Open Scope R_scope.

Lemma Rltb_false (x y : R) : y <= x -> Rltb x y = false.
Proof. intros H; unfold Rltb; destruct (Rlt_dec x y); [lra | reflexivity]. Qed.

Lemma Rltb_true (x y : R) : x < y -> Rltb x y = true.
Proof. intros H; unfold Rltb; destruct (Rlt_dec x y); [reflexivity | lra]. Qed.

Lemma Reqb_false (x y : R) : x <> y -> Reqb x y = false.
Proof.
  intros H; unfold Reqb; destruct (Req_dec_T x y); [contradiction | reflexivity].
Qed.

Lemma Reqb_true (x y : R) : x = y -> Reqb x y = true.
Proof.
  intros H; unfold Reqb; destruct (Req_dec_T x y); [reflexivity | contradiction].
Qed.

Lemma xdiv_fin (a b : R) : b <> 0 -> xdiv (Fin a) (Fin b) = Fin (a / b).
Proof. intros Hb; unfold xdiv; rewrite Reqb_false by exact Hb; reflexivity. Qed.

Lemma xsqrt_fin (a : R) : 0 <= a -> xsqrt (Fin a) = Fin (sqrt a).
Proof. intros Ha; unfold xsqrt; rewrite Rltb_false by exact Ha; reflexivity. Qed.

Lemma INR_pos (n : nat) : (0 < n)%nat -> 0 < INR n.
Proof. intros Hn; apply lt_0_INR; exact Hn. Qed.

Lemma sumSquaredDiffs_fin (a : list R) :
  forall (b : list R) (s : R),
    (length a <= length b)%nat -> 0 <= s ->
    exists s', sumSquaredDiffs (map Fin a) (map Fin b) (Fin s) = Fin s'
               /\ 0 <= s'.
Proof.
  induction a as [|x a IH]; intros b s Hlen Hs; cbn [map sumSquaredDiffs].
  - exists s; auto.
  - destruct b as [|y b]; [simpl in Hlen; lia|].
    cbv zeta; cbn.
    apply IH; [simpl in Hlen; lia|].
    pose proof (Rle_0_sqr (x + - y)) as Hsq; unfold Rsqr in Hsq; lra.
Qed.

Lemma euclideanDistance_nonneg (a b : list R) :
  (length a <= length b)%nat ->
  nonneg (euclideanDistance (map Fin a) (map Fin b)).
Proof.
  intros Hlen; unfold euclideanDistance.
  destruct (sumSquaredDiffs_fin a b (s := 0) Hlen (Rle_refl 0))
    as (s & Hs & Hpos).
  cbn [js_zero xreal_Number] in *; rewrite Hs; cbn [js_sqrt xreal_Number].
  rewrite xsqrt_fin by exact Hpos.
  exists (sqrt s); split; [reflexivity | apply sqrt_pos].
Qed.

Lemma nth_inject (data : list (list R)) (i : nat) :
  nth i (inject data) [] = map Fin (nth i data []).
Proof. unfold inject; apply (map_nth (map Fin) data [] i). Qed.

Lemma rectangular_nth {A : Type} (d : nat) (data : list (list A)) (i : nat) :
  rectangular d data -> (i < length data)%nat -> length (nth i data []) = d.
Proof.
  intros Hrect Hi; unfold rectangular in Hrect.
  rewrite Forall_forall in Hrect; apply Hrect; apply nth_In; exact Hi.
Qed.

Lemma inject_length (data : list (list R)) :
  length (inject data) = length data.
Proof. unfold inject; apply length_map. Qed.

Section Silhouette.

Variable d : nat.
Variable data : list (list R).
Variable labels : list nat.
Hypothesis Hrect : rectangular d data.

Lemma distancesTo_nonneg (i : nat) (member : nat -> bool) :
  (i < length data)%nat ->
  nonneg (fst (distancesTo (inject data) i member)).
Proof.
  intros Hi; unfold distancesTo.
  apply fold_left_invariant with (P := fun acc => nonneg (fst acc)).
  - intros [s cnt] j Hj [r [Hr Hpos]]; cbn [fst snd] in *; subst s.
    destruct (member j); cbn [fst]; [|exists r; auto].
    rewrite inject_length in Hj; apply in_seq in Hj.
    rewrite !nth_inject.
    destruct (@euclideanDistance_nonneg (nth i data []) (nth j data []))
      as (e & -> & He).
    { rewrite !(@rectangular_nth _ d data _ Hrect) by lia; lia. }
    exists (r + e); split; [reflexivity | lra].
  - exists 0; split; [reflexivity | lra].
Qed.

Lemma mean_nonneg (sc : xreal * nat) :
  nonneg (fst sc) ->
  nonneg (if Nat.ltb 0 (snd sc) then js_div (fst sc) (of_nat (snd sc))
          else js_zero).
Proof.
  intros [r [Hr Hpos]]; rewrite Hr.
  destruct (Nat.ltb 0 (snd sc)) eqn:E.
  - apply Nat.ltb_lt in E; apply INR_pos in E.
    cbn [js_div of_nat xreal_Number].
    rewrite xdiv_fin by lra.
    exists (r / INR (snd sc)); split; [reflexivity|].
    apply Rle_mult_inv_pos; assumption.
  - exists 0; split; [reflexivity | lra].
Qed.

Lemma intraCluster_nonneg (i : nat) :
  (i < length data)%nat -> nonneg (intraCluster (inject data) labels i).
Proof.
  intros Hi; unfold intraCluster.
  match goal with |- context [distancesTo ?m ?i ?f] =>
    pose proof (@distancesTo_nonneg i f Hi) as H;
    pose proof (mean_nonneg (distancesTo m i f) H) as H';
    destruct (distancesTo m i f) as [s cnt]
  end.
  exact H'.
Qed.

Lemma interCluster_nonneg (i : nat) :
  (i < length data)%nat -> nonneg (interCluster (inject data) labels i).
Proof.
  intros Hi; unfold interCluster.
  match goal with |- context [fold_left ?f ?l ?b] =>
    assert (H : fold_left f l b = PInf \/ nonneg (fold_left f l b))
  end.
  { apply fold_left_invariant with (P := fun m => m = PInf \/ nonneg m);
      [|left; reflexivity].
    intros m cluster _ Hm.
    destruct (sameLabel (Some cluster) (nth_error labels i)); [exact Hm|].
    match goal with |- context [distancesTo ?mm ?i ?f] =>
      pose proof (@distancesTo_nonneg i f Hi) as H;
      pose proof (mean_nonneg (distancesTo mm i f) H) as H';
      destruct (distancesTo mm i f) as [s cnt]
    end.
    cbn [fst snd] in H'.
    destruct (Nat.ltb 0 cnt); [|exact Hm].
    destruct H' as (avg & -> & Havg); right.
    destruct Hm as [-> | (b & -> & Hb)]; cbn [js_min xreal_Number xmin xlt].
    - exists avg; auto.
    - destruct (Rltb avg b); [exists avg | exists b]; auto. }
  cbv zeta.
  destruct H as [-> | (b & -> & Hb)]; cbn [js_eq js_infinity js_zero
                                             xreal_Number xeq].
  - exists 0; split; [reflexivity | lra].
  - exists b; auto.
Qed.

Lemma silhouetteOf_inUnit (a b : xreal) :
  nonneg a -> nonneg b -> inUnit (silhouetteOf a b).
Proof.
  intros (ra & -> & Ha) (rb & -> & Hb); unfold silhouetteOf.
  cbn [js_eq js_zero js_one js_sub js_div js_max xreal_Number xeq].
  unfold Reqb at 1 2 3 4.
  destruct (Req_dec_T ra 0) as [Ea|Ea]; destruct (Req_dec_T rb 0) as [Eb|Eb];
    cbn [andb].
  - exists 0; split; [reflexivity | lra].
  - exists 1; split; [reflexivity | lra].
  - exists (0 + - 1); split; [reflexivity | lra].
  - assert (Hm : exists m, xmax (Fin ra) (Fin rb) = Fin m
                           /\ 0 < m /\ ra <= m /\ rb <= m).
    { cbn [xmax xlt]; unfold Rltb; destruct (Rlt_dec ra rb);
        [exists rb | exists ra]; repeat split; lra. }
    destruct Hm as (m & -> & Hm & Hra & Hrb).
    cbn [xsub xneg xadd]; rewrite xdiv_fin by lra.
    exists ((rb + - ra) / m); split; [reflexivity|].
    split.
    + apply Rmult_le_reg_r with m; [exact Hm|].
      unfold Rdiv; rewrite Rmult_assoc, Rinv_l by lra; lra.
    + apply Rmult_le_reg_r with m; [exact Hm|].
      unfold Rdiv; rewrite Rmult_assoc, Rinv_l by lra; lra.
Qed.

Lemma pointSilhouette_inUnit (i : nat) :
  (i < length data)%nat -> inUnit (pointSilhouette (inject data) labels i).
Proof.
  intros Hi; unfold pointSilhouette.
  apply silhouetteOf_inUnit;
    [apply intraCluster_nonneg | apply interCluster_nonneg]; exact Hi.
Qed.

End Silhouette.

(** A sum of numbers of [[-1, 1]] is a real, of absolute value at most their
    number. *)
Lemma sum_inUnit (f : nat -> xreal) (l : list nat) :
  (forall i, In i l -> inUnit (f i)) ->
  forall s0 bound,
    - bound <= s0 <= bound ->
    exists s, fold_left (fun acc i => js_add acc (f i)) l (Fin s0) = Fin s
              /\ - (bound + INR (length l)) <= s <= bound + INR (length l).
Proof.
  induction l as [|i l IH]; intros Hf s0 bound Hs0; cbn [fold_left length].
  - exists s0; split; [reflexivity | simpl; lra].
  - destruct (Hf i (or_introl eq_refl)) as (r & -> & Hr).
    change (js_add (Fin s0) (Fin r)) with (Fin (s0 + r)).
    destruct (IH (fun j Hj => Hf j (or_intror Hj)) (s0 + r) (bound + 1))
      as (s & -> & Hs); [lra|].
    exists s; split; [reflexivity|].
    rewrite S_INR; lra.
Qed.

(** In exact arithmetic: on a rectangular matrix of reals with at least
    2 rows and labels of at least 2 distinct values, the score is a real of
    [[-1, 1]]; with fewer rows or fewer distinct labels it is 0. *)
Theorem silhouette_in_unit_interval_exact (d : nat) (data : list (list R))
        (labels : list nat) :
  rectangular d data ->
  let score := calculateSilhouetteScore (inject data) labels in
  ((2 <= length data)%nat -> (2 <= length (uniqueLabels labels))%nat ->
   exists s, score = Fin s /\ -1 <= s <= 1)
  /\ ((length data < 2 \/ length (uniqueLabels labels) < 2)%nat ->
      score = Fin 0).
Proof.
  intros Hrect; cbv zeta; split.
  - intros Hn Hl; unfold calculateSilhouetteScore.
    rewrite inject_length.
    assert (E : Nat.ltb (length data) 2
                || Nat.ltb (length (uniqueLabels labels)) 2 = false)
      by (apply orb_false_iff; rewrite !Nat.ltb_ge; auto).
    rewrite E.
    destruct (@sum_inUnit (pointSilhouette (inject data) labels)
                          (seq 0 (length data))) with (s0 := 0) (bound := 0)
      as (s & Hs & Hb).
    { intros i Hi; apply in_seq in Hi.
      apply (pointSilhouette_inUnit labels Hrect); lia. }
    { lra. }
    cbn [js_zero xreal_Number] in *; rewrite Hs.
    rewrite length_seq in Hb.
    assert (Hpos : 0 < INR (length data)) by (apply INR_pos; lia).
    cbn [js_div of_nat xreal_Number]; rewrite xdiv_fin by lra.
    eexists; split; [reflexivity|].
    split; apply Rmult_le_reg_r with (INR (length data)); try exact Hpos;
      unfold Rdiv; rewrite Rmult_assoc, Rinv_l by lra; lra.
  - intros H; change (Fin 0) with (@js_zero xreal _).
    apply (silhouette_degenerate (inject data) labels).
    rewrite inject_length; exact H.
Qed.

End ExactFacts.


Lemma standardizeData_nonempty (num : Type) {N : Number num}
      (data : Matrix num) (d : nat) :
  (0 < d)%nat -> length (hd [] data) = d -> data <> [] ->
  standardizeData data
  = map (fun row =>
           map (fun i => js_div (js_sub (at_ row i)
                                        (at_ (columnMeans d data) i))
                                (at_ (columnStds d data (columnMeans d data))
                                     i))
               (seq 0 (length row)))
        data.
Proof.
  intros Hd Hrow Hne; unfold standardizeData.
  destruct data as [|row0 rest]; [congruence|].
  cbn [hd] in Hrow; rewrite Hrow.
  destruct (Nat.eqb_spec d 0); [lia | reflexivity].
Qed.

Module StandardizeFacts.

Import Exact ExactVocabulary ExactFacts.
Local Open Scope R_scope.

Lemma fold_Rplus_shift (l : list R) (a : R) :
  fold_left Rplus l a = a + fold_left Rplus l 0.
Proof.
  revert a; induction l as [|x l IH]; intros a; simpl; [lra|].
  rewrite IH, (IH (0 + x)); lra.
Qed.

Lemma Rsum_cons (x : R) (l : list R) : Rsum (x :: l) = x + Rsum l.
Proof. unfold Rsum; simpl; rewrite fold_Rplus_shift; lra. Qed.

Lemma Rsum_nil : Rsum [] = 0.
Proof. reflexivity. Qed.

Lemma Rsum_scale (f : R -> R) (a : R) (l : list R) :
  Rsum (map (fun x => f x / a) l) = Rsum (map f l) / a.
Proof.
  induction l as [|x l IH]; simpl map; rewrite ?Rsum_cons, ?Rsum_nil.
  - unfold Rdiv; lra.
  - rewrite IH; unfold Rdiv; lra.
Qed.

Lemma Rsum_shift (c : R) (l : list R) :
  Rsum (map (fun x => x - c) l) = Rsum l - INR (length l) * c.
Proof.
  induction l as [|x l IH]; simpl map; rewrite ?Rsum_cons, ?Rsum_nil.
  - simpl; lra.
  - rewrite IH; cbn [length]; rewrite S_INR; lra.
Qed.

Lemma Rsum_squares_nonneg (f : R -> R) (l : list R) :
  0 <= Rsum (map (fun x => f x * f x) l).
Proof.
  induction l as [|x l IH]; simpl map; rewrite ?Rsum_cons, ?Rsum_nil;
    [lra|].
  pose proof (Rle_0_sqr (f x)) as H; unfold Rsqr in H; lra.
Qed.

Lemma Rsum_squares_zero (f : R -> R) (l : list R) :
  Rsum (map (fun x => f x * f x) l) = 0 -> forall x, In x l -> f x = 0.
Proof.
  induction l as [|y l IH]; simpl map; rewrite ?Rsum_cons; intros H x Hx;
    [contradiction|].
  pose proof (Rsum_squares_nonneg f l) as Hl.
  pose proof (Rle_0_sqr (f y)) as Hy; unfold Rsqr in Hy.
  destruct Hx as [->|Hx].
  - apply Rsqr_eq_0; unfold Rsqr; lra.
  - apply IH; [lra | exact Hx].
Qed.

Lemma mean_constant (l : list R) (x : R) :
  l <> [] -> (forall y, In y l -> y = x) -> mean l = x.
Proof.
  intros Hne Hall; unfold mean.
  assert (H : Rsum l = INR (length l) * x).
  { clear Hne; induction l as [|y l IH]; rewrite ?Rsum_cons, ?Rsum_nil.
    - simpl; lra.
    - rewrite IH by (intros z Hz; apply Hall; right; exact Hz).
      rewrite (Hall y (or_introl eq_refl)); cbn [length]; rewrite S_INR; lra. }
  assert (Hn : 0 < INR (length l))
    by (apply INR_pos; destruct l; [congruence | simpl; lia]).
  rewrite H; field; lra.
Qed.

Lemma finVec_S (d : nat) (e : nat -> R) :
  finVec (S d) e = Fin (e 0%nat) :: finVec d (fun j => e (S j)).
Proof.
  unfold finVec; cbn [seq map]; f_equal.
  rewrite <- seq_shift, map_map; reflexivity.
Qed.

Lemma finVec_ext (d : nat) (e e' : nat -> R) :
  (forall j, (j < d)%nat -> e j = e' j) -> finVec d e = finVec d e'.
Proof.
  intros H; unfold finVec; apply map_ext_in; intros j Hj.
  apply in_seq in Hj; rewrite H by lia; reflexivity.
Qed.

Lemma finVec_inject (row : list R) :
  map Fin row = finVec (length row) (fun j => nth j row 0).
Proof.
  induction row as [|x row IH]; [reflexivity|].
  cbn [length]; rewrite finVec_S; cbn [map nth]; f_equal; exact IH.
Qed.

Lemma finVec_zero (d : nat) : repeat (Fin 0) d = finVec d (fun _ => 0).
Proof.
  induction d as [|d IH]; [reflexivity|].
  rewrite finVec_S; cbn [repeat]; f_equal; exact IH.
Qed.

Lemma at_finVec (d : nat) (e : nat -> R) (j : nat) :
  (j < d)%nat -> at_ (finVec d e) j = Fin (e j).
Proof.
  intros Hj; unfold at_, finVec.
  apply (nth_map_seq (fun j => Fin (e j))); exact Hj.
Qed.

Lemma addInto_finVec (d : nat) :
  forall e r,
    addInto (finVec d e) (finVec d r) = finVec d (fun j => e j + r j).
Proof.
  induction d as [|d IH]; intros e r; [reflexivity|].
  rewrite !finVec_S; cbn [addInto]; rewrite IH; reflexivity.
Qed.

Lemma addSquaresInto_finVec (d : nat) :
  forall e r mu,
    addSquaresInto (finVec d e) (finVec d r) (finVec d mu)
    = finVec d (fun j => e j + (r j + - mu j) * (r j + - mu j)).
Proof.
  induction d as [|d IH]; intros e r mu; [reflexivity|].
  rewrite !finVec_S; cbn [addSquaresInto hd tl]; rewrite IH; reflexivity.
Qed.

Section Columns.

Variable d : nat.

(** Folding the rows into per-column accumulators. *)
Lemma fold_rows_finVec (step : list xreal -> list xreal -> list xreal)
      (g : nat -> R -> R) :
  (forall e row, length row = d ->
                 step (finVec d e) (map Fin row)
                 = finVec d (fun j => e j + g j (nth j row 0))) ->
  forall rows e,
    rectangular d rows ->
    fold_left step (inject rows) (finVec d e)
    = finVec d (fun j => fold_left Rplus (map (g j) (column j rows)) (e j)).
Proof.
  intros Hstep; induction rows as [|row rows IH]; intros e Hrect;
    [reflexivity|].
  apply Forall_cons_iff in Hrect as [Hrow Hrect].
  cbn [inject map fold_left]; rewrite Hstep by exact Hrow.
  apply (IH _ Hrect).
Qed.

End Columns.

Lemma columnSums_exact (d : nat) (rows : list (list R)) :
  rectangular d rows ->
  columnSums d (inject rows) = finVec d (fun j => Rsum (column j rows)).
Proof.
  intros Hrect; unfold columnSums.
  change (@js_zero xreal _) with (Fin 0); rewrite finVec_zero.
  rewrite (@fold_rows_finVec d (@addInto xreal _) (fun _ x => x)).
  - apply finVec_ext; intros j _; rewrite map_id; reflexivity.
  - intros e row Hrow; rewrite finVec_inject, Hrow.
    apply addInto_finVec.
  - exact Hrect.
Qed.

Lemma column_length (j : nat) (rows : list (list R)) :
  length (column j rows) = length rows.
Proof. unfold column; apply length_map. Qed.

Lemma columnMeans_exact (d : nat) (rows : list (list R)) :
  rectangular d rows -> rows <> [] ->
  columnMeans d (inject rows) = finVec d (fun j => mean (column j rows)).
Proof.
  intros Hrect Hne; unfold columnMeans.
  rewrite columnSums_exact by exact Hrect.
  unfold finVec; rewrite map_map; apply map_ext; intros j.
  cbn [js_div of_nat xreal_Number]; rewrite inject_length.
  rewrite xdiv_fin.
  - unfold mean; rewrite column_length; reflexivity.
  - apply Rgt_not_eq, INR_pos; destruct rows; [congruence | simpl; lia].
Qed.

Lemma squares_nonneg (l : list R) :
  0 <= Rsum (map (fun x => (x - mean l) * (x - mean l)) l) / INR (length l).
Proof.
  destruct l as [|x l]; [simpl; unfold Rsum, Rdiv; simpl; lra|].
  apply Rle_mult_inv_pos.
  - apply (Rsum_squares_nonneg (fun y => y - mean (x :: l))).
  - apply INR_pos; simpl; lia.
Qed.

Lemma scale_nonzero (l : list R) : scale l <> 0.
Proof. unfold scale; destruct (Req_dec_T (deviation l) 0); lra. Qed.

Lemma columnStds_exact (d : nat) (rows : list (list R)) :
  rectangular d rows -> rows <> [] ->
  columnStds d (inject rows) (finVec d (fun j => mean (column j rows)))
  = finVec d (fun j => scale (column j rows)).
Proof.
  intros Hrect Hne; unfold columnStds.
  change (@js_zero xreal _) with (Fin 0); rewrite finVec_zero.
  rewrite (@fold_rows_finVec d
             (fun stds row =>
                addSquaresInto stds row
                               (finVec d (fun j => mean (column j rows))))
             (fun j x => (x + - mean (column j rows))
                         * (x + - mean (column j rows)))).
  - unfold finVec; rewrite map_map; apply map_ext; intros j.
    cbn [js_div js_sqrt js_eq js_one of_nat xreal_Number].
    rewrite inject_length.
    assert (Hn : INR (length rows) <> 0)
      by (apply Rgt_not_eq, INR_pos; destruct rows; [congruence | simpl; lia]).
    rewrite xdiv_fin by exact Hn.
    pose proof (squares_nonneg (column j rows)) as Hpos.
    rewrite column_length in Hpos.
    unfold Rminus in Hpos.
    fold (Rsum (map (fun x => (x + - mean (column j rows))
                              * (x + - mean (column j rows)))
                    (column j rows))).
    rewrite xsqrt_fin by exact Hpos.
    cbn [xeq]; unfold scale, deviation, Reqb, Rminus.
    rewrite column_length.
    destruct (Req_dec_T _ 0); reflexivity.
  - intros e row Hrow; rewrite (finVec_inject row), Hrow.
    apply addSquaresInto_finVec.
  - exact Hrect.
Qed.

Lemma standardizeData_exact (d : nat) (rows : list (list R)) :
  rectangular d rows -> (0 < d)%nat -> rows <> [] ->
  standardizeData (inject rows) = inject (standardized d rows).
Proof.
  intros Hrect Hd Hne.
  rewrite (@standardizeData_nonempty xreal _ (inject rows) d Hd).
  2:{ destruct rows as [|row0 rest]; [congruence|].
      apply Forall_cons_iff in Hrect as [Hrow0 _].
      cbn [inject map hd]; rewrite length_map; exact Hrow0. }
  2:{ destruct rows; [congruence | discriminate]. }
  rewrite columnMeans_exact by assumption.
  rewrite columnStds_exact by assumption.
  unfold inject, standardized; rewrite !map_map.
  apply map_ext_in; intros row Hrow.
  assert (Hlen : length row = d)
    by (unfold rectangular in Hrect; rewrite Forall_forall in Hrect; auto).
  rewrite length_map, Hlen, map_map.
  apply map_ext_in; intros j Hj; apply in_seq in Hj.
  rewrite (finVec_inject row), Hlen, !at_finVec by lia.
  cbn [js_sub js_div xreal_Number xsub xneg xadd].
  rewrite xdiv_fin by apply scale_nonzero; reflexivity.
Qed.

Lemma column_standardized (d : nat) (rows : list (list R)) (j : nat) :
  (j < d)%nat ->
  column j (standardized d rows)
  = map (fun x => (x - mean (column j rows)) / scale (column j rows))
        (column j rows).
Proof.
  intros Hj; unfold column at 1 4, standardized; rewrite !map_map.
  apply map_ext; intros row.
  rewrite (nth_map_seq (fun j => (nth j row 0 - mean (column j rows))
                                 / scale (column j rows))) by exact Hj.
  reflexivity.
Qed.

Section OneColumn.

Variable l : list R.
Hypothesis Hne : l <> [].

Let n_pos : 0 < INR (length l).
Proof. apply INR_pos; destruct l; [congruence | simpl; lia]. Qed.

Lemma mean_of_centred (sigma : R) :
  mean (map (fun x => (x - mean l) / sigma) l) = 0.
Proof.
  unfold mean at 1; rewrite length_map.
  rewrite (Rsum_scale (fun x => x - mean l)), Rsum_shift.
  assert (H : Rsum l - INR (length l) * mean l = 0)
    by (unfold mean; field; lra).
  rewrite H; unfold Rdiv; lra.
Qed.

Lemma constant_deviation : constant l -> deviation l = 0.
Proof.
  intros Hc; unfold deviation.
  destruct l as [|x l'] eqn:El; [congruence|]; rewrite <- El in *.
  assert (Hm : mean l = x).
  { apply mean_constant; [exact Hne|].
    intros y Hy; apply Hc; [exact Hy | rewrite El; left; reflexivity]. }
  assert (H0 : Rsum (map (fun y => (y - mean l) * (y - mean l)) l) = 0).
  { rewrite Hm.
    assert (Hall : forall y, In y l -> y = x)
      by (intros y Hy; apply Hc; [exact Hy | rewrite El; left; reflexivity]).
    clear - Hall; induction l as [|y l0 IH]; [reflexivity|].
    simpl map; rewrite Rsum_cons, IH
      by (intros z Hz; apply Hall; right; exact Hz).
    rewrite (Hall y (or_introl eq_refl)); lra. }
  rewrite H0; unfold Rdiv; rewrite Rmult_0_l; apply sqrt_0.
Qed.

Lemma deviation_zero_constant : deviation l = 0 -> constant l.
Proof.
  unfold deviation; intros H.
  apply sqrt_eq_0 in H; [|apply squares_nonneg].
  assert (H0 : Rsum (map (fun x => (x - mean l) * (x - mean l)) l) = 0).
  { apply Rmult_eq_reg_r with (/ INR (length l));
      [|apply Rinv_neq_0_compat; lra].
    unfold Rdiv in H; rewrite H; lra. }
  intros x y Hx Hy.
  pose proof (Rsum_squares_zero (fun z => z - mean l) l H0 x Hx).
  pose proof (Rsum_squares_zero (fun z => z - mean l) l H0 y Hy).
  cbv beta in *; lra.
Qed.

Lemma deviation_of_standardized :
  ~ constant l ->
  deviation (map (fun x => (x - mean l) / deviation l) l) = 1.
Proof.
  intros Hnc.
  assert (Hs : deviation l <> 0)
    by (intros H; apply Hnc, deviation_zero_constant; exact H).
  unfold deviation at 1.
  rewrite mean_of_centred, length_map, map_map.
  rewrite (map_ext _ (fun x => ((x - mean l) * (x - mean l))
                               / (deviation l * deviation l)))
    by (intros x; field; exact Hs).
  rewrite (Rsum_scale (fun x => (x - mean l) * (x - mean l))).
  assert (Hsq : deviation l * deviation l
                = Rsum (map (fun x => (x - mean l) * (x - mean l)) l)
                  / INR (length l))
    by (unfold deviation; apply sqrt_sqrt, squares_nonneg).
  replace (Rsum (map (fun x => (x - mean l) * (x - mean l)) l)
           / (deviation l * deviation l) / INR (length l))
    with 1; [apply sqrt_1|].
  assert (HS : Rsum (map (fun x => (x - mean l) * (x - mean l)) l) <> 0).
  { intros H; apply Hs.
    assert (H' : deviation l * deviation l = 0)
      by (rewrite Hsq; unfold Rdiv; rewrite H; lra).
    apply Rmult_integral in H'; tauto. }
  rewrite Hsq; field; split; [lra | exact HS].
Qed.

End OneColumn.

(** What [standardizeData] attempts, and does in exact arithmetic: on a
    non-empty rectangular matrix of reals, a constant column comes out as
    zeros (its scale is set to 1), and every other column comes out with mean
    0 and population standard deviation 1. *)
Theorem standardize_exact (d : nat) (rows : list (list R)) :
  rectangular d rows -> (0 < d)%nat -> rows <> [] ->
  exists out,
    standardizeData (inject rows) = inject out
    /\ forall j, (j < d)%nat ->
         (constant (column j rows) ->
          scale (column j rows) = 1
          /\ forall x, In x (column j out) -> x = 0)
         /\ (~ constant (column j rows) ->
             mean (column j out) = 0 /\ deviation (column j out) = 1).
Proof.
  intros Hrect Hd Hne; exists (standardized d rows); split.
  - apply standardizeData_exact; assumption.
  - intros j Hj; rewrite column_standardized by exact Hj.
    assert (Hcol : column j rows <> [])
      by (unfold column; destruct rows; [congruence | discriminate]).
    split.
    + intros Hc.
      pose proof (constant_deviation Hcol Hc) as Hdev.
      assert (Hscale : scale (column j rows) = 1)
        by (unfold scale; destruct (Req_dec_T _ 0); [reflexivity | lra]).
      split; [exact Hscale|].
      intros x Hx; apply in_map_iff in Hx as (y & <- & Hy).
      rewrite Hscale.
      rewrite (@mean_constant (column j rows) y Hcol)
        by (intros z Hz; apply Hc; assumption).
      lra.
    + intros Hnc.
      assert (Hscale : scale (column j rows) = deviation (column j rows)).
      { unfold scale; destruct (Req_dec_T _ 0) as [E|]; [|reflexivity].
        exfalso; apply Hnc, (deviation_zero_constant Hcol E). }
      rewrite Hscale; split.
      * apply mean_of_centred; exact Hcol.
      * apply deviation_of_standardized; assumption.
Qed.

End StandardizeFacts.

(** ** Exact arithmetic: sums *)

Lemma fold_left_map_arg {A B C : Type} (f : C -> B -> C) (g : A -> B)
      (l : list A) (c : C) :
  fold_left f (map g l) c = fold_left (fun acc x => f acc (g x)) l c.
Proof. revert c; induction l as [|x l IH]; intros c; simpl; auto. Qed.

Module SumsExact.

Import Exact ExactFacts ExactVocabulary StandardizeFacts.
Local Open Scope R_scope.

Lemma Rsum_nonneg (l : list R) : (forall x, In x l -> 0 <= x) -> 0 <= Rsum l.
Proof.
  induction l as [|x l IH]; intros H; rewrite ?Rsum_cons, ?Rsum_nil; [lra|].
  pose proof (H x (or_introl eq_refl)).
  pose proof (IH (fun y Hy => H y (or_intror Hy))); lra.
Qed.

Lemma sum_list_fin (l : list R) : sum_list (map Fin l) = Fin (Rsum l).
Proof.
  unfold sum_list, Rsum; change (@js_zero xreal _) with (Fin 0).
  generalize 0; induction l as [|x l IH]; intros a; [reflexivity|].
  cbn [map fold_left]; apply IH.
Qed.

End SumsExact.

(** ** Exact arithmetic: k-means++ seeding with draws above 0 *)

Module SeedingExact.

Import Exact ExactVocabulary ExactFacts StandardizeFacts SumsExact.
Local Open Scope R_scope.

Lemma squaredDistance_nonneg (a b : list R) : 0 <= squaredDistance a b.
Proof.
  revert b; induction a as [|x a IH]; intros [|y b]; simpl; try lra.
  pose proof (IH b) as Hab.
  pose proof (Rle_0_sqr (x + - y)) as Hxy; unfold Rsqr in Hxy.
  lra.
Qed.

Lemma squaredDistance_zero (a b : list R) :
  length a = length b -> (squaredDistance a b = 0 <-> a = b).
Proof.
  revert b; induction a as [|x a IH]; intros [|y b] Hlen; simpl in *;
    try discriminate; [tauto|].
  pose proof (squaredDistance_nonneg a b) as Hab.
  pose proof (Rle_0_sqr (x + - y)) as Hxy; unfold Rsqr in Hxy.
  specialize (IH b (eq_add_S _ _ Hlen)).
  split.
  - intros H.
    assert (Hsq : (x + - y) * (x + - y) = 0) by lra.
    apply Rmult_integral in Hsq.
    f_equal; [lra | apply IH; lra].
  - intros H; inversion H; subst.
    replace (squaredDistance b b) with 0 by (symmetry; apply IH; reflexivity).
    lra.
Qed.

Lemma sumSquaredDiffs_exact (a : list R) :
  forall (b : list R) (s : R),
    length a = length b ->
    sumSquaredDiffs (map Fin a) (map Fin b) (Fin s)
    = Fin (s + squaredDistance a b).
Proof.
  induction a as [|x a IH]; intros [|y b] s Hlen; simpl in Hlen;
    try discriminate; cbn [map sumSquaredDiffs squaredDistance].
  - f_equal; lra.
  - cbv zeta; cbn [hd tl js_sub js_mul js_add xreal_Number xsub xneg xadd xmul].
    rewrite IH by lia; f_equal; lra.
Qed.

Lemma euclideanDistance_exact (a b : list R) :
  length a = length b ->
  euclideanDistance (map Fin a) (map Fin b)
  = Fin (sqrt (0 + squaredDistance a b)).
Proof.
  intros Hlen; unfold euclideanDistance.
  change (@js_zero xreal _) with (Fin 0).
  rewrite sumSquaredDiffs_exact by exact Hlen.
  cbn [js_sqrt xreal_Number]; apply xsqrt_fin.
  pose proof (squaredDistance_nonneg a b); lra.
Qed.

Lemma distance_zero (a b : list R) :
  length a = length b ->
  0 <= sqrt (0 + squaredDistance a b)
  /\ (sqrt (0 + squaredDistance a b) = 0 <-> a = b).
Proof.
  intros Hlen; pose proof (squaredDistance_nonneg a b) as Hpos.
  split; [apply sqrt_pos|].
  rewrite <- (squaredDistance_zero a b Hlen); split.
  - intros H; apply sqrt_eq_0 in H; lra.
  - intros H; rewrite H, Rplus_0_r; apply sqrt_0.
Qed.

Section Nearest.

Variable d : nat.
Variable p : list R.
Hypothesis Hp : length p = d.

(** The running minimum is [Infinity] before the first centroid and a real
    afterwards, 0 exactly when the point is one of the centroids seen. *)
Lemma nearest_fold (cs : list (list R)) :
  rectangular d cs ->
  forall m,
    m = PInf \/ (exists mu, m = Fin mu /\ 0 <= mu) ->
    let m' := fold_left (fun m centroid =>
                           js_min m (euclideanDistance (map Fin p) centroid))
                        (inject cs) m in
    (cs = [] /\ m' = m)
    \/ exists mu', m' = Fin mu' /\ 0 <= mu'
                   /\ (mu' = 0 <-> m = Fin 0 \/ In p cs).
Proof.
  induction cs as [|c cs IH]; intros Hrect m Hm; cbn [inject map fold_left];
    [left; auto|].
  apply Forall_cons_iff in Hrect as [Hc Hrect].
  right; cbv zeta in IH.
  rewrite euclideanDistance_exact by congruence.
  destruct (@distance_zero p c ltac:(congruence)) as [He Hz].
  set (e := sqrt (0 + squaredDistance p c)) in *.
  assert (Hm1 : exists mu1, js_min m (Fin e) = Fin mu1 /\ 0 <= mu1
                            /\ (mu1 = 0 <-> m = Fin 0 \/ p = c)).
  { destruct Hm as [-> | (mu & -> & Hmu)]; cbn [js_min xreal_Number xmin xlt].
    - exists e; repeat split; auto.
      + intros H; right; apply Hz; exact H.
      + intros [H | H]; [discriminate | apply Hz; exact H].
    - unfold Rltb; destruct (Rlt_dec e mu).
      + exists e; repeat split; auto.
        * intros H; right; apply Hz; exact H.
        * intros [H | H]; [inversion H; lra | apply Hz; exact H].
      + exists mu; repeat split; auto.
        * intros H; left; subst; reflexivity.
        * intros [H | H]; [inversion H; reflexivity|].
          apply Hz in H; lra. }
  destruct Hm1 as (mu1 & Hmin & Hmu1 & Hzero).
  change (fold_left _ (map (map Fin) cs) (js_min m (Fin e)))
    with (fold_left (fun m centroid =>
                       js_min m (euclideanDistance (map Fin p) centroid))
                    (inject cs) (js_min m (Fin e))).
  rewrite Hmin.
  destruct (IH Hrect (Fin mu1)) as [[-> ->] | (mu' & -> & Hmu' & Hz')].
  - right; exists mu1; split; auto.
  - exists mu1; repeat split; auto.
    + intros H; apply Hzero in H as [H | H]; [left | right; left]; auto.
    + intros [H | [H | []]]; apply Hzero; auto.
  - exists mu'; repeat split; auto.
    + intros H; apply Hz' in H as [H | H].
      * inversion H; subst.
        destruct (proj1 Hzero eq_refl) as [H' | H']; [left | right; left];
          auto.
      * right; right; exact H.
    + intros [H | [H | H]]; apply Hz'.
      * left; f_equal; apply Hzero; left; exact H.
      * left; f_equal; apply Hzero; right; auto.
      * right; exact H.
Qed.

Lemma nearestSquared_exact (cs : list (list R)) :
  cs <> [] -> rectangular d cs ->
  exists delta,
    nearestSquared (inject cs) (map Fin p) = Fin delta
    /\ 0 <= delta /\ (delta = 0 <-> In p cs).
Proof.
  intros Hne Hrect; unfold nearestSquared.
  destruct (nearest_fold Hrect (m := PInf) (or_introl eq_refl))
    as [[-> _] | (mu & Hfold & Hmu & Hz)]; [congruence|].
  cbv zeta in Hfold |- *.
  change (@js_infinity xreal _) with PInf; rewrite Hfold.
  exists (mu * mu); split; [reflexivity|].
  split; [apply Rmult_le_pos; exact Hmu|].
  split.
  - intros H; apply Rmult_integral in H.
    assert (mu = 0) by tauto.
    apply Hz in H0 as [H0 | H0]; [discriminate | exact H0].
  - intros H; assert (mu = 0) by (apply Hz; right; exact H).
    subst; lra.
Qed.

End Nearest.

Lemma xle_fin (a b : R) : xle (Fin a) (Fin b) = true <-> a <= b.
Proof.
  unfold xle; cbn [xlt xeq]; unfold Rltb, Reqb.
  destruct (Rlt_dec a b); destruct (Req_dec_T a b); cbn [orb];
    split; intros H; try reflexivity; try discriminate; lra.
Qed.

(** With draws above 0, the scan stops at an index of positive
    probability. *)
Lemma drawIndex_positive (r : R) (ps : list R) :
  forall (j0 : nat) (c0 : R),
    (forall q, In q ps -> 0 <= q) ->
    c0 < r -> r <= c0 + Rsum ps ->
    let j := drawIndex (Fin r) (map Fin ps) j0 (Fin c0) in
    (j0 <= j < j0 + length ps)%nat /\ 0 < nth (j - j0) ps 0.
Proof.
  induction ps as [|q ps IH]; intros j0 c0 Hpos Hlow Hhigh; cbv zeta.
  - rewrite Rsum_nil in Hhigh; lra.
  - rewrite Rsum_cons in Hhigh.
    cbn [map drawIndex]; cbv zeta.
    change (js_add (Fin c0) (Fin q)) with (Fin (c0 + q)).
    change (js_le (Fin r) (Fin (c0 + q))) with (xle (Fin r) (Fin (c0 + q))).
    destruct (xle (Fin r) (Fin (c0 + q))) eqn:E.
    + apply xle_fin in E.
      replace (j0 - j0)%nat with 0%nat by lia; cbn [nth length].
      split; [lia | lra].
    + assert (Hlt : c0 + q < r).
      { destruct (Rlt_dec (c0 + q) r) as [H|H]; [exact H|].
        assert (E' : xle (Fin r) (Fin (c0 + q)) = true)
          by (apply xle_fin; lra).
        congruence. }
      destruct (IH (S j0) (c0 + q)) as [Hj Hq];
        [intros; apply Hpos; right; assumption | exact Hlt | lra |].
      cbv zeta in Hj, Hq.
      set (j := drawIndex (Fin r) (map Fin ps) (S j0) (Fin (c0 + q))) in *.
      split; [cbn [length]; lia|].
      replace (j - j0)%nat with (S (j - S j0)) by lia; exact Hq.
Qed.

Lemma Rsum_positive (l : list R) (x : R) :
  (forall y, In y l -> 0 <= y) -> In x l -> 0 < x -> 0 < Rsum l.
Proof.
  induction l as [|y l IH]; intros Hpos Hx Hx0; [contradiction|].
  rewrite Rsum_cons.
  pose proof (Hpos y (or_introl eq_refl)) as Hy.
  pose proof (Rsum_nonneg l (fun z Hz => Hpos z (or_intror Hz))) as Hl.
  destruct Hx as [->|Hx]; [lra|].
  pose proof (IH (fun z Hz => Hpos z (or_intror Hz)) Hx Hx0); lra.
Qed.

(** An index below [n] that a shorter list without repetition misses. *)
Lemma missing_index (picked : list nat) (n : nat) :
  NoDup picked -> (length picked < n)%nat ->
  exists j, (j < n)%nat /\ ~ In j picked.
Proof.
  intros Hnd Hlen.
  assert (H : forall l : list nat,
             (exists j, In j l /\ ~ In j picked)
             \/ (forall j, In j l -> In j picked)).
  { induction l as [|j l [IH | IH]].
    - right; intros j [].
    - destruct IH as (j' & Hj' & Hn); left; exists j'; split; auto.
      right; exact Hj'.
    - destruct (in_dec Nat.eq_dec j picked) as [Hin | Hout].
      + right; intros j' [<- | Hj']; auto.
      + left; exists j; split; [left; reflexivity | exact Hout]. }
  destruct (H (seq 0 n)) as [(j & Hj & Hout) | Hall].
  - exists j; split; [apply in_seq in Hj; lia | exact Hout].
  - pose proof (NoDup_incl_length (seq_NoDup n 0) Hall) as Hle.
    rewrite length_seq in Hle; lia.
Qed.

Lemma Forall2_at {A B : Type} (P : A -> B -> Prop) (l : list A) (l' : list B)
      (a : A) (b : B) :
  Forall2 P l l' ->
  forall j, (j < length l)%nat -> P (nth j l a) (nth j l' b).
Proof.
  induction 1 as [|x y l l' Hxy _ IH]; intros [|j] Hj; simpl in *;
    try lia; auto.
  apply IH; lia.
Qed.

Lemma randomIndex_exact (rho : R) (n : nat) :
  0 < rho < 1 -> (0 < n)%nat ->
  exists i, randomIndex (Fin rho) n = Some i /\ (i < n)%nat.
Proof.
  intros Hrho Hn; unfold randomIndex.
  cbn [js_mul of_nat floor_index xreal_Number xmul xfloorIndex].
  pose proof (INR_pos Hn) as Hpos.
  assert (Hx : 0 <= rho * INR n) by (apply Rmult_le_pos; lra).
  assert (Hlt : rho * INR n < INR n).
  { rewrite <- (Rmult_1_l (INR n)) at 2.
    apply Rmult_lt_compat_r; lra. }
  rewrite Rltb_false by exact Hx.
  eexists; split; [reflexivity|].
  destruct (base_Int_part (rho * INR n)) as [Hle Hgt].
  assert (Hz : (Int_part (rho * INR n) < Z.of_nat n)%Z).
  { apply lt_IZR; rewrite <- INR_IZR_INZ; lra. }
  lia.
Qed.

Section Seeding.

Variable d : nat.
Variable rows : list (list R).
Hypothesis Hrect : rectangular d rows.
Hypothesis Hdistinct : NoDup rows.
Variable random : random_source xreal.
Hypothesis Hdraws : forall c, exists rho, random c = Fin rho /\ 0 < rho < 1.

Lemma distances_exact (cs : list (list R)) :
  cs <> [] -> rectangular d cs ->
  forall rows',
    rectangular d rows' ->
    exists deltas,
      map (nearestSquared (inject cs)) (inject rows') = map Fin deltas
      /\ Forall2 (fun row delta => 0 <= delta /\ (delta = 0 <-> In row cs))
                 rows' deltas.
Proof.
  intros Hne Hcs; induction rows' as [|row rows' IH]; intros Hrows.
  - exists []; split; [reflexivity | constructor].
  - apply Forall_cons_iff in Hrows as [Hrow Hrows].
    destruct (IH Hrows) as (deltas & Hmap & Hall).
    destruct (@nearestSquared_exact d row Hrow cs Hne Hcs)
      as (delta & Hdelta & Hpos & Hzero).
    exists (delta :: deltas); split.
    + cbn [inject map]; rewrite Hdelta; f_equal; exact Hmap.
    + constructor; auto.
Qed.

Lemma pushRow_exact (j : nat) (st : seeding xreal) :
  (j < length rows)%nat ->
  pushRow (inject rows) (Some j) st
  = Ok {| seed_centroids := seed_centroids st ++ [map Fin (nth j rows [])];
          seed_rows := seed_rows st ++ [j] |}.
Proof.
  intros Hj; unfold pushRow, inject.
  rewrite nth_error_map, (nth_error_nth' rows [] Hj); reflexivity.
Qed.

Lemma seeded_push (j : nat) (st : seeding xreal) :
  seeded rows st -> (j < length rows)%nat -> ~ In j (seed_rows st) ->
  seeded rows
         {| seed_centroids := seed_centroids st ++ [map Fin (nth j rows [])];
            seed_rows := seed_rows st ++ [j] |}.
Proof.
  intros (Hnd & Hlt & Hne & Hcs) Hj Hout; unfold seeded;
    cbn [seed_rows seed_centroids].
  repeat split.
  - apply NoDup_app; auto.
    + constructor; [intros [] | constructor].
    + intros i Hi [<- | []]; contradiction.
  - apply Forall_app; split; auto.
  - destruct (seed_rows st); discriminate.
  - rewrite Hcs, map_app; unfold inject; rewrite map_app; reflexivity.
Qed.

(** A row that is not picked yet is not a centroid. *)
Lemma unpicked_not_centroid (picked : list nat) (j : nat) :
  Forall (fun i => (i < length rows)%nat) picked ->
  (j < length rows)%nat -> ~ In j picked ->
  ~ In (nth j rows []) (map (fun i => nth i rows []) picked).
Proof.
  intros Hlt Hj Hout Hin.
  apply in_map_iff in Hin as (i & Heq & Hi).
  rewrite Forall_forall in Hlt.
  apply Hout.
  rewrite <- (proj1 (NoDup_nth rows []) Hdistinct i j (Hlt i Hi) Hj Heq).
  exact Hi.
Qed.

Lemma seedLoop_distinct (todo : nat) :
  forall st c,
    seeded rows st ->
    (length (seed_rows st) + todo <= length rows)%nat ->
    exists st' c',
      seedLoop (inject rows) random todo st c = Ok (st', c')
      /\ seeded rows st'
      /\ length (seed_rows st') = (length (seed_rows st) + todo)%nat.
Proof.
  induction todo as [|todo IH]; intros st c Hst Hroom; cbn [seedLoop].
  - exists st, c; split; [reflexivity | split; [exact Hst | lia]].
  - cbv zeta.
    destruct Hst as (Hnd & Hlt & Hne & Hcs).
    set (picked := seed_rows st) in *.
    set (cs := map (fun i => nth i rows []) picked) in *.
    assert (Hcsne : cs <> [])
      by (subst cs; destruct picked; [congruence | discriminate]).
    assert (Hcsrect : rectangular d cs).
    { unfold rectangular, cs; apply Forall_map.
      eapply Forall_impl; [|exact Hlt]; intros i Hi.
      apply (@rectangular_nth _ d rows i Hrect Hi). }
    destruct (distances_exact Hcsne Hcsrect Hrect) as (deltas & Hmap & Hall).
    rewrite Hcs, Hmap, sum_list_fin.
    pose proof (Forall2_length Hall) as Hlen.
    assert (Hpos : forall q, In q deltas -> 0 <= q).
    { intros q Hq; apply (In_nth _ _ 0) in Hq as (j & Hj & <-).
      apply (Forall2_at [] 0 Hall); lia. }
    assert (HS : 0 < Rsum deltas).
    { destruct (@missing_index picked (length rows) Hnd) as (j & Hj & Hout);
        [lia|].
      destruct (Forall2_at [] 0 Hall Hj) as [Hd0 Hdz].
      apply Rsum_positive with (x := nth j deltas 0); auto.
      - apply nth_In; lia.
      - destruct (Req_dec_T (nth j deltas 0) 0) as [E|E]; [|lra].
        apply Hdz in E; exfalso.
        apply (unpicked_not_centroid Hlt Hj Hout E). }
    change (js_eq (Fin (Rsum deltas)) js_zero)
      with (Reqb (Rsum deltas) 0).
    rewrite Reqb_false by lra.
    rewrite map_map.
    rewrite (map_ext (fun x => js_div (Fin x) (Fin (Rsum deltas)))
                     (fun x => Fin (x / Rsum deltas)))
      by (intros x; apply xdiv_fin; lra).
    rewrite <- (map_map (fun x => x / Rsum deltas) Fin).
    destruct (Hdraws c) as (rho & -> & Hrho).
    change (@js_zero xreal _) with (Fin 0).
    destruct (@drawIndex_positive rho
                (map (fun x => x / Rsum deltas) deltas) 0%nat 0)
      as [Hj Hq].
    { intros q Hq; apply in_map_iff in Hq as (x & <- & Hx).
      apply Rle_mult_inv_pos; auto. }
    { lra. }
    { rewrite (Rsum_scale (fun x => x)), map_id.
      replace (Rsum deltas / Rsum deltas) with 1 by (field; lra); lra. }
    cbv zeta in Hj, Hq.
    set (j := drawIndex (Fin rho)
                        (map Fin (map (fun x => x / Rsum deltas) deltas))
                        0 (Fin 0)) in *.
    rewrite length_map in Hj; rewrite Nat.sub_0_r in Hq.
    assert (Hjn : (j < length rows)%nat) by lia.
    assert (Hout : ~ In j picked).
    { intros Hin.
      destruct (Forall2_at [] 0 Hall Hjn) as [_ Hdz].
      assert (E : nth j deltas 0 = 0)
        by (apply Hdz, in_map_iff; exists j; auto).
      rewrite (nth_indep _ 0 (0 / Rsum deltas)) in Hq
        by (rewrite length_map; lia).
      rewrite (map_nth (fun x => x / Rsum deltas)), E in Hq.
      unfold Rdiv in Hq; lra. }
    rewrite (pushRow_exact st Hjn); cbn [bind].
    assert (Hst' : seeded rows
                     {| seed_centroids :=
                          seed_centroids st ++ [map Fin (nth j rows [])];
                        seed_rows := seed_rows st ++ [j] |})
      by (apply seeded_push; unfold seeded; auto).
    destruct (IH _ (S c) Hst') as (st' & c' & -> & Hseeded & Hcount).
    { cbn [seed_rows]; rewrite length_app; simpl; fold picked; lia. }
    exists st', c'; split; [reflexivity | split; [exact Hseeded|]].
    rewrite Hcount; cbn [seed_rows]; rewrite length_app; simpl; fold picked.
    lia.
Qed.

(** What C4 asks, in exact arithmetic and for draws strictly between 0 and
    1: from at least [k] pairwise distinct rows, the seeding picks [k]
    rows no two of which are the same. *)
Lemma seeding_distinct_exact (k c : nat) :
  (0 < length rows)%nat -> (k <= length rows)%nat ->
  exists st c',
    seedCentroids (inject rows) k random c = Ok (st, c')
    /\ NoDup (seed_rows st)
    /\ length (seed_rows st) = Nat.max 1 k
    /\ seed_centroids st
       = inject (map (fun i => nth i rows []) (seed_rows st)).
Proof.
  intros Hn Hk; unfold seedCentroids.
  destruct (Hdraws c) as (rho & -> & Hrho).
  rewrite inject_length.
  destruct (randomIndex_exact Hrho Hn) as (i & -> & Hi).
  rewrite (pushRow_exact _ Hi); cbn [bind seed_centroids seed_rows app].
  destruct (@seedLoop_distinct (k - 1)
              {| seed_centroids := [map Fin (nth i rows [])];
                 seed_rows := [i] |} (S c))
    as (st & c' & -> & (Hnd & _ & _ & Hcs) & Hcount).
  - unfold seeded; cbn [seed_rows seed_centroids]; repeat split.
    + constructor; [intros [] | constructor].
    + constructor; [exact Hi | constructor].
    + discriminate.
  - cbn [seed_rows length]; lia.
  - exists st, c'; repeat split; auto.
    rewrite Hcount; cbn [seed_rows length]; lia.
Qed.

End Seeding.

End SeedingExact.

(** ** More on lists *)

Lemma In_firstn {A : Type} (k : nat) (l : list A) (x : A) :
  In x (firstn k l) -> In x l.
Proof.
  intros H. rewrite <- (firstn_skipn k l). apply in_or_app. left. exact H.
Qed.


Lemma map_snd_combine {A B : Type} (l : list A) (l' : list B) :
  length l = length l' -> map snd (combine l l') = l'.
Proof.
  revert l'. induction l as [|x l IH]; intros [|y l'] H; cbn in *;
    try reflexivity; try discriminate.
  f_equal. apply IH. lia.
Qed.


Lemma firstn_nodup {A : Type} (k : nat) (l : list A) :
  NoDup l -> NoDup (firstn k l).
Proof.
  intros H. rewrite <- (firstn_skipn k l) in H.
  apply NoDup_app_remove_r in H. exact H.
Qed.


Lemma flat_map_length_ext {A B C : Type} (f : A -> list B) (g : A -> list C)
      (l : list A) :
  (forall x, length (f x) = length (g x)) ->
  length (flat_map f l) = length (flat_map g l).
Proof.
  intros H. induction l as [|x l IH]; [reflexivity|].
  cbn [flat_map]. rewrite !length_app, H, IH. reflexivity.
Qed.

Lemma existsb_filter {A : Type} (f : A -> bool) (l : list A) :
  existsb f l = Nat.ltb 0 (length (filter f l)).
Proof.
  induction l as [|x l IH]; [reflexivity|].
  cbn [existsb filter]. destruct (f x); [reflexivity|exact IH].
Qed.

Lemma one_selected {A B : Type} (f : A -> bool) (a b : B) (l : list A) :
  length (filter f l) = 1 ->
  exists before after,
    map (fun v => if f v then a else b) l
    = repeat b before ++ a :: repeat b after
    /\ length l = before + 1 + after.
Proof.
  induction l as [|x l IH]; [discriminate|].
  cbn [filter map]. destruct (f x) eqn:E.
  - cbn [length]. intros H. exists 0, (length l). cbn [repeat app].
    split; [|lia]. f_equal.
    assert (Hnone : filter f l = [])
      by (destruct (filter f l); [reflexivity|discriminate]).
    clear IH H. induction l as [|y l IH]; [reflexivity|].
    cbn [filter] in Hnone. destruct (f y) eqn:Ey; [discriminate|].
    cbn [map length repeat]. rewrite Ey, IH by exact Hnone. reflexivity.
  - intros H. destruct (IH H) as (before & after & Heq & Hlen).
    exists (S before), after. rewrite Heq. cbn [repeat app length].
    split; [reflexivity|lia].
Qed.


(** ** K-means: the shape of the result, errors, fixed points *)

Section KMeansShape.

Context (num : Type) {N : Number num}.
Local Open Scope js_scope.
Local Abbreviation matrix := (Matrix num).

Lemma pushRow_shape (data : matrix) (idx : option nat) (st st' : seeding num) :
  pushRow data idx st = Ok st' ->
  exists i row,
    idx = Some i /\ nth_error data i = Some row
    /\ seed_centroids st' = seed_centroids st ++ [row]
    /\ seed_rows st' = seed_rows st ++ [i].
Proof.
  unfold pushRow. destruct idx as [i|]; [|discriminate].
  destruct (nth_error data i) as [row|] eqn:E; [|discriminate].
  intros H. inversion H; subst; clear H. exists i, row. cbn. auto.
Qed.

Lemma seedLoop_shape (data : matrix) (random : random_source num) :
  forall todo st c st' c',
    seedLoop data random todo st c = Ok (st', c') ->
    Forall (fun centroid => In centroid data) (seed_centroids st) ->
    Forall (fun centroid => In centroid data) (seed_centroids st')
    /\ length (seed_centroids st') = (length (seed_centroids st) + todo)%nat
    /\ c' = (c + todo)%nat.
Proof.
  induction todo as [|todo IH]; intros st c st' c' H Hin.
  - cbn in H. inversion H; subst. repeat split; auto; lia.
  - cbn [seedLoop] in H. cbv zeta in H.
    assert (Hpush : forall idx,
               bind (pushRow data idx st)
                    (fun st1 => seedLoop data random todo st1 (S c))
               = Ok (st', c') ->
               Forall (fun centroid => In centroid data) (seed_centroids st')
               /\ length (seed_centroids st')
                  = (length (seed_centroids st) + S todo)%nat
               /\ c' = (c + S todo)%nat).
    { intros idx Hb. destruct (pushRow data idx st) as [st1|e] eqn:E;
        [|discriminate].
      cbn [bind] in Hb.
      destruct (pushRow_shape _ _ _ E) as (i & row & _ & Hrow & Hc & _).
      apply IH in Hb.
      - destruct Hb as (H1 & H2 & H3). split; [exact H1|].
        rewrite H2, Hc, length_app. cbn. split; lia.
      - rewrite Hc. apply Forall_app. split; [exact Hin|].
        constructor; [|constructor]. eapply nth_error_In; eauto. }
    destruct (js_eq _ _); eapply Hpush; exact H.
Qed.

Lemma initializeCentroids_shape (data : matrix) (k : nat)
      (random : random_source num) (c : nat) (seeds : matrix) (c' : nat) :
  initializeCentroids data k random c = Ok (seeds, c') ->
  length seeds = Nat.max 1 k
  /\ Forall (fun centroid => In centroid data) seeds
  /\ c' = (c + Nat.max 1 k)%nat.
Proof.
  unfold initializeCentroids, seedCentroids. intros H.
  destruct (pushRow data _ _) as [st1|e] eqn:E; [|discriminate].
  cbn [bind] in H.
  destruct (seedLoop data random (k - 1) st1 (S c)) as [[st2 c2]|e] eqn:E2;
    [|discriminate].
  cbn [bind] in H. inversion H; subst; clear H.
  destruct (pushRow_shape _ _ _ E) as (i & row & _ & Hrow & Hc & _).
  cbn in Hc.
  apply seedLoop_shape in E2.
  - destruct E2 as (H1 & H2 & H3). rewrite H2, Hc. cbn [length].
    repeat split; [lia | exact H1 | lia].
  - rewrite Hc. constructor; [|constructor]. eapply nth_error_In; eauto.
Qed.

Lemma updateCentroids_length (data : matrix) (labels : list nat) (k d : nat)
      (centroids centroids' : matrix) :
  updateCentroids data labels k d centroids = Ok centroids' ->
  length centroids' = (k + (length centroids - k))%nat.
Proof.
  unfold updateCentroids. intros H.
  destruct (accumulatePoints d _ data labels) as [[sums counts]|e];
    [|discriminate].
  cbn [bind] in H. inversion H; subst.
  rewrite length_app, length_map, length_seq, length_skipn. reflexivity.
Qed.

Lemma lloydLoop_shape (fuel : nat) (data : matrix) (k d : nat) :
  forall labels centroids changed labels' centroids',
    lloydLoop fuel data k d labels centroids changed
    = Ok (labels', centroids') ->
    Forall (fun l => l < Nat.max 1 k) labels ->
    k <= length centroids ->
    Forall (fun l => l < Nat.max 1 k) labels'
    /\ length centroids' = length centroids.
Proof.
  induction fuel as [|fuel IH]; intros ls cs ch ls' cs' H Hls Hk.
  - cbn in H. inversion H; subst. auto.
  - destruct ch; [|cbn in H; inversion H; subst; auto].
    rewrite lloydLoop_turn in H.
    destruct (lloydStep data k d ls cs) as [[[ls1 cs1] ch1]|e] eqn:E;
      [|discriminate].
    cbn [bind fst snd] in H.
    unfold lloydStep in E.
    pose proof (assignPoints_lt cs k data ls) as Hlt.
    destruct (assignPoints cs k data ls) as [ls2 ch2].
    destruct (updateCentroids data ls2 k d cs) as [cs2|e] eqn:E2;
      [|discriminate].
    cbn [bind] in E. inversion E; subst; clear E.
    apply updateCentroids_length in E2.
    apply IH in H.
    + destruct H as [H1 H2]. split; [exact H1|]. rewrite H2, E2. lia.
    + exact Hlt.
    + rewrite E2. lia.
Qed.

(** X1: every label of a K-means result is below [max 1 k], there is one label
    per row and [max 1 k] centroids, and the run consumes [max 1 k] draws. *)
Theorem kmeans_labels_below_k (x : num) (row0 : list num) (rest : matrix)
        (k maxIterations : nat) (random : random_source num) (c : nat)
        (r : KMeansResult num) (c' : nat) :
  performKMeans ((x :: row0) :: rest) k maxIterations random c = Ok (r, c') ->
  length (labels r) = S (length rest)
  /\ Forall (fun l => l < Nat.max 1 k) (labels r)
  /\ length (centroids r) = Nat.max 1 k
  /\ c' = (c + Nat.max 1 k)%nat.
Proof.
  unfold performKMeans. cbn [length Nat.eqb]. cbv zeta. intros H.
  destruct (initializeCentroids _ k random c) as [[seeds c1]|e] eqn:E;
    [|discriminate].
  cbn [bind] in H.
  destruct (lloydLoop _ _ _ _ _ _ _) as [[ls cs]|e] eqn:E2; [|discriminate].
  cbn [bind] in H. inversion H; subst; clear H. cbn [labels centroids].
  apply initializeCentroids_shape in E. destruct E as (Hlen & _ & Hc).
  pose proof (lloydLoop_labels_length _ _ _ _ _ _ _ E2) as Hn.
  apply lloydLoop_shape in E2.
  - destruct E2 as [H1 H2]. split; [|split; [exact H1|split; [lia|exact Hc]]].
    rewrite Hn; [reflexivity|]. cbn. rewrite repeat_length. reflexivity.
  - apply Forall_forall. intros l Hl. apply repeat_spec in Hl. lia.
  - lia.
Qed.

(** X2: the initial centroids are [max 1 k] rows of the data, one draw each. *)
Theorem seeds_are_rows_of_the_data (data : matrix) (k : nat)
        (random : random_source num) (c : nat) (seeds : matrix) (c' : nat) :
  initializeCentroids data k random c = Ok (seeds, c') ->
  length seeds = Nat.max 1 k
  /\ Forall (fun centroid => In centroid data) seeds
  /\ c' = (c + Nat.max 1 k)%nat.
Proof. apply initializeCentroids_shape. Qed.

Lemma accumulatePoints_no_sums (d : nat) (point : list num) (data : matrix)
      (l : nat) (labels : list nat) (counts : list nat) :
  accumulatePoints d ([], counts) (point :: data) (l :: labels)
  = Throw TypeError.
Proof.
  cbn [accumulatePoints]. unfold accumulatePoint. cbn [fst].
  destruct l; reflexivity.
Qed.

(** X3: with [k = 0] and at least one iteration allowed, K-means on a matrix
    with a non-empty first row throws: the update step finds no accumulator for
    label 0. *)
Theorem kmeans_with_k_0_throws (x : num) (row0 : list num) (rest : matrix)
        (maxIterations : nat) (random : random_source num) (c : nat) :
  performKMeans ((x :: row0) :: rest) 0 (S maxIterations) random c
  = Throw TypeError.
Proof.
  unfold performKMeans. cbn [length Nat.eqb]. cbv zeta.
  destruct (initializeCentroids _ 0 random c) as [[seeds c1]|[]] eqn:E;
    [|reflexivity].
  cbn [bind]. rewrite lloydLoop_turn. unfold lloydStep.
  cbn [repeat assignPoints].
  destruct (assignPoints seeds 0 rest (repeat 0 (length rest))) as [ls ch].
  assert (Hup : forall l ls0,
             updateCentroids ((x :: row0) :: rest) (l :: ls0) 0
                             (S (length row0)) seeds = Throw TypeError).
  { intros l ls0. unfold updateCentroids. cbn [repeat].
    rewrite accumulatePoints_no_sums. reflexivity. }
  destruct (Nat.eqb 0 _); rewrite Hup; reflexivity.
Qed.

End KMeansShape.

Section DistanceShape.

Context (num : Type) {N : Number num}.
Local Open Scope js_scope.
Local Abbreviation matrix := (Matrix num).

Lemma sumSquaredDiffs_prefix (a : list num) :
  forall b extra sum,
    length a <= length b ->
    sumSquaredDiffs a (b ++ extra) sum = sumSquaredDiffs a b sum.
Proof.
  induction a as [|x a IH]; intros b extra sum Hlen; [reflexivity|].
  destruct b as [|y b]; [cbn in Hlen; lia|].
  cbn. apply IH. cbn in Hlen. lia.
Qed.

(** X4: the distance reads only as many cells of its second argument as the
    first has: what the second row holds beyond that is ignored. *)
Theorem distance_ignores_extra_cells (a b extra : list num) :
  length a <= length b ->
  euclideanDistance a (b ++ extra) = euclideanDistance a b.
Proof.
  intros Hlen. unfold euclideanDistance.
  rewrite sumSquaredDiffs_prefix by exact Hlen. reflexivity.
Qed.

End DistanceShape.

Section UpdateTwice.

Context (num : Type) {N : Number num}.
Local Open Scope js_scope.
Local Abbreviation matrix := (Matrix num).

Lemma recentre_twice (d : nat) (old sums : list num) (count : nat) :
  recentre d (recentre d old sums count) sums count
  = recentre d old sums count.
Proof.
  unfold recentre. destruct (Nat.ltb 0 count); [|reflexivity].
  f_equal. rewrite skipn_app, length_map, length_seq, Nat.sub_diag.
  rewrite skipn_all2 by (rewrite length_map, length_seq; lia).
  reflexivity.
Qed.

Lemma updateCentroids_twice (data : matrix) (labels : list nat)
        (k d : nat) (centroids centroids' : matrix) :
  updateCentroids data labels k d centroids = Ok centroids' ->
  updateCentroids data labels k d centroids' = Ok centroids'.
Proof.
  unfold updateCentroids. intros H.
  destruct (accumulatePoints d _ data labels) as [[sums counts]|e];
    [|discriminate].
  cbn [bind] in *. inversion H as [Hc]; clear H.
  set (first := map (fun i => recentre d (nth i centroids []) (nth i sums [])
                                       (nth i counts 0)) (seq 0 k)).
  assert (Hlen : length first = k)
    by (unfold first; rewrite length_map, length_seq; reflexivity).
  f_equal. f_equal.
  - unfold first. apply map_ext_in. intros i Hi. apply in_seq in Hi.
    rewrite app_nth1 by (fold first; lia).
    rewrite (nth_map_seq
      (fun i => recentre d (nth i centroids []) (nth i sums [])
                         (nth i counts 0)))
      by lia.
    apply recentre_twice.
  - rewrite skipn_app. fold first. rewrite Hlen, Nat.sub_diag.
    rewrite skipn_all2 by lia. reflexivity.
Qed.

(** X5: the update step is idempotent: run again with the same labels on the
    centroids it returned, it returns them unchanged. *)
Theorem update_twice_is_update_once (data : matrix) (labels : list nat)
        (k d : nat) (centroids centroids' : matrix) :
  updateCentroids data labels k d centroids = Ok centroids' ->
  updateCentroids data labels k d centroids' = Ok centroids'.
Proof. apply updateCentroids_twice. Qed.

End UpdateTwice.

Section SweepShape.

Context (num : Type) {N : Number num}.
Local Open Scope js_scope.
Local Abbreviation matrix := (Matrix num).

Lemma sweep_length (data : matrix) (m : method) (random : random_source num) :
  forall ks scores c scores' c',
    sweep data m random ks scores c = Ok (scores', c') ->
    length scores' = (length scores + length ks)%nat.
Proof.
  induction ks as [|k ks IH]; intros scores c scores' c' H.
  - cbn in H. inversion H; subst. cbn. lia.
  - cbn [sweep] in H.
    destruct (performKMeans data k defaultMaxIterations random c)
      as [[r c1]|e]; [|discriminate].
    cbn [bind] in H. apply IH in H. rewrite H, length_app.
    clear H. cbn [length]. lia.
Qed.

Lemma argMax_lt (l : list num) : argMax l < Nat.max 1 (length l).
Proof.
  unfold argMax. apply fold_left_index_bound.
  - intros best j. destruct (js_lt _ _); auto.
  - eapply Forall_impl; [|apply Forall_seq_lt]. cbv beta. intros; lia.
  - cbn [snd]. lia.
Qed.

(** X6: [findOptimalK] returns one score for each [k] from 2 to [maxK]. The
    recommendation is at least 2; by silhouette it is at most [maxK], by the
    elbow at most [maxK - 2] (a bound below 2 reads as 2). *)
Theorem findOptimalK_recommends_in_range (data : matrix) (maxK : nat)
        (m : method) (random : random_source num) (c : nat)
        (found : OptimalK num) (c' : nat) :
  findOptimalK data maxK m random c = Ok (found, c') ->
  length (scores found) = (maxK - 1)%nat
  /\ 2 <= recommendedK found
  /\ recommendedK found
     <= Nat.max 2 (match m with Elbow => maxK - 2 | Silhouette => maxK end).
Proof.
  unfold findOptimalK. intros H.
  destruct (sweep data m random (seq 2 (maxK - 1)) [] c) as [[ss c1]|e] eqn:E;
    [|discriminate].
  cbn [bind] in H. inversion H; subst; clear H. cbn [scores recommendedK].
  apply sweep_length in E. rewrite length_seq in E. cbn [length] in E.
  split; [lia|]. unfold recommend. destruct m.
  - pose proof (argMax_lt (differences (differences ss))) as Hlt.
    rewrite !differences_length in Hlt. lia.
  - pose proof (argMax_lt ss) as Hlt. lia.
Qed.

End SweepShape.

(** ** PCA: the shape of the result *)

Section PCAShape.

Context (num : Type) {N : Number num}.
Local Open Scope js_scope.
Local Abbreviation matrix := (Matrix num).

Lemma powerStep_length (n : nat) (m : matrix) (v : list num) :
  length (powerStep n m v) = n.
Proof.
  unfold powerStep, normalize, matVec.
  rewrite !length_map, length_seq. reflexivity.
Qed.

Lemma iterate_succ {A : Type} (f : A -> A) (t : nat) (x : A) :
  iterate f (S t) x = f (iterate f t x).
Proof.
  revert x. induction t as [|t IH]; intros x; [reflexivity|].
  change (iterate f (S (S t)) x) with (iterate f (S t) (f x)).
  rewrite IH. reflexivity.
Qed.

Lemma eigenLoop_vectors (n : nat) (random : random_source num) :
  forall todo m acc c,
    Forall (fun v => length v = n) (eigenvectors acc) ->
    Forall (fun v => length v = n)
           (eigenvectors (fst (eigenLoop n random todo m acc c))).
Proof.
  induction todo as [|todo IH]; intros m acc c Hacc; [exact Hacc|].
  cbn [eigenLoop]. cbv zeta. apply IH. cbn [eigenvectors].
  apply Forall_app. split; [exact Hacc|]. constructor; [|constructor].
  unfold powerIterations. rewrite iterate_succ. apply powerStep_length.
Qed.

Lemma eigenPairsOf_indices (evs : list num) :
  Forall (fun pair : num * nat => snd pair < length evs) (eigenPairsOf evs).
Proof.
  apply Forall_forall. intros [v i] Hin.
  unfold eigenPairsOf in Hin.
  apply (Permutation_in _ (sortBy_perm _ _)) in Hin.
  apply in_combine_r in Hin. apply in_seq in Hin. cbn. lia.
Qed.

(** X7: on a matrix whose first row has [d >= 1] cells, PCA returns one
    projected row per input row, each of [min k d] coordinates, and components
    of [d] coordinates each, [k] being the number of components asked for. *)
Theorem pca_result_shape (x : num) (row0 : list num) (rest : matrix)
        (numComponents : option nat) (random : random_source num) (c : nat) :
  let data := (x :: row0) :: rest in
  let d := length (x :: row0) in
  let returned := fst (performPCA data numComponents random c) in
  let k := keptComponents numComponents d in
  length (projectedData returned) = length data
  /\ Forall (fun row => length row = Nat.min k d) (projectedData returned)
  /\ Forall (fun component => length component = d) (components returned).
Proof.
  cbv zeta. unfold performPCA. cbn [length Nat.eqb]. cbv zeta.
  pose proof (pcaEigen_counts (S (length row0)) ((x :: row0) :: rest) random c)
    as (Hvals & Hvecs & _).
  assert (Hrows : Forall (fun v => length v = S (length row0))
                    (eigenvectors (fst (pcaEigen (S (length row0))
                                          ((x :: row0) :: rest) random c)))).
  { unfold pcaEigen, computeEigenvectors.
    assert (Hn : length (covarianceMatrix
                           (S (length row0))
                           (pcaCentered (S (length row0))
                                        ((x :: row0) :: rest)))
                 = S (length row0))
      by (unfold covarianceMatrix; rewrite length_map, length_seq; reflexivity).
    rewrite Hn. apply eigenLoop_vectors. constructor. }
  destruct (pcaEigen (S (length row0)) ((x :: row0) :: rest) random c)
    as [eigenResults c1].
  cbn [fst] in *. cbn [projectedData components fst].
  set (pairs := eigenPairsOf (eigenvalues eigenResults)).
  set (k := keptComponents numComponents (S (length row0))).
  assert (Hcomps : length (map (fun pair : num * nat =>
                                  nth (snd pair) (eigenvectors eigenResults) [])
                               (firstn k pairs))
                   = Nat.min k (S (length row0))).
  { rewrite length_map, length_firstn. unfold pairs.
    rewrite eigenPairsOf_length, Hvals. reflexivity. }
  split; [|split].
  - unfold pcaCentered, centre. rewrite !length_map. reflexivity.
  - apply Forall_forall. intros row Hin. apply in_map_iff in Hin.
    destruct Hin as (row' & <- & _). rewrite length_map. exact Hcomps.
  - apply Forall_forall. intros comp Hin. apply in_map_iff in Hin.
    destruct Hin as ([v i] & <- & Hin). cbn [snd].
    apply In_firstn in Hin.
    pose proof (eigenPairsOf_indices (eigenvalues eigenResults)) as Hidx.
    rewrite Forall_forall in Hidx. specialize (Hidx _ Hin). cbn in Hidx.
    rewrite Forall_forall in Hrows. apply Hrows. apply nth_In.
    rewrite Hvecs. rewrite Hvals in Hidx. exact Hidx.
Qed.

End PCAShape.

(** *** The order of the eigenpairs *)

Section PCAOrder.

Context (num : Type) {N : Number num}.
Local Open Scope js_scope.
Local Abbreviation matrix := (Matrix num).

Lemma combine_seq_at (evs : list num) :
  forall start p,
    In p (combine evs (seq start (length evs))) ->
    (start <= snd p < start + length evs)%nat
    /\ at_ evs (snd p - start) = fst p.
Proof.
  induction evs as [|ev evs IH]; intros start p Hin; [destruct Hin|].
  cbn [length seq combine] in Hin. destruct Hin as [<-|Hin].
  - cbn [fst snd length]. rewrite Nat.sub_diag. split; [lia|reflexivity].
  - apply IH in Hin. destruct Hin as [Hr Hn]. cbn [length]. split; [lia|].
    replace (snd p - start)%nat with (S (snd p - S start)) by lia.
    exact Hn.
Qed.

(** The sorted pairs are the eigenvalues with their indices, each index
    once. *)
Lemma eigenPairsOf_order (evs : list num) :
  exists order : list nat,
    Permutation order (seq 0 (length evs))
    /\ eigenPairsOf evs = map (fun i => (at_ evs i, i)) order.
Proof.
  exists (map snd (eigenPairsOf evs)).
  assert (Hperm : Permutation (eigenPairsOf evs)
                              (combine evs (seq 0 (length evs))))
    by apply sortBy_perm.
  split.
  - rewrite (Permutation_map snd Hperm).
    rewrite map_snd_combine by (rewrite length_seq; reflexivity).
    reflexivity.
  - rewrite map_map.
    transitivity (map (fun pair : num * nat => pair) (eigenPairsOf evs));
      [symmetry; apply map_id|].
    apply map_ext_in. intros [ev i] Hin.
    apply (Permutation_in _ Hperm) in Hin.
    apply combine_seq_at in Hin. cbn [fst snd] in *.
    rewrite Nat.sub_0_r in Hin. destruct Hin as [_ <-]. reflexivity.
Qed.

(** What [performPCA] returns follows one order of the [d] eigenpairs. *)
Lemma performPCA_order (x : num) (row0 : list num) (rest : matrix)
      (numComponents : option nat) (random : random_source num) (c : nat) :
  let data := (x :: row0) :: rest in
  let d := length (x :: row0) in
  let k := keptComponents numComponents d in
  let extracted := fst (pcaEigen d data random c) in
  let returned := fst (performPCA data numComponents random c) in
  exists order : list nat,
    Permutation order (seq 0 d)
    /\ explainedVariance returned
       = map (fun i =>
                at_ (eigenvalues extracted) i
                / sum_list (map (at_ (eigenvalues extracted)) order))
             (firstn k order)
    /\ components returned
       = map (fun i => nth i (eigenvectors extracted) []) (firstn k order)
    /\ projectedData returned
       = map (fun row => map (dot d row) (components returned))
             (pcaCentered d data).
Proof.
  cbv zeta.
  pose proof (pcaEigen_counts (length (x :: row0)) ((x :: row0) :: rest)
                              random c) as (Hv & _).
  unfold performPCA. cbn [length Nat.eqb] in *. cbv zeta.
  destruct (pcaEigen (S (length row0)) ((x :: row0) :: rest) random c)
    as [eig c']. cbn [fst explainedVariance components projectedData] in *.
  destruct (eigenPairsOf_order (eigenvalues eig)) as (order & Hperm & ->).
  rewrite Hv in Hperm. exists order.
  split; [exact Hperm|]. split; [|split].
  - rewrite <- (fold_left_map_arg js_add fst), !map_map. cbn [fst].
    rewrite firstn_map. reflexivity.
  - rewrite firstn_map, map_map. reflexivity.
  - reflexivity.
Qed.


(** X13: the result of PCA follows one list of [min k d] distinct eigenpair
    indices: component [i] is the eigenvector, and ratio [i] the eigenvalue
    over one total, of the [i]-th index; a projected row holds the products of
    the centred row with these eigenvectors, in that order. *)
Theorem components_follow_the_ratios (x : num) (row0 : list num)
        (rest : matrix) (numComponents : option nat)
        (random : random_source num) (c : nat) :
  let data := (x :: row0) :: rest in
  let d := length (x :: row0) in
  let k := keptComponents numComponents d in
  let extracted := fst (pcaEigen d data random c) in
  let returned := fst (performPCA data numComponents random c) in
  exists (order : list nat) (total : num),
    length order = Nat.min k d
    /\ NoDup order
    /\ Forall (fun i => (i < d)%nat) order
    /\ components returned
       = map (fun i => nth i (eigenvectors extracted) []) order
    /\ explainedVariance returned
       = map (fun i => at_ (eigenvalues extracted) i / total) order
    /\ projectedData returned
       = map (fun row =>
                map (fun i => dot d row (nth i (eigenvectors extracted) []))
                    order)
             (pcaCentered d data).
Proof.
  cbv zeta.
  destruct (performPCA_order x row0 rest numComponents random c)
    as (order & Hperm & Hratios & Hcomps & Hproj). cbv zeta in *.
  set (k := keptComponents numComponents (length (x :: row0))) in *.
  exists (firstn k order),
         (sum_list (map (at_ (eigenvalues
                                (fst (pcaEigen (length (x :: row0))
                                               ((x :: row0) :: rest)
                                               random c))))
                        order)).
  split; [|split; [|split; [|split; [|split]]]].
  - rewrite length_firstn, (Permutation_length Hperm), length_seq.
    reflexivity.
  - apply firstn_nodup.
    apply (Permutation_NoDup (Permutation_sym Hperm)), seq_NoDup.
  - apply Forall_forall. intros i Hi. apply In_firstn in Hi.
    apply (Permutation_in _ Hperm), in_seq in Hi. lia.
  - exact Hcomps.
  - exact Hratios.
  - rewrite Hproj, Hcomps. apply map_ext. intros row.
    rewrite map_map. reflexivity.
Qed.

End PCAOrder.


Section Convergence.

Context (num : Type) {N : Number num}.
Local Open Scope js_scope.
Local Abbreviation matrix := (Matrix num).

Lemma assignPoints_unchanged (centroids : matrix) (k : nat) (data : matrix) :
  forall labels,
    length labels = length data ->
    snd (assignPoints centroids k data labels) = false ->
    fst (assignPoints centroids k data labels) = labels
    /\ Forall2 (fun point l => l = nearestCentroid centroids k point)
               data labels.
Proof.
  induction data as [|point data IH]; intros [|l labels] Hlen Hsame;
    try discriminate.
  - split; [reflexivity|constructor].
  - cbn [assignPoints] in *. cbv zeta in *.
    destruct (assignPoints centroids k data labels) as [ls changed] eqn:E.
    destruct (Nat.eqb l (nearestCentroid centroids k point)) eqn:El;
      cbn [fst snd] in *; [|discriminate].
    apply Nat.eqb_eq in El.
    destruct (IH labels) as [H1 H2]; [cbn in Hlen; lia|rewrite E; exact Hsame|].
    rewrite E in H1. cbn [fst] in H1. subst ls.
    split; [reflexivity|]. constructor; assumption.
Qed.

(** X8: when a turn of the loop that follows another changes no label, the
    state is a fixed point: the turn returns the labels and the centroids it
    was given, and every label is the nearest centroid of its point among the
    centroids returned. *)
Theorem second_quiet_turn_is_a_fixed_point (data : matrix) (k d : nat)
        (labels0 : list nat) (centroids0 : matrix)
        (labels1 : list nat) (centroids1 : matrix) (changed1 : bool)
        (labels2 : list nat) (centroids2 : matrix) :
  length labels0 = length data ->
  lloydStep data k d labels0 centroids0 = Ok (labels1, centroids1, changed1) ->
  lloydStep data k d labels1 centroids1 = Ok (labels2, centroids2, false) ->
  labels2 = labels1
  /\ centroids2 = centroids1
  /\ Forall2 (fun point l => l = nearestCentroid centroids2 k point)
             data labels2.
Proof.
  intros Hlen H1 H2. unfold lloydStep in H1, H2.
  pose proof (assignPoints_length centroids0 k data labels0 Hlen) as Hlen1.
  destruct (assignPoints centroids0 k data labels0) as [ls1 ch1].
  destruct (updateCentroids data ls1 k d centroids0) as [cs1|e] eqn:E1;
    [|discriminate].
  cbn [bind] in H1. inversion H1; subst; clear H1. cbn [fst] in Hlen1.
  pose proof (assignPoints_unchanged centroids1 k data labels1 Hlen1) as Hsame.
  destruct (assignPoints centroids1 k data labels1) as [ls2 ch2].
  destruct (updateCentroids data ls2 k d centroids1) as [cs2|e] eqn:E2;
    [|discriminate].
  cbn [bind] in H2. inversion H2; subst; clear H2.
  destruct (Hsame eq_refl) as [Hls Hnear]. cbn [fst] in Hls. subst labels2.
  apply updateCentroids_twice in E1.
  rewrite E1 in E2. inversion E2; subst. auto.
Qed.

End Convergence.


(** ** Silhouette: a point alone in its cluster *)

Section LonePoint.

Context (num : Type) {N : Number num}.
Local Open Scope js_scope.
Local Abbreviation matrix := (Matrix num).

Lemma distancesTo_none (data : matrix) (i : nat) (member : nat -> bool) :
  (forall j, j < length data -> member j = false) ->
  distancesTo data i member = (js_zero, 0).
Proof.
  intros H. unfold distancesTo.
  rewrite (@fold_left_ext_in _ _ _ (fun (acc : num * nat) _ => acc)).
  - induction (seq 0 (length data)) as [|j l IH]; [reflexivity|exact IH].
  - intros acc j Hj. apply in_seq in Hj. rewrite H by lia. reflexivity.
Qed.

Lemma intraCluster_alone (data : matrix) (labels : list nat) (i : nat) :
  (forall j, j < length data -> j <> i ->
             sameLabel (nth_error labels j) (nth_error labels i) = false) ->
  intraCluster data labels i = js_zero.
Proof.
  intros H. unfold intraCluster. cbv zeta.
  rewrite distancesTo_none; [reflexivity|].
  intros j Hj. destruct (Nat.eqb i j) eqn:E; [reflexivity|].
  apply Nat.eqb_neq in E. cbn [negb andb]. apply H; [exact Hj|congruence].
Qed.

End LonePoint.

Module LonePointExact.

Import Exact ExactVocabulary ExactFacts.
Local Open Scope R_scope.

(** X9: in exact arithmetic, a point that is alone in its cluster has
    silhouette 1, or 0 when its distance to the other clusters is 0 too,
    whatever the matrix holds. *)
Theorem lone_point_has_silhouette_1_or_0 (data : Matrix xreal)
        (labels : list nat) (i : nat) :
  (forall j, (j < length data)%nat -> j <> i ->
             sameLabel (nth_error labels j) (nth_error labels i) = false) ->
  pointSilhouette data labels i
  = if js_eq (interCluster data labels i) js_zero then Fin 0 else Fin 1.
Proof.
  intros H. unfold pointSilhouette. rewrite intraCluster_alone by exact H.
  unfold silhouetteOf.
  assert (Hzero : js_eq (js_zero : xreal) js_zero = true)
    by (cbn; apply Reqb_true; reflexivity).
  rewrite Hzero. cbn [andb].
  destruct (js_eq (interCluster data labels i) js_zero); reflexivity.
Qed.

End LonePointExact.

(** ** Exact arithmetic: distances and assignment *)

Module DistanceExact.

Import Exact ExactVocabulary ExactFacts StandardizeFacts SumsExact SeedingExact.
Local Open Scope R_scope.

Lemma sumSquaredDiffs_nan (a : list xreal) :
  forall b, sumSquaredDiffs a b NaN = NaN.
Proof.
  induction a as [|x a IH]; intros b; [reflexivity|].
  cbn [sumSquaredDiffs]. cbv zeta. apply IH.
Qed.

Lemma sumSquaredDiffs_short (a : list xreal) :
  forall b sum,
    (length b < length a)%nat -> sumSquaredDiffs a b sum = NaN.
Proof.
  induction a as [|x a IH]; intros b sum Hlen; [cbn in Hlen; lia|].
  destruct b as [|y b].
  - cbn [sumSquaredDiffs hd tl]. cbv zeta.
    replace (js_add sum (js_mul (js_sub x js_nan) (js_sub x js_nan)))
      with NaN by (destruct x, sum; reflexivity).
    apply sumSquaredDiffs_nan.
  - cbn [sumSquaredDiffs hd tl]. cbv zeta. apply IH. cbn in Hlen. lia.
Qed.

(** X11: in exact arithmetic, the distance from a row to a shorter one is NaN,
    whatever the rows hold: a cell the second row lacks reads as [undefined].
    *)
Theorem distance_to_shorter_row_is_nan (a b : list xreal) :
  (length b < length a)%nat -> euclideanDistance a b = NaN.
Proof.
  intros Hlen. unfold euclideanDistance.
  rewrite sumSquaredDiffs_short by exact Hlen. reflexivity.
Qed.

End DistanceExact.

Module AssignmentExact.

Import Exact ExactVocabulary ExactFacts StandardizeFacts SumsExact SeedingExact.
Local Open Scope R_scope.

(** The scan of [nearestCentroid] over distances that are the reals [e 0],
    [e 1], ...: after [t] of them it holds the first least one. *)
Lemma nearest_scan (e : nat -> R) (t : nat) :
  let best :=
    fold_left (fun (best : xreal * nat) j =>
                 if js_lt (Fin (e j)) (fst best) then (Fin (e j), j) else best)
              (seq 0 t) (PInf, 0%nat) in
  match t with
  | O => best = (PInf, 0%nat)
  | S _ =>
      fst best = Fin (e (snd best))
      /\ (snd best < t)%nat
      /\ (forall j, (j < t)%nat -> e (snd best) <= e j)
      /\ (forall j, (j < snd best)%nat -> e (snd best) < e j)
  end.
Proof.
  induction t as [|t IH]; [reflexivity|].
  cbv zeta in *. rewrite seq_S, fold_left_app. cbn [fold_left Nat.add].
  destruct t as [|t'].
  - cbn [seq fold_left] in *. cbn [fst js_lt xreal_Number xlt snd].
    repeat split; try lia.
    intros j Hj. replace j with 0%nat by lia. lra.
  - set (best := fold_left _ (seq 0 (S t')) _) in *.
    destruct IH as (Hfst & Hlt & Hmin & Hfirst).
    rewrite Hfst. cbn [js_lt xreal_Number xlt].
    unfold Rltb. destruct (Rlt_dec (e (S t')) (e (snd best))) as [Hc|Hc].
    + cbn [fst snd]. repeat split; try lia.
      * intros j Hj. destruct (Nat.eq_dec j (S t')) as [->|Hne]; [lra|].
        specialize (Hmin j ltac:(lia)). lra.
      * intros j Hj. specialize (Hmin j Hj). lra.
    + rewrite Hfst. repeat split; try lia.
      * intros j Hj. destruct (Nat.eq_dec j (S t')) as [->|Hne]; [lra|].
        apply Hmin. lia.
      * exact Hfirst.
Qed.

(** X12: in exact arithmetic, on real points and centroids of one dimension,
    the assignment picks a centroid no other of the first [k] is strictly
    closer than, and every centroid before it is strictly farther: ties go to
    the lowest index. *)
Theorem assignment_picks_first_nearest (d : nat) (p : list R)
        (cs : list (list R)) (k : nat) :
  length p = d -> rectangular d cs -> (1 <= k <= length cs)%nat ->
  let dist := fun j => euclideanDistance (map Fin p) (nth j (inject cs) []) in
  let m := nearestCentroid (inject cs) k (map Fin p) in
  (m < k)%nat
  /\ (forall j, (j < k)%nat -> js_lt (dist j) (dist m) = false)
  /\ (forall j, (j < m)%nat -> js_lt (dist m) (dist j) = true).
Proof.
  intros Hp Hrect Hk. cbv zeta.
  set (e := fun j => sqrt (0 + squaredDistance p (nth j cs []))).
  assert (Hdist : forall j, (j < length cs)%nat ->
             euclideanDistance (map Fin p) (nth j (inject cs) []) = Fin (e j)).
  { intros j Hj. rewrite nth_inject. apply euclideanDistance_exact.
    rewrite Hp. symmetry. apply rectangular_nth; assumption. }
  unfold nearestCentroid.
  rewrite (@fold_left_ext_in _ _ _
             (fun (best : xreal * nat) j =>
                if js_lt (Fin (e j)) (fst best) then (Fin (e j), j) else best)).
  2:{ intros acc j Hj. apply in_seq in Hj. cbv zeta.
      rewrite Hdist by lia. reflexivity. }
  pose proof (nearest_scan e k) as Hscan. cbv zeta in Hscan.
  destruct k as [|k']; [lia|].
  set (best := fold_left _ (seq 0 (S k')) _) in *.
  destruct Hscan as (_ & Hlt & Hmin & Hfirst).
  split; [exact Hlt|]. split.
  - intros j Hj. rewrite !Hdist by lia. cbn [js_lt xreal_Number xlt].
    apply Rltb_false. apply Hmin. exact Hj.
  - intros j Hj. rewrite !Hdist by lia. cbn [js_lt xreal_Number xlt].
    apply Rltb_true. apply Hfirst. exact Hj.
Qed.

End AssignmentExact.




(** ** Imputation: what it fills and what it leaves *)

Section ImputationMore.

Context (num : Type) {N : Number num}.
Variable number_to_string : num -> string.
Variable string_to_number : string -> num.

Local Abbreviation passenger := (passenger num).
Local Abbreviation value := (value num).

Section FillPassMore.

Variable test : value -> bool.
Variable fill : string -> value.

Lemma fillPass_kept (feature : string) (features : list string) :
  forall p, test (get p feature) = false ->
            get (fold_left (fillStep test fill) features p) feature
            = get p feature.
Proof.
  induction features as [|g features IH]; intros p Hp; [reflexivity|].
  cbn [fold_left]. rewrite IH.
  - unfold fillStep. destruct (test (get p g)) eqn:E; [|reflexivity].
    apply get_assign_other. intros ->. congruence.
  - unfold fillStep. destruct (test (get p g)) eqn:E; [|exact Hp].
    rewrite get_assign_other by (intros ->; congruence). exact Hp.
Qed.

Lemma fillPass_present (feature : string) (features : list string) :
  (forall g, isMissing (fill g) = false) ->
  forall p, isMissing (get p feature) = false ->
            isMissing (get (fold_left (fillStep test fill) features p) feature)
            = false.
Proof.
  intros Hfill. induction features as [|g features IH]; intros p Hp;
    [exact Hp|].
  cbn [fold_left]. apply IH. unfold fillStep.
  destruct (test (get p g)); [|exact Hp].
  destruct (string_dec g feature) as [->|Hne].
  - rewrite get_assign_same. apply Hfill.
  - rewrite get_assign_other by exact Hne. exact Hp.
Qed.

End FillPassMore.

Lemma medianOf_present (data : list passenger) (feature : string) :
  isMissing (medianOf number_to_string string_to_number data feature) = false.
Proof.
  unfold medianOf.
  set (valid := filter _ _).
  destruct (Nat.ltb 0 (length valid)) eqn:Hlen; [|reflexivity].
  apply Nat.ltb_lt in Hlen.
  set (sorted := sortBy _ valid).
  assert (Hperm : Permutation sorted valid) by apply sortBy_perm.
  destruct (Nat.eqb _ 0); [reflexivity|].
  assert (Hin : In (nth (Nat.div (length sorted) 2) sorted VUndefined) valid).
  { apply (Permutation_in _ Hperm). apply nth_In.
    apply Nat.div_lt; [|lia]. rewrite (Permutation_length Hperm). exact Hlen. }
  unfold valid in Hin. apply filter_In in Hin. destruct Hin as [_ Hin].
  apply negb_true_iff in Hin. exact Hin.
Qed.

Lemma blank_of_missing (v : value) : isMissing v = true -> isBlank v = true.
Proof. destruct v; cbn; congruence. Qed.

(** X16: after imputation no record has [null] or [undefined] in a column that
    [identifyFeatureTypes] lists, numerical or categorical. *)
Theorem imputation_leaves_no_missing_cell (data : list passenger)
        (feature : string) (p' : passenger) :
  let types := identifyFeatureTypes data in
  In feature (numericalFeatures types ++ categoricalFeatures types) ->
  In p' (imputeMissingValues number_to_string string_to_number data) ->
  isMissing (get p' feature) = false.
Proof.
  cbv zeta. intros Hf Hp'. unfold imputeMissingValues in Hp'.
  apply in_map_iff in Hp'. destruct Hp' as (p & <- & _).
  unfold imputePassenger.
  set (types := identifyFeatureTypes data) in *.
  change (imputeCategorical number_to_string data)
    with (fillStep (@isBlank num)
            (fun g => VString (modeOf number_to_string data g))).
  change (imputeNumerical number_to_string string_to_number data)
    with (fillStep (@isMissing num)
            (medianOf number_to_string string_to_number data)).
  set (q := fold_left (fillStep _ (medianOf _ _ data))
                      (numericalFeatures types) p).
  assert (Hcat : forall g : string,
             isMissing (VString (num := num) (modeOf number_to_string data g))
             = false) by reflexivity.
  apply in_app_or in Hf. destruct Hf as [Hnum|Hc].
  - apply fillPass_present; [exact Hcat|].
    unfold q. destruct (isMissing (get p feature)) eqn:E.
    + rewrite fillPass_fills by assumption. apply medianOf_present.
    + apply fillPass_present; [apply medianOf_present|exact E].
  - destruct (isBlank (get q feature)) eqn:E.
    + rewrite fillPass_fills by assumption. reflexivity.
    + apply fillPass_present; [exact Hcat|].
      destruct (isMissing (get q feature)) eqn:E'; [|reflexivity].
      apply blank_of_missing in E'. congruence.
Qed.

(** X17: imputation only fills: a cell that is not blank ([null], [undefined]
    or the empty string) keeps its value, and so does every cell of a column
    that is in neither list of features. *)
Theorem imputation_only_fills (data : list passenger) (i : nat)
        (p : passenger) :
  let types := identifyFeatureTypes data in
  nth_error data i = Some p ->
  exists p',
    nth_error (imputeMissingValues number_to_string string_to_number data) i
    = Some p'
    /\ (forall feature, isBlank (get p feature) = false ->
                        get p' feature = get p feature)
    /\ (forall feature,
           ~ In feature (numericalFeatures types
                         ++ categoricalFeatures types) ->
           get p' feature = get p feature).
Proof.
  cbv zeta. intros Hp. unfold imputeMissingValues.
  rewrite nth_error_map, Hp. cbn [option_map].
  eexists. split; [reflexivity|].
  unfold imputePassenger.
  set (types := identifyFeatureTypes data).
  change (imputeCategorical number_to_string data)
    with (fillStep (@isBlank num)
            (fun g => VString (modeOf number_to_string data g))).
  change (imputeNumerical number_to_string string_to_number data)
    with (fillStep (@isMissing num)
            (medianOf number_to_string string_to_number data)).
  split.
  - intros feature Hb.
    assert (Hm : isMissing (get p feature) = false).
    { destruct (isMissing (get p feature)) eqn:E; [|reflexivity].
      apply blank_of_missing in E. congruence. }
    assert (Hq : get (fold_left (fillStep (@isMissing num)
                                   (medianOf number_to_string string_to_number
                                             data))
                                (numericalFeatures types) p) feature
                 = get p feature) by (apply fillPass_kept; exact Hm).
    rewrite fillPass_kept; [exact Hq|]. rewrite Hq. exact Hb.
  - intros feature Hnot.
    rewrite fillPass_other by (intros H; apply Hnot, in_or_app; right; exact H).
    apply fillPass_other. intros H. apply Hnot, in_or_app. left. exact H.
Qed.

(** X20: the median of a column is taken from its cells: it is 0 when no cell
    of the column holds a value; with an odd number of such cells it is one of
    them; with an even number it is half of what [+] makes of two of them. *)
Theorem median_is_taken_from_the_column (data : list passenger)
        (feature : string) :
  let validValues :=
    filter (fun v => negb (isMissing v)) (map (fun p => get p feature) data) in
  let median := medianOf number_to_string string_to_number data feature in
  (validValues = [] -> median = VNumber js_zero)
  /\ (Nat.modulo (length validValues) 2 = 1 -> In median validValues)
  /\ (validValues <> [] -> Nat.modulo (length validValues) 2 = 0 ->
      exists u v,
        In u validValues /\ In v validValues
        /\ median
           = VNumber (js_div (toNumber string_to_number
                                       (plus number_to_string u v))
                             (of_nat 2))).
Proof.
  cbv zeta. unfold medianOf.
  set (valid := filter _ _).
  set (sorted := sortBy _ valid).
  assert (Hperm : Permutation sorted valid) by apply sortBy_perm.
  assert (Hlen : length sorted = length valid)
    by (apply Permutation_length; exact Hperm).
  assert (Hnth : forall i, i < length valid ->
                           In (nth i sorted VUndefined) valid).
  { intros i Hi. apply (Permutation_in _ Hperm). apply nth_In.
    rewrite Hlen. exact Hi. }
  split; [|split].
  - intros Hnil. rewrite Hnil. reflexivity.
  - intros Hodd.
    assert (Hpos : 0 < length valid) by (destruct valid; [discriminate|cbn; lia]).
    apply Nat.ltb_lt in Hpos. rewrite Hpos. apply Nat.ltb_lt in Hpos.
    rewrite Hlen, Hodd. cbn [Nat.eqb].
    apply Hnth. apply Nat.div_lt; lia.
  - intros Hne Heven.
    assert (Hpos : 0 < length valid)
      by (destruct valid; [contradiction|cbn; lia]).
    assert (Htwo : 2 <= length valid).
    { destruct valid as [|u [|v rest]]; [contradiction|discriminate|].
      cbn [length]. lia. }
    apply Nat.ltb_lt in Hpos. rewrite Hpos. apply Nat.ltb_lt in Hpos.
    rewrite Hlen, Heven. cbn [Nat.eqb].
    exists (nth (Nat.div (length valid) 2 - 1) sorted VUndefined),
           (nth (Nat.div (length valid) 2) sorted VUndefined).
    assert (Hmid : Nat.div (length valid) 2 < length valid)
      by (apply Nat.div_lt; lia).
    split; [apply Hnth; lia|]. split; [apply Hnth; exact Hmid|reflexivity].
Qed.

End ImputationMore.

Section FeatureTypesFacts.

Context (num : Type) {N : Number num}.

Local Abbreviation passenger := (passenger num).

(** X18: the columns [identifyFeatureTypes] lists are keys of the first record
    that are not excluded, and none is in both lists. *)
Theorem features_are_unexcluded_keys (data : list passenger)
        (feature : string) :
  let types := identifyFeatureTypes data in
  (In feature (numericalFeatures types ++ categoricalFeatures types) ->
   excluded feature = false
   /\ exists samplePassenger rest,
        data = samplePassenger :: rest
        /\ In feature (ownKeys samplePassenger))
  /\ ~ (In feature (numericalFeatures types)
        /\ In feature (categoricalFeatures types)).
Proof.
  cbv zeta. unfold identifyFeatureTypes.
  destruct data as [|samplePassenger rest].
  - cbn. split; [intros []|intros [[] _]].
  - destruct (classify_lists (fun _ : num => EmptyString) (fun _ => js_zero)
                samplePassenger feature (ownKeys samplePassenger)
                {| numericalFeatures := []; categoricalFeatures := [] |})
      as [Hnum Hcat].
    cbv zeta in Hnum, Hcat.
    cbn [numericalFeatures categoricalFeatures In] in Hnum, Hcat.
    split.
    + intros Hin. apply in_app_or in Hin.
      assert (Hk : In feature (ownKeys samplePassenger)
                   /\ excluded feature = false).
      { destruct Hin as [H|H]; [apply Hnum in H|apply Hcat in H];
          destruct H as [[]|(H1 & H2 & _)]; auto. }
      split; [tauto|]. exists samplePassenger, rest. tauto.
    + intros [H1 H2]. apply Hnum in H1. apply Hcat in H2.
      destruct H1 as [[]|(_ & _ & H1)], H2 as [[]|(_ & _ & H2)]. congruence.
Qed.

End FeatureTypesFacts.

Section KeysFacts.

Context {V : Type}.

Lemma lookup_in_keys (key : string) (o : object V) (v : V) :
  lookup key o = Some v -> In key (map fst o).
Proof.
  induction o as [|[k w] o IH]; [discriminate|].
  cbn [lookup map fst]. destruct (String.eqb k key) eqn:E.
  - apply String.eqb_eq in E. intros _. left. exact E.
  - intros H. right. apply IH. exact H.
Qed.

Lemma insertIndex_in (x y : N * string) (sorted : list (N * string)) :
  In x sorted \/ x = y -> In x (insertIndex y sorted).
Proof.
  induction sorted as [|z rest IH]; intros H.
  - destruct H as [[] | ->]. left. reflexivity.
  - cbn [insertIndex]. destruct (N.ltb (fst y) (fst z)).
    + destruct H as [H | ->]; [right; exact H|left; reflexivity].
    + destruct H as [[-> | H] | H]; [left; reflexivity| |];
        right; apply IH; auto.
Qed.

Lemma ownKeys_complete (key : string) (o : object V) :
  In key (map fst o) -> In key (ownKeys o).
Proof.
  unfold ownKeys. intros Hin. apply in_or_app.
  destruct (arrayIndex key) as [n|] eqn:E.
  - left. apply in_map_iff. exists (n, key). split; [reflexivity|].
    induction (map fst o) as [|k keys IH]; [destruct Hin|].
    cbn [flat_map]. destruct Hin as [->|Hin].
    + rewrite E. cbn [app fold_right]. apply insertIndex_in. right. reflexivity.
    + destruct (arrayIndex k); cbn [app fold_right]; [|apply IH; exact Hin].
      apply insertIndex_in. left. apply IH. exact Hin.
  - right. apply filter_In. split; [exact Hin|]. rewrite E. reflexivity.
Qed.

End KeysFacts.

Section ModeFacts.

Context (num : Type) {N : Number num}.
Variable number_to_string : num -> string.

Local Abbreviation passenger := (passenger num).
Local Abbreviation value := (value num).

Lemma countValue_counted (valueCounts : object tally) (v : value) :
  counted valueCounts -> counted (countValue number_to_string valueCounts v).
Proof.
  intros Hc. unfold countValue. destruct (isBlank v); [exact Hc|].
  set (k := toString number_to_string v).
  assert (Hassign : forall t,
             match t with
             | Tally _ => inherited k = false
             | Garbled => inherited k = true
             end ->
             counted (assign k t valueCounts)).
  { intros t Ht key. destruct (string_dec k key) as [<-|Hne].
    - rewrite lookup_assign_same. exact Ht.
    - rewrite lookup_assign_other by exact Hne. apply Hc. }
  pose proof (Hc k) as Hk.
  destruct (lookup k valueCounts) as [[[|count]|]|] eqn:E.
  - apply (Hassign (Tally 1)); exact Hk.
  - apply (Hassign (Tally (S (S count)))); exact Hk.
  - apply (Hassign Garbled); exact Hk.
  - destruct (inherited k) eqn:Ei.
    + destruct (String.eqb k "__proto__"); [exact Hc|].
      apply (Hassign Garbled); reflexivity.
    + apply (Hassign (Tally 1)); reflexivity.
Qed.

Lemma valueCounts_counted (cells : list value) :
  forall valueCounts,
    counted valueCounts ->
    counted (fold_left (countValue number_to_string) cells valueCounts).
Proof.
  induction cells as [|v cells IH]; intros valueCounts Hc; [exact Hc|].
  cbn [fold_left]. apply IH, countValue_counted, Hc.
Qed.

Lemma counted_empty : counted [].
Proof. intros key. exact I. Qed.

Lemma countValue_count (valueCounts : object tally) (v : value)
      (key : string) :
  counted valueCounts ->
  inherited key = false ->
  countIn (countValue number_to_string valueCounts v) key
  = countIn valueCounts key
    + (if negb (isBlank v) && String.eqb (toString number_to_string v) key
       then 1 else 0).
Proof.
  intros Hc Hkey.
  unfold countValue. destruct (isBlank v); cbn [negb andb]; [lia|].
  set (k := toString number_to_string v).
  assert (Hother : forall t,
             k <> key ->
             countIn (assign k t valueCounts) key
             = countIn valueCounts key
               + (if String.eqb k key then 1 else 0)).
  { intros t Hne. unfold countIn.
    rewrite lookup_assign_other by exact Hne.
    apply String.eqb_neq in Hne. rewrite Hne. lia. }
  assert (Hsame : forall n,
             n = S (countIn valueCounts k) ->
             countIn (assign k (Tally n) valueCounts) key
             = countIn valueCounts key
               + (if String.eqb k key then 1 else 0)).
  { intros n ->. destruct (string_dec k key) as [<-|Hne].
    - unfold countIn at 1. rewrite lookup_assign_same, String.eqb_refl. lia.
    - apply Hother. exact Hne. }
  assert (Hmember : inherited k = true -> k <> key)
    by (intros Hk <-; congruence).
  pose proof (Hc k) as Hk.
  unfold countIn in Hsame at 1.
  destruct (lookup k valueCounts) as [[[|count]|]|] eqn:E.
  - apply Hsame. reflexivity.
  - apply Hsame. reflexivity.
  - apply Hother, Hmember, Hk.
  - destruct (inherited k) eqn:Ei.
    + specialize (Hmember eq_refl).
      destruct (String.eqb k "__proto__"); [|apply Hother; exact Hmember].
      apply String.eqb_neq in Hmember. rewrite Hmember. lia.
    + apply Hsame. reflexivity.
Qed.

Lemma valueCounts_count (cells : list value) (key : string) :
  inherited key = false ->
  forall valueCounts,
    counted valueCounts ->
    countIn (fold_left (countValue number_to_string) cells valueCounts) key
    = countIn valueCounts key
      + length (filter (fun v =>
                          negb (isBlank v)
                          && String.eqb (toString number_to_string v) key)
                       cells).
Proof.
  intros Hkey.
  induction cells as [|v cells IH]; intros valueCounts Hc; [cbn; lia|].
  cbn [fold_left filter].
  rewrite IH by (apply countValue_counted; exact Hc).
  rewrite countValue_count by assumption.
  destruct (negb (isBlank v) && String.eqb (toString number_to_string v) key);
    cbn [length]; lia.
Qed.

(** The scan ends on the key of a largest count, on the empty string when no
    count is above 0. *)
Lemma modeOfCounts_max (valueCounts : object tally) (key : string) :
  countIn valueCounts key <= countIn valueCounts (modeOfCounts valueCounts)
  /\ (modeOfCounts valueCounts = ""%string
      \/ 0 < countIn valueCounts (modeOfCounts valueCounts)).
Proof.
  unfold modeOfCounts.
  set (step := fun (best : nat * string) key => _).
  assert (Hscan : forall keys best,
             fst best <= countIn valueCounts (snd best) ->
             snd best = ""%string \/ 0 < countIn valueCounts (snd best) ->
             let best' := fold_left step keys best in
             fst best' <= countIn valueCounts (snd best')
             /\ (snd best' = ""%string
                 \/ 0 < countIn valueCounts (snd best'))
             /\ fst best <= fst best'
             /\ forall key, In key keys ->
                            countIn valueCounts key <= fst best').
  { induction keys as [|k keys IH]; intros best Hbest Hpos; cbv zeta.
    - cbn. repeat split; auto. intros ? [].
    - cbn [fold_left].
      assert (Hstep : fst (step best k)
                      <= countIn valueCounts (snd (step best k))
                      /\ (snd (step best k) = ""%string
                          \/ 0 < countIn valueCounts (snd (step best k)))
                      /\ fst best <= fst (step best k)
                      /\ countIn valueCounts k <= fst (step best k)).
      { unfold step.
        destruct (lookup k valueCounts) as [[count|]|] eqn:E.
        - assert (Hk : countIn valueCounts k = count)
            by (unfold countIn; rewrite E; reflexivity).
          rewrite Hk.
          destruct (Nat.ltb (fst best) count) eqn:Hlt.
          + apply Nat.ltb_lt in Hlt. cbn [fst snd]. rewrite Hk.
            split; [lia|]. split; [right; lia|]. split; lia.
          + apply Nat.ltb_ge in Hlt. repeat split; auto.
        - assert (Hk : countIn valueCounts k = 0)
            by (unfold countIn; rewrite E; reflexivity).
          rewrite Hk. repeat split; auto. lia.
        - assert (Hk : countIn valueCounts k = 0)
            by (unfold countIn; rewrite E; reflexivity).
          rewrite Hk. repeat split; auto. lia. }
      destruct Hstep as (H1 & H1' & H2 & H3).
      destruct (IH (step best k) H1 H1') as (H4 & H4' & H5 & H6).
      cbv zeta in *.
      split; [exact H4|]. split; [exact H4'|]. split; [lia|].
      intros key' [<-|Hin]; [lia|apply H6; exact Hin]. }
  destruct (Hscan (ownKeys valueCounts) (0, ""%string) (Nat.le_0_l _)
                  (or_introl eq_refl))
    as (H1 & H1' & _ & H3). cbv zeta in *.
  split; [|exact H1'].
  destruct (lookup key valueCounts) as [t|] eqn:E.
  - etransitivity; [|exact H1]. apply H3.
    apply ownKeys_complete. eapply lookup_in_keys. exact E.
  - unfold countIn at 1. rewrite E. lia.
Qed.

(** The mode of a column is no name of [objectPrototypeMembers]; among the
    other strings none is the value of more non-blank cells than the mode is;
    and the mode is the empty string or the value of a cell. *)
Lemma modeOf_most_frequent (data : list passenger) (feature : string) :
  let mode := modeOf number_to_string data feature in
  inherited mode = false
  /\ (forall key,
         inherited key = false ->
         occurrences number_to_string data feature key
         <= occurrences number_to_string data feature mode)
  /\ (mode = ""%string
      \/ 0 < occurrences number_to_string data feature mode).
Proof.
  cbv zeta. unfold occurrences, modeOf, valueCountsOf.
  set (cells := map (fun p => get p feature) data).
  set (valueCounts := fold_left (countValue number_to_string) cells []).
  assert (Hc : counted valueCounts)
    by (apply valueCounts_counted, counted_empty).
  assert (Hcount : forall key,
             inherited key = false ->
             countIn valueCounts key
             = length (filter (fun v =>
                                 negb (isBlank v)
                                 && String.eqb (toString number_to_string v)
                                               key)
                              cells)).
  { intros key Hkey. unfold valueCounts.
    rewrite valueCounts_count by (exact Hkey || apply counted_empty).
    reflexivity. }
  assert (Hmode : inherited (modeOfCounts valueCounts) = false).
  { destruct (modeOfCounts_max valueCounts ""%string) as [_ [-> | Hpos]];
      [reflexivity|].
    pose proof (Hc (modeOfCounts valueCounts)) as Hm.
    unfold countIn in Hpos.
    destruct (lookup (modeOfCounts valueCounts) valueCounts) as [[count|]|];
      [exact Hm|lia|lia]. }
  split; [exact Hmode|]. split.
  - intros key Hkey.
    rewrite <- (Hcount key Hkey), <- (Hcount _ Hmode).
    apply modeOfCounts_max.
  - destruct (modeOfCounts_max valueCounts ""%string) as [_ [Hm | Hpos]];
      [left; exact Hm|right].
    rewrite <- (Hcount _ Hmode). exact Hpos.
Qed.

(** X19: in a column whose name is no name of [objectPrototypeMembers], the
    mode is a most frequent value: it is itself no such name; no other string
    that is no such name is the value of more non-blank cells of the column
    than the mode is; and the mode is the empty string only when it is the
    value of no cell, for otherwise a cell holds it. *)
Theorem mode_is_a_most_frequent_value (data : list passenger)
        (feature key : string) :
  inherited feature = false ->
  inherited key = false ->
  let mode := modeOf number_to_string data feature in
  inherited mode = false
  /\ occurrences number_to_string data feature key
     <= occurrences number_to_string data feature mode
  /\ (mode = ""%string
      \/ 0 < occurrences number_to_string data feature mode).
Proof.
  intros _ Hkey. cbv zeta.
  destruct (modeOf_most_frequent data feature) as (H1 & H2 & H3).
  cbv zeta in *. split; [exact H1|]. split; [apply H2; exact Hkey|exact H3].
Qed.

End ModeFacts.


(** ** Feature engineering, separation and encoding *)

Section KeysFacts2.

Context {V : Type}.

Lemma lookup_none_keys (key : string) (o : object V) :
  lookup key o = None -> ~ In key (map fst o).
Proof.
  induction o as [|[k w] o IH]; [intros _ []|].
  cbn [lookup map fst]. destruct (String.eqb k key) eqn:E; [discriminate|].
  apply String.eqb_neq in E. intros H [Hk|Hin]; [contradiction|].
  apply IH; assumption.
Qed.

Lemma insertIndex_in_inv (x y : N * string) (sorted : list (N * string)) :
  In x (insertIndex y sorted) -> In x sorted \/ x = y.
Proof.
  induction sorted as [|z rest IH]; cbn [insertIndex].
  - intros [<-|[]]. right. reflexivity.
  - destruct (N.ltb (fst y) (fst z)).
    + intros [<-|H]; [right; reflexivity|left; exact H].
    + intros [<-|H]; [left; left; reflexivity|].
      apply IH in H. destruct H as [H|H]; [left; right; exact H|right; exact H].
Qed.

Lemma ownKeys_sound (key : string) (o : object V) :
  In key (ownKeys o) -> In key (map fst o).
Proof.
  unfold ownKeys. intros Hin. apply in_app_or in Hin. destruct Hin as [Hin|Hin].
  - apply in_map_iff in Hin. destruct Hin as ([n k] & Hk & Hin).
    cbn in Hk. subst k.
    induction (map fst o) as [|k keys IH]; [destruct Hin|].
    cbn [flat_map] in Hin.
    destruct (arrayIndex k) eqn:E; cbn [app fold_right] in Hin.
    + apply insertIndex_in_inv in Hin. destruct Hin as [Hin|Hin].
      * right. apply IH. exact Hin.
      * left. congruence.
    + right. apply IH. exact Hin.
  - apply filter_In in Hin. tauto.
Qed.

Lemma lookup_map_keys (f : string -> V) (key : string) (keys : list string) :
  lookup key (map (fun k => (k, f k)) keys)
  = if existsb (String.eqb key) keys then Some (f key) else None.
Proof.
  induction keys as [|k keys IH]; [reflexivity|].
  cbn [map lookup existsb]. rewrite (String.eqb_sym key k).
  destruct (String.eqb k key) eqn:E; [|exact IH].
  apply String.eqb_eq in E. subst. reflexivity.
Qed.

End KeysFacts2.

Section FirstRecord.

Context (num : Type) {N : Number num}.
Variable number_to_string : num -> string.
Variable string_to_number : string -> num.

Local Abbreviation passenger := (passenger num).
Local Abbreviation value := (value num).

(** C9, as the code has it: the fields of the first record alone type the
    columns.  For a column that is not excluded and whose name is no name of
    [objectPrototypeMembers]:
    - when the first record has the field, the column is numerical if the
      first record holds a number there and categorical otherwise (a string,
      [null] or [undefined]), for the whole dataset; every [null] cell of a
      categorical column is replaced by the column's mode, a string;
    - when the first record has no such field, the column is in neither list
      and imputation leaves each of its cells as it is, [null] included;
    - the mode is no name of [objectPrototypeMembers], and no other string
      that is no such name is the value of more non-blank cells. *)
Theorem first_record_types_the_column (samplePassenger : passenger)
        (rest : list passenger) (feature : string) :
  let data := samplePassenger :: rest in
  let types := identifyFeatureTypes data in
  let imputed := imputeMissingValues number_to_string string_to_number data in
  let mode := modeOf number_to_string data feature in
  excluded feature = false ->
  inherited feature = false ->
  (In feature (map fst samplePassenger) ->
   (In feature (numericalFeatures types)
    <-> isNumber (get samplePassenger feature) = true)
   /\ (In feature (categoricalFeatures types)
       <-> isNumber (get samplePassenger feature) = false)
   /\ (isNumber (get samplePassenger feature) = false ->
       forall i p,
         nth_error data i = Some p ->
         get p feature = VNull ->
         exists p',
           nth_error imputed i = Some p'
           /\ get p' feature = VString mode))
  /\ (~ In feature (map fst samplePassenger) ->
      ~ In feature (numericalFeatures types)
      /\ ~ In feature (categoricalFeatures types)
      /\ map (fun p => get p feature) imputed
         = map (fun p => get p feature) data)
  /\ inherited mode = false
  /\ (forall key,
         inherited key = false ->
         occurrences number_to_string data feature key
         <= occurrences number_to_string data feature mode).
Proof.
  cbv zeta; intros Hex _.
  unfold imputeMissingValues, identifyFeatureTypes.
  destruct (classify_lists (fun _ : num => EmptyString) (fun _ => js_zero)
              samplePassenger feature (ownKeys samplePassenger)
              {| numericalFeatures := []; categoricalFeatures := [] |})
    as [Hnum Hcat].
  cbv zeta in Hnum, Hcat; cbn [numericalFeatures categoricalFeatures In]
    in Hnum, Hcat.
  set (types := fold_left (classify samplePassenger) (ownKeys samplePassenger)
                          _) in *.
  split; [|split].
  - intros Hkey. apply ownKeys_complete in Hkey.
    assert (Hn : In feature (numericalFeatures types)
                 <-> isNumber (get samplePassenger feature) = true)
      by (rewrite Hnum; intuition auto).
    assert (Hc : In feature (categoricalFeatures types)
                 <-> isNumber (get samplePassenger feature) = false)
      by (rewrite Hcat; intuition auto).
    split; [exact Hn | split; [exact Hc|]].
    intros E i p Hp Hnull.
    rewrite nth_error_map, Hp; cbn [option_map].
    eexists; split; [reflexivity|].
    unfold imputePassenger.
    change (imputeCategorical number_to_string (samplePassenger :: rest))
      with (fillStep (@isBlank num)
              (fun g => VString (modeOf number_to_string
                                        (samplePassenger :: rest) g))).
    change (imputeNumerical number_to_string string_to_number
                            (samplePassenger :: rest))
      with (fillStep (@isMissing num)
              (medianOf number_to_string string_to_number
                        (samplePassenger :: rest))).
    apply fillPass_fills with (fill := fun g => VString _);
      [apply Hc; exact E|].
    rewrite fillPass_other by (intros H; apply Hn in H; congruence).
    rewrite Hnull; reflexivity.
  - intros Hkey.
    assert (Hkeys : ~ In feature (ownKeys samplePassenger))
      by (intros H; apply Hkey, ownKeys_sound, H).
    assert (Hn : ~ In feature (numericalFeatures types))
      by (rewrite Hnum; intuition auto).
    assert (Hc : ~ In feature (categoricalFeatures types))
      by (rewrite Hcat; intuition auto).
    split; [exact Hn | split; [exact Hc|]].
    rewrite map_map. apply map_ext. intros p.
    unfold imputePassenger.
    change (imputeCategorical number_to_string (samplePassenger :: rest))
      with (fillStep (@isBlank num)
              (fun g => VString (modeOf number_to_string
                                        (samplePassenger :: rest) g))).
    change (imputeNumerical number_to_string string_to_number
                            (samplePassenger :: rest))
      with (fillStep (@isMissing num)
              (medianOf number_to_string string_to_number
                        (samplePassenger :: rest))).
    rewrite !fillPass_other by assumption. reflexivity.
  - destruct (modeOf_most_frequent number_to_string
                (samplePassenger :: rest) feature) as (H1 & H2 & _).
    cbv zeta in *. split; [exact H1|exact H2].
Qed.

End FirstRecord.

Section EngineerFacts.

Context (num : Type) {N : Number num}.
Local Open Scope js_scope.
Variable number_to_string : num -> string.

Local Abbreviation passenger := (passenger num).
Local Abbreviation value := (value num).

Lemma get_copy (p : passenger) (keep : string -> bool) (key : string) :
  get (map (fun k => (k, get p k)) (filter keep (ownKeys p))) key
  = if keep key then get p key else VUndefined.
Proof.
  unfold get at 1. rewrite lookup_map_keys.
  destruct (existsb (String.eqb key) (filter keep (ownKeys p))) eqn:E.
  - apply existsb_exists in E. destruct E as (k & Hin & Hk).
    apply String.eqb_eq in Hk. subst k. apply filter_In in Hin.
    destruct Hin as [_ ->]. reflexivity.
  - destruct (keep key) eqn:Hkeep; [|reflexivity].
    unfold get. destruct (lookup key p) as [v|] eqn:Hl; [|reflexivity].
    exfalso. apply lookup_in_keys, ownKeys_complete in Hl.
    apply Bool.not_true_iff_false in E. apply E. apply existsb_exists.
    exists key. split; [|apply String.eqb_refl].
    apply filter_In. split; assumption.
Qed.

Lemma get_copyOf (p : passenger) (key : string) :
  get (copyOf p) key = get p key.
Proof.
  unfold copyOf.
  assert (Hall : filter (fun _ : string => true) (ownKeys p) = ownKeys p)
    by (induction (ownKeys p) as [|k keys IH]; [reflexivity|];
        cbn [filter]; rewrite IH; reflexivity).
  rewrite <- Hall at 1. apply (get_copy p (fun _ => true)).
Qed.

End EngineerFacts.

Section TitleFacts.

Local Open Scope string_scope.

Lemma skipSpaces_prefix (spaces rest : string) :
  allChars isSpace spaces = true ->
  skipSpaces (spaces ++ rest) = skipSpaces rest.
Proof.
  induction spaces as [|a spaces IH]; intros H; [reflexivity|].
  cbn [allChars] in H. apply andb_prop in H. destruct H as [Ha H].
  cbn [append skipSpaces]. rewrite Ha. apply IH. exact H.
Qed.

Lemma takeWord_word (word rest : string) :
  allChars isTitleChar word = true ->
  takeWord (word ++ String "." rest) = (word, String "." rest).
Proof.
  induction word as [|a word IH]; intros H; [reflexivity|].
  cbn [allChars] in H. apply andb_prop in H. destruct H as [Ha H].
  cbn [append takeWord]. rewrite Ha, IH by exact H. reflexivity.
Qed.

Lemma titleAfterComma_title (spaces title rest : string) :
  allChars isSpace spaces = true ->
  title <> "" -> allChars isTitleChar title = true ->
  titleAfterComma (spaces ++ title ++ String "." rest) = Some title.
Proof.
  intros Hs Hne Ht. unfold titleAfterComma.
  rewrite skipSpaces_prefix by exact Hs.
  destruct title as [|a title]; [contradiction|].
  assert (Ha : isSpace a = false).
  { cbn [allChars] in Ht. apply andb_prop in Ht. destruct Ht as [Ha _].
    unfold isTitleChar in Ha. apply negb_true_iff, orb_false_elim in Ha.
    tauto. }
  cbn [append skipSpaces]. rewrite Ha.
  change (String a (title ++ String "." rest))
    with (String a title ++ String "." rest).
  rewrite takeWord_word by exact Ht. reflexivity.
Qed.

Lemma matchTitle_after_surname (surname after : string) :
  allChars (fun a => negb (Ascii.eqb a ",")) surname = true ->
  matchTitle (surname ++ after) = matchTitle after.
Proof.
  induction surname as [|a surname IH]; intros H; [reflexivity|].
  cbn [allChars] in H. apply andb_prop in H. destruct H as [Ha H].
  apply negb_true_iff in Ha. cbn [append matchTitle]. rewrite Ha.
  apply IH. exact H.
Qed.

End TitleFacts.

Section EngineerClaims.

Context (num : Type) {N : Number num}.
Local Open Scope js_scope.
Variable number_to_string : num -> string.

Local Abbreviation passenger := (passenger num).
Local Abbreviation value := (value num).

(** X21: a name of the form [surname, title. rest] gets its title: when [Name]
    is a surname without a comma, a comma, spaces, a non-empty word without
    space or full stop, a full stop and anything, [engineerFeatures] sets
    [Title] to the word. *)
Theorem title_is_the_word_after_the_comma (p : passenger)
        (surname spaces title rest : string) :
  allChars (fun a => negb (Ascii.eqb a ",")) surname = true ->
  allChars isSpace spaces = true ->
  title <> ""%string ->
  allChars isTitleChar title = true ->
  get p "Name"
  = VString (surname ++ "," ++ spaces ++ title ++ "." ++ rest)%string ->
  exists p',
    engineerPassenger number_to_string p = Ok p'
    /\ get p' "Title" = VString title.
Proof.
  intros Hsur Hsp Hne Ht Hname. unfold engineerPassenger. cbv zeta.
  rewrite Hname.
  assert (Htruthy : truthy (VString (num := num)
                     (surname ++ "," ++ spaces ++ title ++ "." ++ rest)%string)
                    = true).
  { cbn [truthy]. apply negb_true_iff, String.eqb_neq.
    destruct surname; discriminate. }
  rewrite Htruthy. cbn [bind].
  eexists. split; [reflexivity|].
  rewrite get_assign_other by discriminate. rewrite get_assign_same.
  rewrite matchTitle_after_surname by exact Hsur.
  change ("," ++ spaces ++ title ++ "." ++ rest)%string
    with (String "," (spaces ++ title ++ String "." rest))%string.
  cbn [matchTitle]. rewrite Ascii.eqb_refl.
  rewrite titleAfterComma_title by assumption. reflexivity.
Qed.

Lemma matchTitle_no_comma (name : string) :
  allChars (fun a => negb (Ascii.eqb a ",")) name = true ->
  matchTitle name = None.
Proof.
  induction name as [|a name IH]; intros H; [reflexivity|].
  cbn [allChars] in H. apply andb_prop in H. destruct H as [Ha H].
  apply negb_true_iff in Ha. cbn [matchTitle]. rewrite Ha. apply IH. exact H.
Qed.

Lemma traverse_nth {A B : Type} (f : A -> result B) (l : list A) :
  forall out,
    traverse f l = Ok out ->
    length out = length l
    /\ forall i x y, nth_error l i = Some x -> nth_error out i = Some y ->
                     f x = Ok y.
Proof.
  induction l as [|x l IH]; intros out H.
  - cbn in H. inversion H; subst. split; [reflexivity|].
    intros [|i] ? ? ?; discriminate.
  - cbn [traverse] in H. destruct (f x) as [y|e] eqn:E; [|discriminate].
    cbn [bind] in H. destruct (traverse f l) as [ys|e]; [|discriminate].
    cbn [bind] in H. inversion H; subst; clear H.
    destruct (IH ys eq_refl) as [Hlen Hnth]. split; [cbn; lia|].
    intros [|i] x' y' Hx Hy; cbn in Hx, Hy.
    + inversion Hx; inversion Hy; subst. exact E.
    + eapply Hnth; eassumption.
Qed.

(** X22: [engineerFeatures] returns a record for each record, in order. A
    record keeps every field but [FamilySize], [Title] and [HasCabin]; its
    [HasCabin] is 1 when [Cabin] counts as true and 0 otherwise; it gets no
    [Title] when [Name] does not count as true, and the title [Unknown] when
    [Name] is a string without a comma. *)
Theorem engineered_records_keep_their_fields (data out : list passenger)
        (i : nat) (p p' : passenger) :
  engineerFeatures number_to_string data = Ok out ->
  nth_error data i = Some p ->
  nth_error out i = Some p' ->
  length out = length data
  /\ (forall key, ~ In key ["FamilySize"; "Title"; "HasCabin"]%string ->
                  get p' key = get p key)
  /\ get p' "HasCabin"
     = (if truthy (get p "Cabin") then VNumber js_one else VNumber js_zero)
  /\ (truthy (get p "Name") = false -> get p' "Title" = get p "Title")
  /\ (forall name, get p "Name" = VString name -> name <> ""%string ->
                   allChars (fun a => negb (Ascii.eqb a ",")) name = true ->
                   get p' "Title" = VString "Unknown").
Proof.
  intros Hout Hp Hp'. unfold engineerFeatures in Hout.
  apply traverse_nth in Hout. destruct Hout as [Hlen Hnth].
  specialize (Hnth i p p' Hp Hp'). split; [exact Hlen|].
  unfold engineerPassenger in Hnth. cbv zeta in Hnth.
  set (family := plus _ _ _) in Hnth.
  set (cabin := if truthy (get p "Cabin") && _ then _ else _) in Hnth.
  assert (Hcabin : cabin = if truthy (get p "Cabin")
                           then VNumber js_one else VNumber js_zero).
  { unfold cabin. destruct (get p "Cabin") as [x|s| |]; cbn [truthy andb];
      try reflexivity.
    - rewrite andb_true_r. reflexivity.
    - cbn [strictEquals]. destruct (String.eqb s ""); reflexivity. }
  destruct (truthy (get p "Name")) eqn:Hname.
  - destruct (get p "Name") as [x|name| |] eqn:Hn; try discriminate.
    cbn [bind] in Hnth. inversion Hnth; subst p'; clear Hnth.
    split; [|split; [|split]].
    + intros key Hkey. cbn [In] in Hkey.
      rewrite !get_assign_other by (intros <-; tauto). apply get_copyOf.
    + rewrite get_assign_same. exact Hcabin.
    + discriminate.
    + intros name' Heq Hne Hcomma. inversion Heq; subst name'.
      rewrite get_assign_other by discriminate. rewrite get_assign_same.
      rewrite matchTitle_no_comma by exact Hcomma. reflexivity.
  - cbn [bind] in Hnth. inversion Hnth; subst p'; clear Hnth.
    split; [|split; [|split]].
    + intros key Hkey. cbn [In] in Hkey.
      rewrite !get_assign_other by (intros <-; tauto). apply get_copyOf.
    + rewrite get_assign_same. exact Hcabin.
    + intros _. rewrite !get_assign_other by discriminate. apply get_copyOf.
    + intros name Heq Hne _. rewrite Heq in Hname. cbn [truthy] in Hname.
      apply negb_false_iff, String.eqb_eq in Hname. contradiction.
Qed.

(** X23: [separateFeatures] returns a feature record and a flag for each
    record, in order. The feature record has no [Survived] and keeps every
    other field; the flag is the record's [Survived], or 0 when that does not
    count as true. *)
Theorem separated_features_lack_survived (data : list passenger) (i : nat)
        (p : passenger) :
  nth_error data i = Some p ->
  exists p',
    nth_error (fst (separateFeatures data)) i = Some p'
    /\ nth_error (snd (separateFeatures data)) i
       = Some (orElse (get p "Survived") (VNumber js_zero))
    /\ ~ In "Survived"%string (ownKeys p')
    /\ get p' "Survived" = VUndefined
    /\ forall key, key <> "Survived"%string -> get p' key = get p key.
Proof.
  intros Hp. unfold separateFeatures. cbn [fst snd].
  rewrite !nth_error_map, Hp. cbn [option_map].
  eexists. split; [reflexivity|]. split; [reflexivity|].
  split; [|split].
  - intros Hin. apply ownKeys_sound in Hin. unfold restWithout in Hin.
    rewrite map_map in Hin. cbn [fst] in Hin. rewrite map_id in Hin.
    apply filter_In in Hin. destruct Hin as [_ Hin].
    rewrite String.eqb_refl in Hin. discriminate.
  - unfold restWithout. rewrite get_copy, String.eqb_refl. reflexivity.
  - intros key Hkey. unfold restWithout. rewrite get_copy.
    apply String.eqb_neq in Hkey. rewrite Hkey. reflexivity.
Qed.

End EngineerClaims.

Section OneHotFacts.

Context (num : Type) {N : Number num}.
Local Open Scope js_scope.
Variable number_to_string : num -> string.

Local Abbreviation passenger := (passenger num).
Local Abbreviation value := (value num).

(** X24: [engineerFeatures] throws on a record exactly when its [Name] is a
    number that counts as true. *)
Theorem engineer_throws_on_a_numeric_name (p : passenger) :
  engineerPassenger number_to_string p = Throw TypeError
  <-> exists x, get p "Name" = VNumber x /\ truthy (VNumber x) = true.
Proof.
  unfold engineerPassenger. cbv zeta.
  destruct (get p "Name") as [x|name| |] eqn:Hname.
  - destruct (truthy (VNumber x)) eqn:Ht; cbn [bind].
    + split; [intros _; exists x; auto|reflexivity].
    + split; [discriminate|]. intros (y & Hy & Hty). inversion Hy; subst.
      congruence.
  - destruct (truthy (VString name)); cbn [bind];
      (split; [discriminate|intros (y & Hy & _); discriminate]).
  - cbn [truthy bind]. split; [discriminate|intros (y & Hy & _); discriminate].
  - cbn [truthy bind]. split; [discriminate|intros (y & Hy & _); discriminate].
Qed.

(** X25: every encoded row has as many cells as [features] has names. *)
Theorem encoded_rows_match_feature_names (data : list passenger)
        (categoricalFeatures : list string) (row : list value) :
  let encoded :=
    oneHotEncodeCategorical number_to_string data categoricalFeatures in
  In row (encodedData encoded) ->
  length (encodedData encoded) = length data
  /\ length row = length (features encoded).
Proof.
  cbv zeta. unfold oneHotEncodeCategorical. cbn [encodedData features].
  intros Hin. split; [apply length_map|].
  apply in_map_iff in Hin. destruct Hin as (p & <- & _).
  rewrite !length_app, length_map. f_equal.
  apply flat_map_length_ext. intros feature. unfold oneHotBlock.
  rewrite !length_map. reflexivity.
Qed.

Lemma strictEquals_string (s : string) (v : value) :
  strictEquals (VString s) v = true <-> v = VString s.
Proof.
  destruct v as [x|t| |]; cbn [strictEquals]; split; try discriminate.
  - intros H. apply String.eqb_eq in H. subst. reflexivity.
  - intros H. inversion H. apply String.eqb_refl.
Qed.

Lemma addValue_string (s : string) (set : list value) (v : value) :
  length (filter (strictEquals (VString s)) set) <= 1 ->
  let after := length (filter (strictEquals (VString s)) (addValue set v)) in
  after <= 1
  /\ length (filter (strictEquals (VString s)) set) <= after
  /\ (v = VString s -> after = 1).
Proof.
  intros Hle. cbv zeta. unfold addValue.
  destruct (existsb (sameValueZero v) set) eqn:E.
  - split; [exact Hle|]. split; [lia|].
    intros ->. change (sameValueZero (VString s))
      with (strictEquals (VString (num := num) s)) in E.
    rewrite existsb_filter in E. apply Nat.ltb_lt in E. lia.
  - rewrite filter_app, length_app. cbn [filter].
    destruct (strictEquals (VString s) v) eqn:Hv.
    + apply strictEquals_string in Hv. subst v.
      change (sameValueZero (VString s))
        with (strictEquals (VString (num := num) s)) in E.
      rewrite existsb_filter in E. apply Nat.ltb_ge in E.
      cbn [length]. split; [lia|]. split; [lia|]. intros _. lia.
    + cbn [length]. split; [lia|]. split; [lia|].
      intros ->. rewrite (proj2 (strictEquals_string s (VString s)) eq_refl)
        in Hv. discriminate.
Qed.

Lemma categoricalValuesOf_string (feature s : string) (data : list passenger) :
  s <> ""%string ->
  forall set,
    length (filter (strictEquals (VString s)) set) <= 1 ->
    let values :=
      fold_left (fun set p =>
                   let v := get p feature in
                   if isBlank v then set else addValue set v)
                data set in
    length (filter (strictEquals (VString s)) values) <= 1
    /\ length (filter (strictEquals (VString s)) set)
       <= length (filter (strictEquals (VString s)) values)
    /\ ((exists p, In p data /\ get p feature = VString s) ->
        length (filter (strictEquals (VString s)) values) = 1).
Proof.
  intros Hs. induction data as [|p data IH]; intros set Hle; cbv zeta.
  - cbn [fold_left]. split; [exact Hle|]. split; [lia|].
    intros (p & [] & _).
  - cbn [fold_left]. cbv zeta.
    destruct (isBlank (get p feature)) eqn:Hb.
    + destruct (IH set Hle) as (H1 & H2 & H3). cbv zeta in *.
      split; [exact H1|]. split; [exact H2|].
      intros (q & [<-|Hq] & Hv); [|apply H3; exists q; auto].
      rewrite Hv in Hb. cbn [isBlank] in Hb.
      apply String.eqb_eq in Hb. contradiction.
    + destruct (addValue_string s set (get p feature) Hle) as (A1 & A2 & A3).
      cbv zeta in *.
      destruct (IH (addValue set (get p feature)) A1) as (H1 & H2 & H3).
      cbv zeta in *.
      split; [exact H1|]. split; [lia|].
      intros (q & [<-|Hq] & Hv); [|apply H3; exists q; auto].
      specialize (A3 Hv). lia.
Qed.

(** X26: one-hot: for a record of the data whose cell is a non-empty string,
    the block of a categorical feature holds 1 once and 0 elsewhere. *)
Theorem one_hot_block_has_one_1 (data : list passenger) (p : passenger)
        (feature s : string) :
  In p data -> get p feature = VString s -> s <> ""%string ->
  exists before after,
    oneHotBlock data p feature
    = repeat (VNumber js_zero) before
      ++ VNumber js_one :: repeat (VNumber js_zero) after
    /\ length (categoricalValuesOf data feature) = (before + 1 + after)%nat.
Proof.
  intros Hin Hv Hs. unfold oneHotBlock. rewrite Hv.
  apply one_selected.
  destruct (@categoricalValuesOf_string feature s data Hs [] (Nat.le_0_l _))
    as (_ & _ & H).
  apply H. exists p. auto.
Qed.

End OneHotFacts.

(** ** Parsing *)

Section CSVFacts.

Local Open Scope string_scope.

Lemma append_empty (s : string) : s ++ "" = s.
Proof.
  induction s as [|a s IH]; [reflexivity|]. cbn. rewrite IH. reflexivity.
Qed.

Lemma append_char (s : string) (a : ascii) (t : string) :
  (s ++ String a "") ++ t = s ++ String a t.
Proof.
  induction s as [|b s IH]; [reflexivity|]. cbn. rewrite IH. reflexivity.
Qed.

Lemma scanFields_body (body : string) :
  forall rest previous inQuotes currentValue values,
    allChars (fun a => negb (Ascii.eqb a quoteChar)) body = true ->
    inQuotes = true
    \/ allChars (fun a => negb (Ascii.eqb a ",")) body = true ->
    scanFields (body ++ rest) previous inQuotes currentValue values
    = scanFields rest (lastChar body previous) inQuotes
                 (currentValue ++ body) values.
Proof.
  induction body as [|a body IH]; intros rest prev q cur values Hq Hc.
  - cbn [append lastChar]. rewrite append_empty. reflexivity.
  - cbn [allChars] in Hq. apply andb_prop in Hq. destruct Hq as [Ha Hq].
    apply negb_true_iff in Ha.
    assert (Hcomma : Ascii.eqb a "," && negb q = false).
    { destruct Hc as [->|Hc]; [apply andb_false_r|].
      cbn [allChars] in Hc. apply andb_prop in Hc. destruct Hc as [Hc _].
      apply negb_true_iff in Hc. rewrite Hc. reflexivity. }
    cbn [append scanFields lastChar]. rewrite Ha, Hcomma. cbn [andb].
    rewrite IH.
    + rewrite append_char. reflexivity.
    + exact Hq.
    + destruct Hc as [Hc|Hc]; [left; exact Hc|right].
      cbn [allChars] in Hc. apply andb_prop in Hc. tauto.
Qed.

Lemma scanFields_field (field : bool * string) (rest : string)
      (previous : option ascii) (values : list string) :
  readable field ->
  previous <> Some backslashChar ->
  exists previous',
    scanFields (writeField field ++ rest) previous false "" values
    = scanFields rest previous' false (snd field) values.
Proof.
  intros [Hq Hshape] Hprev. destruct field as [[|] body];
    cbn [fst snd writeField] in *.
  - exists (Some quoteChar).
    assert (Hopen : match previous with
                    | Some before => negb (Ascii.eqb before backslashChar)
                    | None => true
                    end = true).
    { destruct previous as [before|]; [|reflexivity].
      apply negb_true_iff, Ascii.eqb_neq. congruence. }
    cbn [append scanFields]. rewrite Ascii.eqb_refl, Hopen. cbn [andb negb].
    change (String quoteChar "" ++ rest) with (String quoteChar rest).
    replace ((body ++ String quoteChar "") ++ rest)
      with (body ++ String quoteChar rest)
      by (symmetry; apply append_char).
    rewrite scanFields_body by (auto).
    cbn [scanFields append]. rewrite Ascii.eqb_refl.
    assert (Hclose : match lastChar body (Some quoteChar) with
                     | Some before => negb (Ascii.eqb before backslashChar)
                     | None => true
                     end = true).
    { destruct body as [|a body]; [reflexivity|].
      cbn [lastChar] in *. destruct (lastChar body (Some a)) as [before|];
        [|reflexivity].
      apply negb_true_iff, Ascii.eqb_neq. congruence. }
    rewrite Hclose. reflexivity.
  - exists (lastChar body previous).
    rewrite scanFields_body by auto. reflexivity.
Qed.

Lemma scanFields_fields (fields : list (bool * string)) :
  fields <> [] ->
  Forall readable fields ->
  forall previous values,
    previous <> Some backslashChar ->
    scanFields (joinFields (map writeField fields)) previous false "" values
    = (values ++ map snd fields)%list.
Proof.
  induction fields as [|field fields IH]; intros Hne Hall prev values Hprev;
    [contradiction|].
  inversion Hall as [|? ? Hfield Hrest]; subst.
  destruct fields as [|next fields].
  - cbn [map joinFields]. rewrite <- (append_empty (writeField field)).
    destruct (scanFields_field "" values Hfield Hprev) as (prev' & ->).
    reflexivity.
  - change (joinFields (map writeField (field :: next :: fields)))
      with (writeField field
            ++ String "," (joinFields (map writeField (next :: fields)))).
    destruct (scanFields_field
                (String "," (joinFields (map writeField (next :: fields))))
                values Hfield Hprev) as (prev' & ->).
    cbn [scanFields]. cbn [Ascii.eqb quoteChar andb negb Bool.eqb].
    rewrite IH; [|discriminate|exact Hrest|discriminate].
    rewrite <- app_assoc. reflexivity.
Qed.

(** X27: the fields of a line are read back: from a line that joins with commas
    fields written bare or between quotes (none holds a quote; a bare one holds
    no comma, a quoted one does not end in a backslash), the scan returns the
    fields, commas between quotes included. *)
Theorem written_fields_are_read_back (fields : list (bool * string)) :
  fields <> [] ->
  Forall readable fields ->
  splitFields (joinFields (map writeField fields)) = map snd fields.
Proof.
  intros Hne Hall. unfold splitFields.
  rewrite scanFields_fields by (auto; discriminate). reflexivity.
Qed.

End CSVFacts.

Section AssignKeys.

Context {V : Type}.

Lemma assign_keys (key k : string) (v : V) (o : object V) :
  In k (map fst (assign key v o)) <-> k = key \/ In k (map fst o).
Proof.
  induction o as [|[k' w] o IH]; cbn [assign map fst In].
  - intuition auto.
  - destruct (String.eqb k' key) eqn:E; cbn [map fst In].
    + apply String.eqb_eq in E. subst k'. intuition auto.
    + rewrite IH. intuition auto.
Qed.

End AssignKeys.

Section ParseFacts.

Context (num : Type).
Variable parse_int : string -> num.
Variable parse_float : string -> num.

Local Abbreviation passenger := (passenger num).
Local Abbreviation value := (value num).

Lemma convertField_typed (header field : string) :
  typedAs header (convertField parse_int parse_float header field).
Proof.
  unfold typedAs, convertField. rewrite existsb_app.
  destruct (existsb (String.eqb header) integerColumns); cbn [orb].
  - destruct (String.eqb field ""); [right|left]; reflexivity.
  - destruct (existsb (String.eqb header) floatColumns).
    + destruct (String.eqb field ""); [right|left]; reflexivity.
    + eexists. reflexivity.
Qed.

Lemma parseLine_columns (values : list string) (columns : list (nat * string))
      (key : string) :
  forall p : passenger,
    let record :=
      fold_left
        (fun (p : passenger) (column : nat * string) =>
           setField (snd column)
                    (convertField parse_int parse_float (snd column)
                                  (fieldAt values (fst column))) p)
        columns p in
    (In key (map fst record)
     <-> In key (map fst p)
         \/ (In key (map snd columns) /\ key <> "__proto__"%string))
    /\ (In key (map snd columns) -> key <> "__proto__"%string ->
        typedAs key (get record key))
    /\ (~ In key (map snd columns) \/ key = "__proto__"%string ->
        lookup key record = lookup key p).
Proof.
  induction columns as [|[index header] columns IH]; intros p; cbv zeta.
  - cbn [fold_left map In]. intuition auto.
  - cbn [fold_left map fst snd In].
    set (v := convertField parse_int parse_float header (fieldAt values index)).
    destruct (IH (setField header v p)) as (Hkeys & Htyped & Hother).
    cbv zeta in *.
    assert (Hset : In key (map fst (setField header v p))
                   <-> In key (map fst p)
                       \/ (header = key /\ key <> "__proto__"%string)).
    { unfold setField. destruct (String.eqb header "__proto__") eqn:E.
      - apply String.eqb_eq in E. subst header. intuition congruence.
      - apply String.eqb_neq in E. rewrite assign_keys.
        intuition (subst; auto). }
    split; [|split].
    + rewrite Hkeys, Hset. tauto.
    + intros Hin Hkey.
      destruct (in_dec string_dec key (map snd columns)) as [Hlater|Hlast];
        [apply Htyped; assumption|].
      destruct Hin as [->|Hin]; [|contradiction].
      unfold get. rewrite Hother by (left; exact Hlast).
      unfold setField. apply String.eqb_neq in Hkey. rewrite Hkey.
      rewrite lookup_assign_same. apply convertField_typed.
    + intros Hnot. rewrite Hother by tauto.
      unfold setField. destruct (String.eqb header "__proto__") eqn:E;
        [reflexivity|].
      apply String.eqb_neq in E.
      apply lookup_assign_other. intros ->. tauto.
Qed.

(** X28: a record of [parseCSV] has a field for each header of the first line
    other than [__proto__], and no other field; under a header of a column of
    numbers the field is a number or [null], under another a string. *)
Theorem parsed_records_have_the_header_columns (csvText : string)
        (record : passenger) (key : string) :
  let lines := split newlineChar (trim csvText) in
  let headers := map trim (split "," (hd EmptyString lines)) in
  In record (parseCSV parse_int parse_float csvText) ->
  length (parseCSV parse_int parse_float csvText) = length lines - 1
  /\ (In key (map fst record)
      <-> In key headers /\ key <> "__proto__"%string)
  /\ (In key headers -> key <> "__proto__"%string ->
      typedAs key (get record key))
  /\ (~ In key headers \/ key = "__proto__"%string ->
      lookup key record = None).
Proof.
  cbv zeta. unfold parseCSV. cbv zeta. intros Hin.
  split.
  - rewrite length_map. destruct (split newlineChar (trim csvText));
      cbn [tl length]; lia.
  - apply in_map_iff in Hin. destruct Hin as (line & <- & _).
    set (headers := map trim (split "," (hd EmptyString _))).
    unfold parseLine. cbv zeta.
    pose proof (parseLine_columns (splitFields line)
                  (combine (seq 0 (length headers)) headers) key []) as H.
    cbv zeta in H.
    rewrite map_snd_combine in H by (rewrite length_seq; reflexivity).
    destruct H as (Hkeys & Htyped & Hother).
    split; [|split].
    + rewrite Hkeys. cbn [map In]. tauto.
    + exact Htyped.
    + intros Hnot. rewrite Hother by exact Hnot. reflexivity.
Qed.

End ParseFacts.

Section ParseLineFacts.

Context (num : Type).
Variable parse_int : string -> num.
Variable parse_float : string -> num.

Local Abbreviation passenger := (passenger num).
Local Abbreviation value := (value num).

Lemma dropLastQuote_plain (s : string) :
  allChars (fun a => negb (Ascii.eqb a quoteChar)) s = true ->
  dropLastQuote s = s.
Proof.
  induction s as [|a s IH]; intros H; [reflexivity|].
  cbn [allChars] in H. apply andb_prop in H. destruct H as [Ha H].
  apply negb_true_iff in Ha. cbn [dropLastQuote].
  destruct s as [|b s]; [rewrite Ha; reflexivity|].
  rewrite IH by exact H. reflexivity.
Qed.

Lemma stripQuotes_plain (s : string) :
  allChars (fun a => negb (Ascii.eqb a quoteChar)) s = true ->
  stripQuotes s = s.
Proof.
  intros H. destruct s as [|a s]; [reflexivity|].
  pose proof (dropLastQuote_plain _ H) as Hdrop.
  cbn [allChars] in H. apply andb_prop in H. destruct H as [Ha _].
  apply negb_true_iff in Ha. unfold stripQuotes. rewrite Ha. exact Hdrop.
Qed.

Lemma parseLine_column (values : list string) (columns : list (nat * string)) :
  NoDup (map snd columns) ->
  forall (p : passenger) index header,
    In (index, header) columns ->
    header <> "__proto__"%string ->
    get (fold_left
           (fun (p : passenger) (column : nat * string) =>
              setField (snd column)
                       (convertField parse_int parse_float (snd column)
                                     (fieldAt values (fst column))) p)
           columns p) header
    = convertField parse_int parse_float header (fieldAt values index).
Proof.
  induction columns as [|[i h] columns IH];
    intros Hnd p index header Hin Hheader; [destruct Hin|].
  cbn [map snd] in Hnd. inversion Hnd as [|? ? Hfresh Hrest]; subst.
  cbn [fold_left fst snd]. destruct Hin as [Heq|Hin].
  - inversion Heq; subst.
    destruct (parseLine_columns parse_int parse_float values columns header
                (setField header
                          (convertField parse_int parse_float header
                                        (fieldAt values index)) p))
      as (_ & _ & Hother).
    cbv zeta in Hother. unfold get. rewrite Hother by (left; exact Hfresh).
    unfold setField. apply String.eqb_neq in Hheader. rewrite Hheader.
    rewrite lookup_assign_same. reflexivity.
  - apply IH; assumption.
Qed.

(** X29: a line is parsed into its fields: when the headers are distinct and
    the line joins as many readable fields, written bare or between quotes, the
    record holds under each header other than [__proto__] the field of its
    column, typed by the header. *)
Theorem parsed_line_has_its_fields (headers : list string)
        (fields : list (bool * string)) (i : nat) :
  NoDup headers ->
  length fields = length headers ->
  Forall readable fields ->
  i < length headers ->
  nth i headers EmptyString <> "__proto__"%string ->
  get (parseLine parse_int parse_float headers
                 (joinFields (map writeField fields)))
      (nth i headers EmptyString)
  = convertField parse_int parse_float (nth i headers EmptyString)
                 (snd (nth i fields (false, EmptyString))).
Proof.
  intros Hnd Hlen Hall Hi Hheader. unfold parseLine. cbv zeta.
  assert (Hne : fields <> [])
    by (destruct fields; [cbn in Hlen; lia|discriminate]).
  unfold splitFields.
  rewrite scanFields_fields by (auto; discriminate). cbn [app].
  rewrite (parseLine_column (map snd fields)
             (combine (seq 0 (length headers)) headers)) with (index := i).
  - f_equal. unfold fieldAt.
    rewrite (nth_error_nth' (map snd fields) EmptyString)
      by (rewrite length_map; lia).
    change EmptyString with (snd (false, EmptyString)) at 1.
    rewrite map_nth. apply stripQuotes_plain.
    rewrite Forall_forall in Hall.
    apply (Hall (nth i fields (false, EmptyString))).
    apply nth_In. lia.
  - rewrite map_snd_combine by (rewrite length_seq; reflexivity). exact Hnd.
  - replace (i, nth i headers EmptyString)
      with (nth i (combine (seq 0 (length headers)) headers) (0, EmptyString)).
    + apply nth_In. rewrite length_combine, length_seq, Nat.min_id. exact Hi.
    + rewrite combine_nth by (rewrite length_seq; reflexivity).
      rewrite seq_nth by exact Hi. reflexivity.
  - exact Hheader.
Qed.

End ParseLineFacts.

(** ** Survival rates *)

Lemma uniqueLabels_complete (labels : list nat) (l : nat) :
  In l labels -> In l (uniqueLabels labels).
Proof.
  unfold uniqueLabels.
  assert (Hgen : forall (rest seen : list nat),
             In l seen \/ In l rest ->
             In l (fold_left (fun seen l => if existsb (Nat.eqb l) seen
                                            then seen else seen ++ [l])
                             rest seen)).
  { clear labels. induction rest as [|x rest IH]; intros seen H.
    - destruct H as [H|[]]. exact H.
    - cbn [fold_left]. apply IH.
      destruct H as [H|[->|H]]; [| |right; exact H].
      + left. destruct (existsb _ seen); [exact H|].
        apply in_or_app. left. exact H.
      + left. destruct (existsb (Nat.eqb l) seen) eqn:E.
        * apply existsb_exists in E. destruct E as (y & Hy & Heq).
          apply Nat.eqb_eq in Heq. subst. exact Hy.
        * apply in_or_app. right. left. reflexivity. }
  intros H. apply Hgen. right. exact H.
Qed.

Lemma assign_fold_lookup {A V : Type} (keyOf : A -> string) (f : A -> V)
      (l : list A) (key : string) :
  forall o : object V,
    let o' := fold_left (fun o x => assign (keyOf x) (f x) o) l o in
    (forall v, lookup key o' = Some v ->
               lookup key o = Some v \/ exists x, In x l /\ v = f x)
    /\ ((lookup key o <> None \/ exists x, In x l /\ key = keyOf x) ->
        lookup key o' <> None).
Proof.
  induction l as [|x l IH]; intros o; cbv zeta.
  - cbn [fold_left]. split; [auto|]. intros [H|(x & [] & _)]. exact H.
  - cbn [fold_left]. destruct (IH (assign (keyOf x) (f x) o)) as [H1 H2].
    cbv zeta in *. split.
    + intros v Hv. apply H1 in Hv. destruct Hv as [Hv|(y & Hy & ->)].
      * destruct (string_dec (keyOf x) key) as [<-|Hne].
        -- rewrite lookup_assign_same in Hv. inversion Hv.
           right. exists x. split; [left; reflexivity|reflexivity].
        -- rewrite lookup_assign_other in Hv by exact Hne. left. exact Hv.
      * right. exists y. split; [right; exact Hy|reflexivity].
    + intros H. apply H2.
      destruct (string_dec (keyOf x) key) as [<-|Hne].
      * left. rewrite lookup_assign_same. discriminate.
      * rewrite lookup_assign_other by exact Hne.
        destruct H as [H|(y & [->|Hy] & Hkey)]; [left; exact H| |].
        -- congruence.
        -- right. exists y. auto.
Qed.

Module RatesExact.

Import Exact ExactVocabulary ExactFacts StandardizeFacts SumsExact SeedingExact.
Local Open Scope R_scope.

Lemma Rsum_flags (flags : list R) :
  Forall (fun s => s = 0 \/ s = 1) flags ->
  0 <= Rsum flags <= INR (length flags).
Proof.
  induction flags as [|s flags IH]; intros H.
  - unfold Rsum. cbn. lra.
  - inversion H as [|? ? Hs Hrest]; subst. specialize (IH Hrest).
    rewrite Rsum_cons. change (length (s :: flags)) with (S (length flags)).
    rewrite S_INR. destruct Hs as [-> | ->]; lra.
Qed.

Lemma clusterSurvived_exact (flags : list R) (clusters : list nat)
      (cluster : nat) :
  exists chosen,
    clusterSurvived (map Fin flags) clusters cluster = map Fin chosen
    /\ forall s, In s chosen -> In s flags.
Proof.
  unfold clusterSurvived. rewrite length_map.
  generalize (seq 0 (length flags)) as indices.
  induction flags as [|s flags IH]; intros indices.
  - exists []. split; [reflexivity|auto].
  - destruct indices as [|i indices]; [exists []; split; [reflexivity|]|].
    + intros ? [].
    + cbn [map combine filter snd].
      destruct (IH indices) as (chosen & Heq & Hin).
      destruct (sameLabel (nth_error clusters i) (Some cluster)).
      * exists (s :: chosen). cbn [map fst]. rewrite Heq.
        split; [reflexivity|]. intros s' [<-|H]; [left; reflexivity|].
        right. apply Hin. exact H.
      * exists chosen. split; [exact Heq|]. intros s' H. right. apply Hin.
        exact H.
Qed.

(** X30: in exact arithmetic, when the flags of [survived] are 0 or 1: every
    label of [clusters] has a rate, and every rate is a real between 0 and 1.
    *)
Theorem survival_rates_are_between_0_and_1 (flags : list R)
        (clusters : list nat) :
  Forall (fun s => s = 0 \/ s = 1) flags ->
  let rates := getClusterSurvivalRates (Some (map Fin flags)) clusters in
  (forall cluster, In cluster clusters ->
                   lookup (keyOfLabel cluster) rates <> None)
  /\ (forall key rate, lookup key rates = Some rate ->
                       exists r, rate = Fin r /\ 0 <= r <= 1).
Proof.
  intros Hflags. cbv zeta. unfold getClusterSurvivalRates. split.
  - intros cluster Hin.
    apply (assign_fold_lookup keyOfLabel
             (survivalRate (map Fin flags) clusters)
             (uniqueLabels clusters) (keyOfLabel cluster) []).
    right. exists cluster. split; [|reflexivity].
    apply uniqueLabels_complete. exact Hin.
  - intros key rate Hrate.
    apply (assign_fold_lookup keyOfLabel
             (survivalRate (map Fin flags) clusters)
             (uniqueLabels clusters) key []) in Hrate.
    destruct Hrate as [Hrate|(cluster & _ & ->)]; [discriminate|].
    unfold survivalRate. cbv zeta.
    destruct (clusterSurvived_exact flags clusters cluster)
      as (chosen & -> & Hchosen).
    rewrite length_map.
    destruct (Nat.eqb (length chosen) 0) eqn:E.
    + exists 0. split; [reflexivity|lra].
    + apply Nat.eqb_neq in E. rewrite sum_list_fin.
      assert (Hpos : 0 < INR (length chosen)) by (apply INR_pos; lia).
      cbn [js_div of_nat xreal_Number]. rewrite xdiv_fin by lra.
      eexists. split; [reflexivity|].
      assert (Hsum : 0 <= Rsum chosen <= INR (length chosen)).
      { apply Rsum_flags. apply Forall_forall. intros s Hs.
        rewrite Forall_forall in Hflags. apply Hflags, Hchosen. exact Hs. }
      split.
      * apply Rmult_le_reg_r with (INR (length chosen)); [exact Hpos|].
        unfold Rdiv. rewrite Rmult_assoc, Rinv_l by lra. lra.
      * apply Rmult_le_reg_r with (INR (length chosen)); [exact Hpos|].
        unfold Rdiv. rewrite Rmult_assoc, Rinv_l by lra. lra.
Qed.

End RatesExact.

(** ** Binary64: a value within a bound of the format is rounded within it *)

(** The lemmas below are about the specification of binary64 arithmetic that
    comes with the primitive floats ([SpecFloat], at [prec = 53] and
    [emax = 1024]): what is rounded is a mantissa with an exponent and the
    place of the exact value above it. *)

Unset Implicit Arguments.

Module Rounding.

Import Binary64Vocabulary.
Local Open Scope R_scope.

Lemma bpow_pos (e : Z) : 0 < bpow e.
Proof. apply powerRZ_lt. lra. Qed.

Lemma bpow_plus (a b : Z) : bpow (a + b) = bpow a * bpow b.
Proof. apply powerRZ_add. lra. Qed.

Lemma bpow_IZR (k : Z) : (0 <= k)%Z -> bpow k = IZR (2 ^ k).
Proof.
  intros Hk. unfold bpow.
  rewrite <- (Z2Nat.id k) by exact Hk.
  rewrite <- pow_powerRZ, pow_IZR. reflexivity.
Qed.

Lemma bpow_ge_1 (k : Z) : (0 <= k)%Z -> 1 <= bpow k.
Proof.
  intros Hk. rewrite bpow_IZR by exact Hk. apply IZR_le.
  pose proof (Z.pow_pos_nonneg 2 k). lia.
Qed.

Lemma bpow_le (a b : Z) : (a <= b)%Z -> bpow a <= bpow b.
Proof.
  intros H. replace b with (a + (b - a))%Z by lia. rewrite bpow_plus.
  pose proof (bpow_pos a). assert (1 <= bpow (b - a)) by (apply bpow_ge_1; lia). nra.
Qed.

Lemma bpow_lt_inv (a b : Z) : bpow a < bpow b -> (a < b)%Z.
Proof.
  intros H. destruct (Z_lt_le_dec a b) as [Hlt|Hge]; [exact Hlt|].
  apply bpow_le in Hge. lra.
Qed.

Lemma F2R_shift (m e k : Z) : (0 <= k)%Z -> F2R (m * 2 ^ k) (e - k) = F2R m e.
Proof.
  intros Hk. unfold F2R. rewrite mult_IZR, <- bpow_IZR by exact Hk.
  rewrite Rmult_assoc, <- bpow_plus. f_equal. f_equal. lia.
Qed.

Lemma F2R_le (m m' e : Z) : (m <= m')%Z -> F2R m e <= F2R m' e.
Proof.
  intros H. unfold F2R. apply IZR_le in H. pose proof (bpow_pos e). nra.
Qed.

Lemma F2R_lt_inv (m m' e : Z) : F2R m e < F2R m' e -> (m < m')%Z.
Proof.
  intros H. destruct (Z_lt_le_dec m m') as [Hlt|Hge]; [exact Hlt|].
  apply (@F2R_le m' m e) in Hge. lra.
Qed.

Lemma F2R_nonneg (m e : Z) : (0 <= m)%Z -> 0 <= F2R m e.
Proof.
  intros H. unfold F2R. apply IZR_le in H. pose proof (bpow_pos e). nra.
Qed.

Lemma F2R_pos (m e : Z) : (0 < m)%Z -> 0 < F2R m e.
Proof.
  intros H. unfold F2R. apply IZR_lt in H. pose proof (bpow_pos e). nra.
Qed.

(** Digits *)

Lemma digits2_pos_bounds (p : positive) :
  (2 ^ (Zpos (digits2_pos p) - 1) <= Zpos p < 2 ^ Zpos (digits2_pos p))%Z.
Proof.
  induction p as [p IH|p IH|]; cbn [digits2_pos].
  - rewrite Pos2Z.inj_succ.
    replace (Z.succ (Zpos (digits2_pos p)) - 1)%Z
      with (Z.succ (Zpos (digits2_pos p) - 1)) by lia.
    rewrite !Z.pow_succ_r by lia. lia.
  - rewrite Pos2Z.inj_succ.
    replace (Z.succ (Zpos (digits2_pos p)) - 1)%Z
      with (Z.succ (Zpos (digits2_pos p) - 1)) by lia.
    rewrite !Z.pow_succ_r by lia. lia.
  - cbn. lia.
Qed.

Lemma F2R_digits (m e : Z) :
  (0 < m)%Z ->
  bpow (Zdigits2 m + e - 1) <= F2R m e < bpow (Zdigits2 m + e).
Proof.
  intros Hm. destruct m as [|p|p]; try lia. cbn [Zdigits2].
  pose proof (digits2_pos_bounds p) as [Hlo Hhi].
  set (d := Zpos (digits2_pos p)) in *.
  assert (Hd : (0 < d)%Z) by (unfold d; lia).
  pose proof (bpow_pos e).
  split.
  - replace (d + e - 1)%Z with ((d - 1) + e)%Z by lia.
    rewrite bpow_plus, (bpow_IZR (d - 1)) by lia.
    unfold F2R. apply IZR_le in Hlo. nra.
  - rewrite bpow_plus, (bpow_IZR d) by lia.
    unfold F2R. apply IZR_lt in Hhi. nra.
Qed.

Lemma digits_le (m1 e1 m2 e2 : Z) :
  (0 < m1)%Z -> (0 < m2)%Z -> F2R m1 e1 <= F2R m2 e2 ->
  (Zdigits2 m1 + e1 <= Zdigits2 m2 + e2)%Z.
Proof.
  intros H1 H2 Hle.
  pose proof (@F2R_digits m1 e1 H1) as [Hlo _].
  pose proof (@F2R_digits m2 e2 H2) as [_ Hhi].
  assert (H : bpow (Zdigits2 m1 + e1 - 1) < bpow (Zdigits2 m2 + e2)) by lra.
  apply bpow_lt_inv in H. lia.
Qed.

Local Abbreviation fexp := (SpecFloat.fexp prec emax).
Local Abbreviation emin := (SpecFloat.emin prec emax).

Lemma fexp_mono (a b : Z) : (a <= b)%Z -> (fexp a <= fexp b)%Z.
Proof. intros H. unfold SpecFloat.fexp. lia. Qed.

Lemma fexp_le_bound (m e mB eB : Z) :
  inFormat mB eB -> (0 <= m)%Z -> (e <= eB)%Z -> F2R m e <= F2R mB eB ->
  (fexp (Zdigits2 m + e) <= eB)%Z.
Proof.
  intros (HmB & Hd & He) Hm Hle Hv.
  assert (Hm' : (m = 0 \/ 0 < m)%Z) by lia. destruct Hm' as [->|Hm'].
  - cbn [Zdigits2]. unfold SpecFloat.fexp, prec in *. lia.
  - pose proof (@digits_le m e mB eB Hm' HmB Hv).
    unfold SpecFloat.fexp in *. lia.
Qed.

(** Shifting right *)

Lemma F2R_half (m e : Z) :
  (0 <= m)%Z ->
  F2R (Z.div2 m) (e + 1) <= F2R m e
  /\ (Z.odd m = true -> F2R (Z.div2 m) (e + 1) < F2R m e).
Proof.
  intros Hm. unfold F2R. rewrite bpow_plus. change (bpow 1) with (2 * 1).
  pose proof (bpow_pos e). pose proof (Z.div2_odd m) as Hdiv.
  destruct (Z.odd m); cbn [Z.b2z] in Hdiv.
  - assert (H1 : IZR m = 2 * IZR (Z.div2 m) + 1)
      by (rewrite Hdiv at 1; rewrite plus_IZR, mult_IZR; reflexivity).
    split; [|intros _]; nra.
  - assert (H1 : IZR m = 2 * IZR (Z.div2 m))
      by (rewrite Hdiv at 1; rewrite plus_IZR, mult_IZR; lra).
    split; [|discriminate]; nra.
Qed.

Lemma shr_1_spec (mrs : shr_record) :
  (0 <= shr_m mrs)%Z ->
  shr_1 mrs = {| shr_m := Z.div2 (shr_m mrs);
                 shr_r := Z.odd (shr_m mrs);
                 shr_s := shr_r mrs || shr_s mrs |}.
Proof.
  destruct mrs as [m r s]. cbn [shr_m shr_r shr_s]. intros Hm.
  destruct m as [|[p|p|]|p]; try lia; reflexivity.
Qed.

Lemma shr_1_below (v : R) (e : Z) (mrs : shr_record) :
  below v e mrs -> below v (e + 1) (shr_1 mrs).
Proof.
  intros (Hm & Hle & Hlt). rewrite shr_1_spec by exact Hm.
  destruct (@F2R_half (shr_m mrs) e Hm) as [Hhalf Hodd].
  unfold below. cbn [shr_m shr_r shr_s].
  split; [|split].
  - pose proof (Z.div2_nonneg (shr_m mrs)). lia.
  - lra.
  - intros H. apply orb_true_iff in H. destruct H as [H|H].
    + specialize (Hodd H). lra.
    + specialize (Hlt H). lra.
Qed.

Lemma iter_shr_1_below (v : R) (p : positive) :
  forall e mrs,
    below v e mrs -> below v (e + Zpos p) (SpecFloat.iter_pos shr_1 p mrs).
Proof.
  induction p as [p IH|p IH|]; intros e mrs H; cbn [SpecFloat.iter_pos].
  - replace (e + Zpos p~1)%Z with (e + 1 + Zpos p + Zpos p)%Z by lia.
    apply IH, IH, shr_1_below, H.
  - replace (e + Zpos p~0)%Z with (e + Zpos p + Zpos p)%Z by lia.
    apply IH, IH, H.
  - apply shr_1_below, H.
Qed.

Lemma shr_below (v : R) (e n : Z) (mrs : shr_record) :
  below v e mrs ->
  below v (snd (shr mrs e n)) (fst (shr mrs e n))
  /\ snd (shr mrs e n) = Z.max e (e + n).
Proof.
  intros H. destruct n as [|p|p]; cbn [shr fst snd].
  - split; [exact H|lia].
  - split; [apply iter_shr_1_below; exact H|lia].
  - split; [exact H|lia].
Qed.

Lemma record_of_loc_below (v : R) (m e : Z) (l : location) :
  (0 <= m)%Z -> F2R m e <= v -> (l <> loc_Exact -> F2R m e < v) ->
  below v e (shr_record_of_loc m l).
Proof.
  intros Hm Hle Hlt. unfold below.
  destruct l as [|[| |]]; cbn [shr_record_of_loc shr_m shr_r shr_s orb];
    (split; [exact Hm|split; [exact Hle|]]); intros H;
    try discriminate; apply Hlt; discriminate.
Qed.

Lemma shr_fexp_below (v : R) (m e : Z) (l : location) :
  (0 <= m)%Z -> F2R m e <= v -> (l <> loc_Exact -> F2R m e < v) ->
  below v (snd (shr_fexp prec emax m e l)) (fst (shr_fexp prec emax m e l))
  /\ snd (shr_fexp prec emax m e l) = Z.max e (fexp (Zdigits2 m + e)).
Proof.
  intros Hm Hle Hlt. unfold shr_fexp.
  destruct (@shr_below v e (fexp (Zdigits2 m + e) - e) _
                      (@record_of_loc_below v m e l Hm Hle Hlt)) as [H1 H2].
  split; [exact H1|]. rewrite H2. lia.
Qed.

Lemma round_nearest_even_cases (mrs : shr_record) :
  let m' := round_nearest_even (shr_m mrs) (loc_of_shr_record mrs) in
  m' = shr_m mrs
  \/ (m' = (shr_m mrs + 1)%Z /\ shr_r mrs || shr_s mrs = true).
Proof.
  destruct mrs as [m [|] [|]];
    cbn [loc_of_shr_record round_nearest_even shr_m shr_r shr_s orb];
    try (left; reflexivity); try (right; split; reflexivity).
  destruct (Z.even m); [left|right; split]; reflexivity.
Qed.

(** The value that is rounded is at most a bound of the format: so is the
    result, which is finite. *)
Lemma binary_round_aux_bound (v : R) (sx : bool) (mx ex : Z) (lx : location)
      (mB eB : Z) :
  inFormat mB eB ->
  (0 <= mx)%Z -> F2R mx ex <= v -> (lx <> loc_Exact -> F2R mx ex < v) ->
  v <= F2R mB eB ->
  (ex <= eB)%Z ->
  binary_round_aux prec emax sx mx ex lx = S754_zero sx
  \/ exists m e,
       binary_round_aux prec emax sx mx ex lx = S754_finite sx m e
       /\ F2R (Zpos m) e <= F2R mB eB.
Proof.
  intros HB Hm Hle Hlt Hv Hex.
  unfold binary_round_aux.
  destruct (@shr_fexp_below v mx ex lx Hm Hle Hlt) as [(Hm1 & Hle1 & Hlt1) He1].
  destruct (shr_fexp prec emax mx ex lx) as [mrs1 e1]. cbn [fst snd] in *.
  assert (HeB1 : (e1 <= eB)%Z).
  { pose proof (@fexp_le_bound mx ex mB eB HB Hm Hex ltac:(lra)). lia. }
  set (m1 := round_nearest_even (shr_m mrs1) (loc_of_shr_record mrs1)).
  assert (Hm1' : (0 <= m1)%Z).
  { destruct (round_nearest_even_cases mrs1) as [H|[H _]];
      fold m1 in H; lia. }
  assert (Hb1 : F2R m1 e1 <= F2R mB eB).
  { destruct (round_nearest_even_cases mrs1) as [H|[H Hrs]];
      fold m1 in H; rewrite H; [lra|].
    specialize (Hlt1 Hrs).
    rewrite <- (F2R_shift mB eB (eB - e1)) by lia.
    replace (eB - (eB - e1))%Z with e1 by lia.
    apply F2R_le.
    assert (Hlt2 : F2R (shr_m mrs1) e1 < F2R (mB * 2 ^ (eB - e1)) e1).
    { rewrite <- (F2R_shift mB eB (eB - e1)) in Hv by lia.
      replace (eB - (eB - e1))%Z with e1 in Hv by lia. lra. }
    apply F2R_lt_inv in Hlt2. lia. }
  assert (Hloc : loc_Exact <> loc_Exact -> F2R m1 e1 < F2R m1 e1)
    by (intros H; contradiction).
  destruct (@shr_fexp_below (F2R m1 e1) m1 e1 loc_Exact Hm1' (Rle_refl _) Hloc)
    as [(Hm2 & Hle2 & _) He2].
  destruct (shr_fexp prec emax m1 e1 loc_Exact) as [mrs2 e2].
  cbn [fst snd] in *.
  assert (HeB2 : (e2 <= eB)%Z).
  { pose proof (@fexp_le_bound m1 e1 mB eB HB Hm1' HeB1 Hb1). lia. }
  destruct (shr_m mrs2) as [|m|m] eqn:E; [left; reflexivity| |lia].
  right. exists m, e2.
  destruct HB as (_ & _ & HB).
  assert (Hle' : (e2 <=? emax - prec)%Z = true) by (apply Z.leb_le; lia).
  rewrite Hle'. split; [reflexivity|lra].
Qed.


Lemma fexp_le_bound_pos (m e mB eB : Z) :
  inFormat mB eB -> (0 < m)%Z -> F2R m e <= F2R mB eB ->
  (fexp (Zdigits2 m + e) <= eB)%Z.
Proof.
  intros (HmB & Hd & He) Hm Hv.
  pose proof (@digits_le m e mB eB Hm HmB Hv).
  unfold SpecFloat.fexp in *. lia.
Qed.

(** Values *)

Lemma F2R_opp (m e : Z) : F2R (- m) e = - F2R m e.
Proof. unfold F2R. rewrite opp_IZR. ring. Qed.

Lemma F2R_plus (a b e : Z) : F2R (a + b) e = F2R a e + F2R b e.
Proof. unfold F2R. rewrite plus_IZR. ring. Qed.

Lemma F2R_cond_Zopp (s : bool) (m e : Z) :
  F2R (cond_Zopp s m) e = if s then - F2R m e else F2R m e.
Proof. destruct s; cbn [cond_Zopp]; [apply F2R_opp|reflexivity]. Qed.

Lemma B2R_abs (s : bool) (m : positive) (e : Z) :
  Rabs (B2R (S754_finite s m e)) = F2R (Zpos m) e.
Proof.
  cbn [B2R]. rewrite F2R_cond_Zopp.
  pose proof (@F2R_pos (Zpos m) e ltac:(lia)).
  destruct s; [rewrite Rabs_Ropp|]; apply Rabs_pos_eq; lra.
Qed.

Lemma pos_iter_xO (p d : positive) :
  Zpos (Pos.iter xO p d) = (Zpos p * 2 ^ Zpos d)%Z.
Proof.
  induction d as [|d IH] using Pos.peano_ind.
  - cbn. lia.
  - rewrite Pos.iter_succ, Pos2Z.inj_xO, IH, Pos2Z.inj_succ.
    rewrite Z.pow_succ_r by lia. lia.
Qed.

Lemma shl_align_value (mx : positive) (ex ex' : Z) :
  F2R (Zpos (fst (shl_align mx ex ex'))) (snd (shl_align mx ex ex'))
  = F2R (Zpos mx) ex
  /\ snd (shl_align mx ex ex') = Z.min ex ex'.
Proof.
  unfold shl_align. destruct (ex' - ex)%Z as [|d|d] eqn:E; cbn [fst snd].
  - split; [reflexivity|lia].
  - split; [reflexivity|lia].
  - split; [|lia]. rewrite pos_iter_xO.
    replace ex' with (ex - Zpos d)%Z by lia.
    apply F2R_shift. lia.
Qed.

Lemma binary_round_aux_sign (sx : bool) (mx ex : Z) (lx : location) :
  match binary_round_aux prec emax sx mx ex lx with
  | S754_zero s | S754_infinity s | S754_finite s _ _ => s = sx
  | S754_nan => True
  end.
Proof.
  unfold binary_round_aux.
  destruct (shr_fexp prec emax mx ex lx) as [mrs1 e1].
  destruct (shr_fexp prec emax _ e1 loc_Exact) as [mrs2 e2].
  destruct (shr_m mrs2); [reflexivity| |exact I].
  destruct (e2 <=? emax - prec)%Z; reflexivity.
Qed.

Lemma binary_round_bound (s : bool) (p : positive) (e mB eB : Z) :
  inFormat mB eB -> F2R (Zpos p) e <= F2R mB eB ->
  binary_round prec emax s p e = S754_zero s
  \/ exists m e',
       binary_round prec emax s p e = S754_finite s m e'
       /\ F2R (Zpos m) e' <= F2R mB eB.
Proof.
  intros HB Hv. unfold binary_round.
  destruct (shl_align_value p e (fexp (Zpos (digits2_pos p) + e)))
    as [Hval Hexp].
  destruct (shl_align p e (fexp (Zpos (digits2_pos p) + e))) as [mz ez].
  cbn [fst snd] in *.
  apply (binary_round_aux_bound (F2R (Zpos p) e) s (Zpos mz) ez loc_Exact mB eB); auto.
  - lia.
  - lra.
  - intros H; contradiction.
  - pose proof (@fexp_le_bound_pos (Zpos p) e mB eB HB ltac:(lia) Hv) as H.
    cbn [Zdigits2] in H. lia.
Qed.

Lemma binary_normalize_bound (M e mB eB : Z) :
  inFormat mB eB -> Rabs (F2R M e) <= F2R mB eB ->
  isFin (binary_normalize prec emax M e false) = true
  /\ Rabs (B2R (binary_normalize prec emax M e false)) <= F2R mB eB.
Proof.
  intros HB Hv.
  assert (HB0 : 0 <= F2R mB eB)
    by (destruct HB as (H & _); apply F2R_nonneg; lia).
  destruct M as [|p|p]; cbn [binary_normalize].
  - cbn [isFin B2R]. rewrite Rabs_R0. auto.
  - assert (Hp : F2R (Zpos p) e <= F2R mB eB).
    { rewrite Rabs_pos_eq in Hv; [exact Hv|apply F2R_nonneg; lia]. }
    destruct (binary_round_bound false p e mB eB HB Hp) as [->|(m & e' & -> & H)].
    + cbn [isFin B2R]. rewrite Rabs_R0. auto.
    + rewrite B2R_abs. auto.
  - assert (Hp : F2R (Zpos p) e <= F2R mB eB).
    { change (Zneg p) with (- Zpos p)%Z in Hv.
      rewrite F2R_opp, Rabs_Ropp, Rabs_pos_eq in Hv;
        [exact Hv|apply F2R_nonneg; lia]. }
    destruct (binary_round_bound true p e mB eB HB Hp) as [->|(m & e' & -> & H)].
    + cbn [isFin B2R]. rewrite Rabs_R0. auto.
    + rewrite B2R_abs. auto.
Qed.

Lemma aligned_value (s : bool) (m : positive) (e e' : Z) :
  (e' <= e)%Z ->
  F2R (cond_Zopp s (Zpos (fst (shl_align m e e')))) e'
  = B2R (S754_finite s m e).
Proof.
  intros He. cbn [B2R]. rewrite !F2R_cond_Zopp.
  destruct (shl_align_value m e e') as [Hval Hexp].
  replace (snd (shl_align m e e')) with e' in Hval by lia.
  rewrite Hval. reflexivity.
Qed.

Lemma SFadd_bound (x y : spec_float) (mB eB : Z) :
  inFormat mB eB -> isFin x = true -> isFin y = true ->
  Rabs (B2R x + B2R y) <= F2R mB eB ->
  isFin (SFadd prec emax x y) = true
  /\ Rabs (B2R (SFadd prec emax x y)) <= F2R mB eB.
Proof.
  intros HB Hx Hy Hv.
  assert (HB0 : 0 <= F2R mB eB)
    by (destruct HB as (H & _); apply F2R_nonneg; lia).
  destruct x as [sx| | |sx mx ex], y as [sy| | |sy my ey]; try discriminate.
  - destruct sx, sy; cbn [SFadd isFin B2R]; rewrite Rabs_R0; auto.
  - cbn [SFadd]. split; [reflexivity|].
    cbn [B2R] in Hv |- *. rewrite Rplus_0_l in Hv. exact Hv.
  - cbn [SFadd]. split; [reflexivity|].
    cbn [B2R] in Hv |- *. rewrite Rplus_0_r in Hv. exact Hv.
  - cbn [SFadd]. cbv zeta. apply binary_normalize_bound; [exact HB|].
    rewrite F2R_plus, !aligned_value by lia. exact Hv.
Qed.

Lemma SFsub_bound (x y : spec_float) (mB eB : Z) :
  inFormat mB eB -> isFin x = true -> isFin y = true ->
  Rabs (B2R x - B2R y) <= F2R mB eB ->
  isFin (SFsub prec emax x y) = true
  /\ Rabs (B2R (SFsub prec emax x y)) <= F2R mB eB.
Proof.
  intros HB Hx Hy Hv.
  assert (HB0 : 0 <= F2R mB eB)
    by (destruct HB as (H & _); apply F2R_nonneg; lia).
  destruct x as [sx| | |sx mx ex], y as [sy| | |sy my ey]; try discriminate.
  - destruct sx, sy; cbn [SFsub isFin B2R]; rewrite Rabs_R0; auto.
  - cbn [SFsub]. split; [reflexivity|].
    rewrite B2R_abs. rewrite <- (B2R_abs sy my ey).
    cbn [B2R] in Hv |- *. rewrite Rminus_0_l, Rabs_Ropp in Hv. exact Hv.
  - cbn [SFsub]. split; [reflexivity|].
    cbn [B2R] in Hv |- *. rewrite Rminus_0_r in Hv. exact Hv.
  - cbn [SFsub]. cbv zeta. apply binary_normalize_bound; [exact HB|].
    replace (cond_Zopp sx (Zpos (fst (shl_align mx ex (Z.min ex ey))))
             - cond_Zopp sy (Zpos (fst (shl_align my ey (Z.min ex ey)))))%Z
      with (cond_Zopp sx (Zpos (fst (shl_align mx ex (Z.min ex ey))))
            + - cond_Zopp sy (Zpos (fst (shl_align my ey (Z.min ex ey)))))%Z
      by lia.
    rewrite F2R_plus, F2R_opp, !aligned_value by lia. exact Hv.
Qed.


(** Division *)

Lemma new_location_exact (nb_steps k : Z) :
  new_location nb_steps k <> loc_Exact -> k <> 0%Z.
Proof.
  intros H ->. apply H. unfold new_location.
  destruct (Z.even nb_steps); reflexivity.
Qed.

Lemma inFormat_one : inFormat 1 0.
Proof. unfold inFormat, SpecFloat.emin, prec, emax. cbn. lia. Qed.

Lemma F2R_one : F2R 1 0 = 1.
Proof. unfold F2R, bpow. cbn. lra. Qed.

Lemma SFdiv_core_binary_quotient (mx : positive) (ex : Z) (my : positive)
      (ey : Z) :
  let v := F2R (Zpos mx) ex / F2R (Zpos my) ey in
  let '(q, e', l) := SFdiv_core_binary prec emax (Zpos mx) ex (Zpos my) ey in
  (0 <= q)%Z /\ F2R q e' <= v /\ (l <> loc_Exact -> F2R q e' < v)
  /\ (e' <= fexp (Zdigits2 (Zpos mx) + ex - (Zdigits2 (Zpos my) + ey)))%Z.
Proof.
  cbv zeta. unfold SFdiv_core_binary.
  set (e' := Z.min (fexp (Zdigits2 (Zpos mx) + ex - (Zdigits2 (Zpos my) + ey)))
                   (ex - ey)).
  set (s := (ex - ey - e')%Z).
  assert (Hs : (0 <= s)%Z) by (unfold s, e'; lia).
  set (m' := match s with
             | 0%Z => Zpos mx
             | Zpos _ => Z.shiftl (Zpos mx) s
             | Zneg _ => 0%Z
             end).
  assert (Hm' : m' = (Zpos mx * 2 ^ s)%Z).
  { unfold m'. destruct s as [|p|p] eqn:E; [cbn; lia| |lia].
    apply Z.shiftl_mul_pow2. lia. }
  pose proof (Z_div_mod m' (Zpos my) ltac:(lia)) as Hdiv.
  destruct (Z.div_eucl m' (Zpos my)) as [q r]. destruct Hdiv as [Heq Hr].
  assert (Hpow : (0 < 2 ^ s)%Z) by (apply Z.pow_pos_nonneg; lia).
  assert (Hq : (0 <= q)%Z) by nia.
  pose proof (F2R_pos (Zpos mx) ex ltac:(lia)) as Hx.
  pose proof (F2R_pos (Zpos my) ey ltac:(lia)) as Hy.
  assert (Hmy : 0 < IZR (Zpos my)) by (apply IZR_lt; lia).
  set (rest := IZR r / IZR (Zpos my) * bpow e').
  assert (Hval : F2R (Zpos mx) ex = (F2R q e' + rest) * F2R (Zpos my) ey).
  { unfold F2R, rest.
    replace ex with (s + e' + ey)%Z at 1 by (unfold s; lia).
    rewrite !bpow_plus, (bpow_IZR s) by exact Hs.
    assert (H : IZR (Zpos mx) * IZR (2 ^ s)
                = IZR (Zpos my) * IZR q + IZR r)
      by (rewrite <- !mult_IZR, <- plus_IZR, <- Heq, Hm'; reflexivity).
    transitivity (IZR (Zpos mx) * IZR (2 ^ s) * (bpow e' * bpow ey));
      [ring|]. rewrite H.
    clear H. remember (IZR (Zpos my)) as y0.
    generalize (IZR q) (IZR r) (bpow e') (bpow ey).
    intros; field. lra. }
  assert (Hquot : F2R (Zpos mx) ex / F2R (Zpos my) ey = F2R q e' + rest).
  { rewrite Hval. field. lra. }
  rewrite Hquot. pose proof (bpow_pos e') as He'.
  assert (Hr0 : 0 <= IZR r) by (apply IZR_le; lia).
  assert (Hrest : 0 <= rest).
  { unfold rest. apply Rmult_le_pos; [|lra].
    apply Rmult_le_pos; [exact Hr0|]. apply Rlt_le, Rinv_0_lt_compat, Hmy. }
  split; [exact Hq|]. split; [lra|]. split.
  - intros Hl. apply new_location_exact in Hl.
    assert (Hr1 : 0 < IZR r) by (apply IZR_lt; lia).
    assert (0 < rest); [|lra].
    unfold rest. apply Rmult_lt_0_compat; [|lra].
    apply Rmult_lt_0_compat; [exact Hr1|]. apply Rinv_0_lt_compat, Hmy.
  - unfold e'. lia.
Qed.

Lemma SFdiv_core_binary_below (mx : positive) (ex : Z) (my : positive)
      (ey : Z) :
  F2R (Zpos mx) ex <= F2R (Zpos my) ey ->
  let v := F2R (Zpos mx) ex / F2R (Zpos my) ey in
  let '(q, e', l) := SFdiv_core_binary prec emax (Zpos mx) ex (Zpos my) ey in
  (0 <= q)%Z /\ F2R q e' <= v /\ (l <> loc_Exact -> F2R q e' < v)
  /\ (e' <= 0)%Z /\ v <= 1.
Proof.
  intros Hle. cbv zeta.
  pose proof (SFdiv_core_binary_quotient mx ex my ey) as H. cbv zeta in H.
  destruct (SFdiv_core_binary prec emax (Zpos mx) ex (Zpos my) ey)
    as [[q e'] l].
  destruct H as (Hq & H1 & H2 & He).
  pose proof (F2R_pos (Zpos my) ey ltac:(lia)) as Hy.
  split; [exact Hq|]. split; [exact H1|]. split; [exact H2|]. split.
  - pose proof (digits_le (Zpos mx) ex (Zpos my) ey ltac:(lia) ltac:(lia) Hle)
      as Hd.
    assert (H : (fexp (Zdigits2 (Zpos mx) + ex - (Zdigits2 (Zpos my) + ey))
                 <= fexp 0)%Z) by (apply fexp_mono; lia).
    assert (H0 : (fexp 0 <= 0)%Z) by (cbn; lia).
    lia.
  - apply Rmult_le_reg_r with (F2R (Zpos my) ey); [exact Hy|].
    unfold Rdiv. rewrite Rmult_assoc, Rinv_l, Rmult_1_r, Rmult_1_l by lra.
    exact Hle.
Qed.

Lemma SFdiv_bound (x : spec_float) (sy : bool) (my : positive) (ey : Z) :
  isFin x = true ->
  Rabs (B2R x) <= F2R (Zpos my) ey ->
  isFin (SFdiv prec emax x (S754_finite sy my ey)) = true
  /\ Rabs (B2R (SFdiv prec emax x (S754_finite sy my ey))) <= 1.
Proof.
  intros Hx Hv.
  destruct x as [sx| | |sx mx ex]; try discriminate.
  - cbn [SFdiv isFin B2R]. rewrite Rabs_R0. split; [reflexivity|lra].
  - rewrite B2R_abs in Hv. cbn [SFdiv].
    pose proof (SFdiv_core_binary_below mx ex my ey Hv) as H. cbv zeta in H.
    destruct (SFdiv_core_binary prec emax (Zpos mx) ex (Zpos my) ey)
      as [[q e'] l].
    destruct H as (Hq & Hle & Hlt & He & H1).
    destruct (binary_round_aux_bound _ (xorb sx sy) q e' l 1 0 inFormat_one
                                     Hq Hle Hlt ltac:(rewrite F2R_one; exact H1) He)
      as [->|(m & e2 & -> & H)].
    + cbn [isFin B2R]. rewrite Rabs_R0. split; [reflexivity|lra].
    + rewrite B2R_abs. rewrite F2R_one in H. split; [reflexivity|exact H].
Qed.

(** Division by a number that is at least 1 *)

Lemma SFdiv_bound_count (x : spec_float) (my : positive) (ey mB eB : Z) :
  inFormat mB eB ->
  isFin x = true ->
  Rabs (B2R x) <= F2R mB eB ->
  1 <= F2R (Zpos my) ey ->
  isFin (SFdiv prec emax x (S754_finite false my ey)) = true
  /\ Rabs (B2R (SFdiv prec emax x (S754_finite false my ey))) <= F2R mB eB.
Proof.
  intros HB Hx Hv Hy.
  assert (HB0 : 0 <= F2R mB eB)
    by (destruct HB as (H & _); apply F2R_nonneg; lia).
  destruct x as [sx| | |sx mx ex]; try discriminate.
  - cbn [SFdiv isFin B2R]. rewrite Rabs_R0. split; [reflexivity|lra].
  - rewrite B2R_abs in Hv. cbn [SFdiv].
    pose proof (SFdiv_core_binary_quotient mx ex my ey) as H. cbv zeta in H.
    destruct (SFdiv_core_binary prec emax (Zpos mx) ex (Zpos my) ey)
      as [[q e'] l].
    destruct H as (Hq & Hle & Hlt & He).
    pose proof (F2R_pos (Zpos mx) ex ltac:(lia)) as Px.
    assert (Hquot : F2R (Zpos mx) ex / F2R (Zpos my) ey <= F2R mB eB).
    { apply Rle_trans with (F2R (Zpos mx) ex); [|exact Hv].
      apply Rmult_le_reg_r with (F2R (Zpos my) ey); [lra|].
      unfold Rdiv. rewrite Rmult_assoc, Rinv_l, Rmult_1_r by lra. nra. }
    assert (He' : (e' <= eB)%Z).
    { pose proof (F2R_digits (Zpos my) ey ltac:(lia)) as [_ Hhi].
      assert (Hd : (0 < Zdigits2 (Zpos my) + ey)%Z).
      { apply bpow_lt_inv. change (bpow 0) with 1. lra. }
      pose proof (fexp_le_bound_pos (Zpos mx) ex mB eB HB ltac:(lia) Hv)
        as Hf.
      assert (Hmono : (fexp (Zdigits2 (Zpos mx) + ex
                             - (Zdigits2 (Zpos my) + ey))
                       <= fexp (Zdigits2 (Zpos mx) + ex))%Z)
        by (apply fexp_mono; lia).
      lia. }
    destruct (binary_round_aux_bound _ (xorb sx false) q e' l mB eB HB
                                     Hq Hle Hlt Hquot He')
      as [->|(m & e2 & -> & H)].
    + cbn [isFin B2R]. rewrite Rabs_R0. split; [reflexivity|lra].
    + rewrite B2R_abs. split; [reflexivity|exact H].
Qed.

(** Order *)

Lemma valid_finite (s : bool) (m : positive) (e : Z) :
  valid_binary (S754_finite s m e) = true ->
  inFormat (Zpos m) e /\ fexp (Zdigits2 (Zpos m) + e) = e.
Proof.
  cbn [SpecFloat.valid_binary]. unfold bounded, canonical_mantissa.
  intros H. apply andb_prop in H. destruct H as [Hc Hb].
  apply Z.eqb_eq in Hc. apply Z.leb_le in Hb.
  split; [|exact Hc].
  unfold inFormat. cbn [Zdigits2].
  unfold SpecFloat.fexp, SpecFloat.emin in *. unfold prec in *. lia.
Qed.

Lemma canonical_lt (m1 : positive) (e1 : Z) (m2 : positive) (e2 : Z) :
  fexp (Zdigits2 (Zpos m1) + e1) = e1 ->
  fexp (Zdigits2 (Zpos m2) + e2) = e2 ->
  (e1 < e2)%Z -> F2R (Zpos m1) e1 < F2R (Zpos m2) e2.
Proof.
  intros H1 H2 Hlt.
  assert (Hd : (Zdigits2 (Zpos m1) + e1 < Zdigits2 (Zpos m2) + e2)%Z).
  { destruct (Z_lt_le_dec (Zdigits2 (Zpos m1) + e1)
                          (Zdigits2 (Zpos m2) + e2)) as [H|H]; [exact H|].
    apply fexp_mono in H. lia. }
  pose proof (F2R_digits (Zpos m1) e1 ltac:(lia)) as [_ Hhi].
  pose proof (F2R_digits (Zpos m2) e2 ltac:(lia)) as [Hlo _].
  pose proof (bpow_le (Zdigits2 (Zpos m1) + e1)
                      (Zdigits2 (Zpos m2) + e2 - 1) ltac:(lia)).
  lra.
Qed.

Lemma F2R_lt (m m' e : Z) : (m < m')%Z -> F2R m e < F2R m' e.
Proof.
  intros H. unfold F2R. apply IZR_lt in H. pose proof (bpow_pos e). nra.
Qed.

Lemma compare_magnitudes (m1 : positive) (e1 : Z) (m2 : positive) (e2 : Z) :
  fexp (Zdigits2 (Zpos m1) + e1) = e1 ->
  fexp (Zdigits2 (Zpos m2) + e2) = e2 ->
  ordered (match Z.compare e1 e2 with
           | Lt => Lt
           | Gt => Gt
           | Eq => Pos.compare_cont Eq m1 m2
           end)
          (F2R (Zpos m1) e1) (F2R (Zpos m2) e2).
Proof.
  intros H1 H2. destruct (Z.compare_spec e1 e2) as [He|He|He].
  - subst e2. change (Pos.compare_cont Eq m1 m2) with (Pos.compare m1 m2).
    destruct (Pos.compare_spec m1 m2) as [Hm|Hm|Hm]; cbn [ordered].
    + subst. reflexivity.
    + apply F2R_lt. lia.
    + apply F2R_lt. lia.
  - apply canonical_lt; assumption.
  - apply canonical_lt; assumption.
Qed.

Lemma SFcompare_ordered (x y : spec_float) :
  valid_binary x = true -> valid_binary y = true ->
  isFin x = true -> isFin y = true ->
  exists c, SFcompare x y = Some c /\ ordered c (B2R x) (B2R y).
Proof.
  intros Vx Vy Hx Hy.
  destruct x as [sx| | |sx mx ex], y as [sy| | |sy my ey]; try discriminate.
  - exists Eq. split; reflexivity.
  - pose proof (F2R_pos (Zpos my) ey ltac:(lia)).
    cbn [SFcompare B2R]. rewrite F2R_cond_Zopp.
    destruct sy; eexists; (split; [reflexivity|]); cbn [ordered]; lra.
  - pose proof (F2R_pos (Zpos mx) ex ltac:(lia)).
    cbn [SFcompare B2R]. rewrite F2R_cond_Zopp.
    destruct sx; eexists; (split; [reflexivity|]); cbn [ordered]; lra.
  - apply valid_finite in Vx, Vy. destruct Vx as [_ Cx], Vy as [_ Cy].
    pose proof (F2R_pos (Zpos mx) ex ltac:(lia)).
    pose proof (F2R_pos (Zpos my) ey ltac:(lia)).
    pose proof (compare_magnitudes mx ex my ey Cx Cy) as Hc.
    cbn [SFcompare B2R]. rewrite !F2R_cond_Zopp.
    destruct sx, sy; eexists; (split; [reflexivity|]).
    + destruct (Z.compare ex ey); cbn [ordered CompOpp] in *; try lra.
      destruct (Pos.compare_cont Eq mx my); cbn [ordered CompOpp] in *; lra.
    + cbn [ordered]. lra.
    + cbn [ordered]. lra.
    + exact Hc.
Qed.

Lemma SFleb_iff (x y : spec_float) :
  valid_binary x = true -> valid_binary y = true ->
  isFin x = true -> isFin y = true ->
  SFleb x y = true <-> B2R x <= B2R y.
Proof.
  intros Vx Vy Hx Hy. unfold SFleb.
  destruct (SFcompare_ordered x y Vx Vy Hx Hy) as (c & -> & Hc).
  destruct c; cbn [ordered] in Hc; split; intros H; try reflexivity;
    try discriminate; lra.
Qed.

Lemma SFltb_iff (x y : spec_float) :
  valid_binary x = true -> valid_binary y = true ->
  isFin x = true -> isFin y = true ->
  SFltb x y = true <-> B2R x < B2R y.
Proof.
  intros Vx Vy Hx Hy. unfold SFltb.
  destruct (SFcompare_ordered x y Vx Vy Hx Hy) as (c & -> & Hc).
  destruct c; cbn [ordered] in Hc; split; intros H; try reflexivity;
    try discriminate; lra.
Qed.


(** Numbers of the format that need no rounding *)

Lemma digits2_pos_iter_xO (p d : positive) :
  Zpos (digits2_pos (Pos.iter xO p d))
  = (Zpos (digits2_pos p) + Zpos d)%Z.
Proof.
  induction d as [|d IH] using Pos.peano_ind.
  - cbn [Pos.iter digits2_pos]. lia.
  - rewrite Pos.iter_succ. cbn [digits2_pos]. lia.
Qed.

Lemma binary_round_aux_exact (s : bool) (m : positive) (e : Z) :
  (fexp (Zpos (digits2_pos m) + e) <= e)%Z -> (e <= emax - prec)%Z ->
  binary_round_aux prec emax s (Zpos m) e loc_Exact = S754_finite s m e.
Proof.
  intros Hf He.
  assert (Hshr : shr_fexp prec emax (Zpos m) e loc_Exact
                 = ({| shr_m := Zpos m; shr_r := false; shr_s := false |},
                    e)).
  { unfold shr_fexp. cbn [Zdigits2 shr_record_of_loc].
    destruct (fexp (Zpos (digits2_pos m) + e) - e)%Z eqn:E;
      [reflexivity|lia|reflexivity]. }
  unfold binary_round_aux. rewrite Hshr.
  cbn [shr_m loc_of_shr_record round_nearest_even]. rewrite Hshr.
  cbn [shr_m].
  assert (Hle : (e <=? emax - prec)%Z = true) by (apply Z.leb_le; exact He).
  rewrite Hle. reflexivity.
Qed.

Lemma digits_at_most_prec (p : positive) :
  (Zpos p < 2 ^ prec)%Z -> (Zpos (digits2_pos p) <= prec)%Z.
Proof.
  intros H. pose proof (digits2_pos_bounds p) as [Hlo _].
  assert (Hlt : (2 ^ (Zpos (digits2_pos p) - 1) < 2 ^ prec)%Z) by lia.
  apply Z.pow_lt_mono_r_iff in Hlt; unfold prec in *; lia.
Qed.

Lemma binary_normalize_integer (z : Z) :
  (0 < z < 2 ^ prec)%Z ->
  exists m e,
    binary_normalize prec emax z 0 false = S754_finite false m e
    /\ F2R (Zpos m) e = IZR z.
Proof.
  intros [Hz Hlt]. destruct z as [|p|p]; try lia.
  cbn [binary_normalize]. unfold binary_round.
  pose proof (digits_at_most_prec p Hlt) as Hd.
  destruct (shl_align_value p 0 (fexp (Zpos (digits2_pos p) + 0)))
    as [Hval Hexp].
  assert (Hdig : (Zpos (digits2_pos
                          (fst (shl_align p 0
                                  (fexp (Zpos (digits2_pos p) + 0)))))
                  + snd (shl_align p 0 (fexp (Zpos (digits2_pos p) + 0)))
                  = Zpos (digits2_pos p))%Z).
  { unfold shl_align.
    destruct (fexp (Zpos (digits2_pos p) + 0) - 0)%Z eqn:E; cbn [fst snd];
      try lia.
    rewrite digits2_pos_iter_xO. lia. }
  destruct (shl_align p 0 (fexp (Zpos (digits2_pos p) + 0))) as [mz ez].
  cbn [fst snd] in *.
  exists mz, ez. split.
  - apply binary_round_aux_exact.
    + rewrite Hdig. rewrite Z.add_0_r in Hexp.
      unfold SpecFloat.fexp, SpecFloat.emin, prec, emax in *. lia.
    + unfold SpecFloat.fexp, SpecFloat.emin, prec, emax in *. lia.
  - rewrite Hval. unfold F2R, bpow. cbn. lra.
Qed.

(** Signs *)

Lemma binary_round_aux_notNeg (mx ex : Z) (lx : location) :
  notNeg (binary_round_aux prec emax false mx ex lx) = true.
Proof.
  pose proof (binary_round_aux_sign false mx ex lx) as H.
  destruct (binary_round_aux prec emax false mx ex lx);
    try subst; reflexivity.
Qed.

Lemma SFadd_notNeg (x y : spec_float) :
  notNeg x = true -> notNeg y = true ->
  notNeg (SFadd prec emax x y) = true.
Proof.
  intros Hx Hy.
  destruct x as [[|]|[|]| |[|] mx ex], y as [[|]|[|]| |[|] my ey];
    try discriminate; try reflexivity.
  cbn [SFadd]. cbv zeta. cbn [cond_Zopp Z.add binary_normalize].
    unfold binary_round.
    destruct (shl_align _ _ _) as [mz ez].
    apply binary_round_aux_notNeg.
Qed.

Lemma SFdiv_notNeg (x : spec_float) (my : positive) (ey : Z) :
  notNeg x = true ->
  notNeg (SFdiv prec emax x (S754_finite false my ey)) = true.
Proof.
  intros Hx.
  destruct x as [[|]|[|]| |[|] mx ex]; try discriminate; try reflexivity.
  cbn [SFdiv].
  destruct (SFdiv_core_binary prec emax (Zpos mx) ex (Zpos my) ey)
    as [[q e'] l].
  apply binary_round_aux_notNeg.
Qed.

Lemma SFsqrt_notNeg (x : spec_float) : notNeg (SFsqrt prec emax x) = true.
Proof.
  destruct x as [[|]|[|]| |[|] mx ex]; try reflexivity.
  cbn [SFsqrt].
  destruct (SFsqrt_core_binary prec emax (Zpos mx) ex) as [[q e'] l].
  apply binary_round_aux_notNeg.
Qed.

(** Square roots *)

Lemma SFsqrt_core_binary_below (m : positive) (e : Z) :
  let v := sqrt (F2R (Zpos m) e) in
  let '(q, e', l) := SFsqrt_core_binary prec emax (Zpos m) e in
  (0 <= q)%Z /\ F2R q e' <= v /\ (l <> loc_Exact -> F2R q e' < v)
  /\ (2 * e' <= e)%Z.
Proof.
  cbv zeta. unfold SFsqrt_core_binary.
  set (e' := Z.min (fexp (Z.div2 (Zdigits2 (Zpos m) + e + 1))) (Z.div2 e)).
  set (s := (e - 2 * e')%Z).
  assert (He' : (2 * e' <= e)%Z).
  { assert (H : (2 * Z.div2 e <= e)%Z).
    { rewrite Z.div2_div. apply Z.mul_div_le. lia. }
    unfold e'. lia. }
  assert (Hs : (0 <= s)%Z) by (unfold s; lia).
  set (m' := match s with
             | 0%Z => Zpos m
             | Zpos _ => Z.shiftl (Zpos m) s
             | Zneg _ => 0%Z
             end).
  assert (Hm' : m' = (Zpos m * 2 ^ s)%Z).
  { unfold m'. destruct s as [|p|p] eqn:E; [cbn; lia| |lia].
    apply Z.shiftl_mul_pow2. lia. }
  assert (Hpow : (0 < 2 ^ s)%Z) by (apply Z.pow_pos_nonneg; lia).
  pose proof (Z.sqrtrem_spec m' ltac:(lia)) as Hsqrt.
  destruct (Z.sqrtrem m') as [q r]. destruct Hsqrt as [Heq Hr].
  assert (Hq : (0 <= q)%Z) by lia.
  pose proof (bpow_pos e') as Hb.
  assert (Hval : F2R (Zpos m) e
                 = F2R q e' * F2R q e' + IZR r * (bpow e' * bpow e')).
  { unfold F2R.
    replace e with (s + (e' + e'))%Z at 1 by (unfold s; lia).
    rewrite !bpow_plus, (bpow_IZR s) by exact Hs.
    assert (H : IZR (Zpos m) * IZR (2 ^ s) = IZR q * IZR q + IZR r)
      by (rewrite <- !mult_IZR, <- plus_IZR, <- Heq, Hm'; reflexivity).
    transitivity (IZR (Zpos m) * IZR (2 ^ s) * (bpow e' * bpow e'));
      [ring|]. rewrite H. ring. }
  assert (Hq0 : 0 <= F2R q e') by (apply F2R_nonneg; exact Hq).
  assert (Hr0 : 0 <= IZR r) by (apply IZR_le; lia).
  assert (Hself : F2R q e' = sqrt (F2R q e' * F2R q e'))
    by (symmetry; apply sqrt_square; exact Hq0).
  assert (Hbb : 0 < bpow e' * bpow e') by (apply Rmult_lt_0_compat; exact Hb).
  split; [exact Hq|]. split; [|split; [|exact He']].
  - rewrite Hself at 1. apply sqrt_le_1_alt. rewrite Hval.
    assert (0 <= IZR r * (bpow e' * bpow e'))
      by (apply Rmult_le_pos; lra).
    lra.
  - intros Hl.
    assert (Hr1 : r <> 0%Z).
    { intros ->. apply Hl. reflexivity. }
    assert (Hr2 : 0 < IZR r) by (apply IZR_lt; lia).
    rewrite Hself at 1. apply sqrt_lt_1_alt. rewrite Hval.
    assert (0 < IZR r * (bpow e' * bpow e'))
      by (apply Rmult_lt_0_compat; lra).
    split; [|lra]. apply Rmult_le_pos; exact Hq0.
Qed.

Lemma inFormat_512 : inFormat 1 512.
Proof. unfold inFormat, SpecFloat.emin, prec, emax. cbn. lia. Qed.

Lemma bpow_1024 : bpow 1024 = bpow 512 * bpow 512.
Proof. rewrite <- bpow_plus. reflexivity. Qed.

Lemma F2R_power (e : Z) : F2R 1 e = bpow e.
Proof. unfold F2R. lra. Qed.

(** The square root of a number of the format is at most [2^512]. *)
Lemma SFsqrt_bound (m : positive) (e : Z) :
  valid_binary (S754_finite false m e) = true ->
  SFsqrt prec emax (S754_finite false m e) = S754_zero false
  \/ exists m' e',
       SFsqrt prec emax (S754_finite false m e) = S754_finite false m' e'
       /\ F2R (Zpos m') e' <= bpow 512.
Proof.
  intros V. apply valid_finite in V. destruct V as [(_ & Hd & He) _].
  cbn [SFsqrt].
  pose proof (SFsqrt_core_binary_below m e) as H. cbv zeta in H.
  destruct (SFsqrt_core_binary prec emax (Zpos m) e) as [[q e'] l].
  destruct H as (Hq & Hle & Hlt & He').
  assert (Hv : sqrt (F2R (Zpos m) e) <= F2R 1 512).
  { rewrite F2R_power.
    rewrite <- (sqrt_square (bpow 512)) by (apply Rlt_le, bpow_pos).
    apply sqrt_le_1_alt. rewrite <- bpow_1024.
    pose proof (F2R_digits (Zpos m) e ltac:(lia)) as [_ Hhi].
    pose proof (bpow_le (Zdigits2 (Zpos m) + e) 1024) as Hb.
    unfold prec, emax in *. specialize (Hb ltac:(lia)). lra. }
  destruct (binary_round_aux_bound _ false q e' l 1 512 inFormat_512
                                   Hq Hle Hlt Hv)
    as [->|(m' & e2 & -> & H)].
  - unfold prec, emax in *. lia.
  - left. reflexivity.
  - right. exists m', e2. split; [reflexivity|].
    rewrite F2R_power in H. exact H.
Qed.

End Rounding.

(** ** Binary64: distances, inertia and the silhouette score *)

Module Binary64Facts.

Import Binary64 Binary64Vocabulary Rounding.
Local Open Scope R_scope.

Lemma isFinite_fin (x : float) : isFinite x = true -> fin x.
Proof.
  unfold isFinite, fin, Prim2SF. intros H.
  apply andb_prop in H. destruct H as [Hn Hi].
  apply negb_true_iff in Hn, Hi. rewrite Hn, Hi.
  destruct (PrimFloat.is_zero x); [reflexivity|].
  destruct (Z.frexp x) as [r exp].
  destruct (shr_fexp _ _ _ _ _) as [mrs e'].
  destruct (shr_m mrs); reflexivity.
Qed.

Lemma fin_not_nan (x : float) : fin x -> PrimFloat.is_nan x = false.
Proof.
  unfold fin, Prim2SF. destruct (PrimFloat.is_nan x); [discriminate|].
  reflexivity.
Qed.

Lemma Prim2SF_zero : Prim2SF 0 = S754_zero false.
Proof. reflexivity. Qed.

Lemma Prim2SF_one : Prim2SF 1 = S754_finite false 4503599627370496 (-52).
Proof. reflexivity. Qed.

Lemma Prim2SF_minus_one :
  Prim2SF (0 - 1) = S754_finite true 4503599627370496 (-52).
Proof. reflexivity. Qed.

Lemma F2R_two_52 : F2R 4503599627370496 (-52) = 1.
Proof.
  change 4503599627370496%Z with (1 * 2 ^ 52)%Z.
  change (-52)%Z with (0 - 52)%Z.
  rewrite F2R_shift by lia. apply F2R_one.
Qed.

Lemma val_zero : val 0 = 0.
Proof. reflexivity. Qed.

Lemma val_one : val 1 = 1.
Proof. unfold val. rewrite Prim2SF_one. cbn [B2R cond_Zopp]. apply F2R_two_52. Qed.

Lemma val_minus_one : val (0 - 1) = -1.
Proof.
  unfold val. rewrite Prim2SF_minus_one. cbn [B2R cond_Zopp].
  change (- 4503599627370496)%Z with (- (4503599627370496))%Z.
  rewrite F2R_opp, F2R_two_52. reflexivity.
Qed.

(** The operations on finite numbers within a bound *)

Lemma add_bound (x y : float) (mB eB : Z) :
  inFormat mB eB -> fin x -> fin y ->
  Rabs (val x + val y) <= F2R mB eB ->
  fin (x + y)%float /\ Rabs (val (x + y)%float) <= F2R mB eB.
Proof.
  unfold fin, val. rewrite FloatAxioms.add_spec. apply SFadd_bound.
Qed.

Lemma sub_bound (x y : float) (mB eB : Z) :
  inFormat mB eB -> fin x -> fin y ->
  Rabs (val x - val y) <= F2R mB eB ->
  fin (x - y)%float /\ Rabs (val (x - y)%float) <= F2R mB eB.
Proof.
  unfold fin, val. rewrite FloatAxioms.sub_spec. apply SFsub_bound.
Qed.

Lemma div_bound (x y : float) (my : positive) (ey : Z) :
  fin x -> Prim2SF y = S754_finite false my ey ->
  Rabs (val x) <= val y ->
  fin (x / y)%float /\ Rabs (val (x / y)%float) <= 1.
Proof.
  unfold fin, val. rewrite FloatAxioms.div_spec. intros Hx Hy. rewrite Hy.
  cbn [B2R cond_Zopp]. apply SFdiv_bound. exact Hx.
Qed.

Lemma ltb_iff (x y : float) :
  fin x -> fin y -> (x <? y)%float = true <-> val x < val y.
Proof.
  intros Hx Hy. rewrite FloatAxioms.ltb_spec.
  apply SFltb_iff; auto using Prim2SF_valid.
Qed.

Lemma leb_iff (x y : float) :
  fin x -> fin y -> (x <=? y)%float = true <-> val x <= val y.
Proof.
  intros Hx Hy. rewrite FloatAxioms.leb_spec.
  apply SFleb_iff; auto using Prim2SF_valid.
Qed.

(** A finite number that is not negative is 0 or positive. *)
Lemma fin_notNegative (x : float) :
  fin x -> notNegative x ->
  ((x =? 0)%float = true /\ val x = 0)
  \/ ((x =? 0)%float = false
      /\ exists m e, Prim2SF x = S754_finite false m e).
Proof.
  unfold fin, notNegative, val. rewrite FloatAxioms.eqb_spec, Prim2SF_zero.
  destruct (Prim2SF x) as [s| | |[|] m e]; try discriminate; intros _ _.
  - left. split; reflexivity.
  - right. split; [reflexivity|]. exists m, e. reflexivity.
Qed.

Lemma finite_format (x : float) (s : bool) (m : positive) (e : Z) :
  Prim2SF x = S754_finite s m e -> inFormat (Zpos m) e.
Proof.
  intros H. pose proof (Prim2SF_valid x) as V. rewrite H in V.
  apply valid_finite in V. apply V.
Qed.

(** Counts *)

Lemma inFormat_integer (z : Z) : (0 < z < 2 ^ prec)%Z -> inFormat z 0.
Proof.
  intros [Hz Hlt]. unfold inFormat. split; [exact Hz|]. split.
  - destruct z as [|p|p]; try lia. apply digits_at_most_prec. exact Hlt.
  - unfold SpecFloat.emin, prec, emax. lia.
Qed.

Lemma F2R_integer (z : Z) : F2R z 0 = IZR z.
Proof. unfold F2R, bpow. cbn. lra. Qed.

Lemma ofNat_exact (n : nat) :
  (0 < n)%nat -> (Z.of_nat n < 2 ^ prec)%Z ->
  exists m e,
    Prim2SF (ofNat n) = S754_finite false m e
    /\ F2R (Zpos m) e = IZR (Z.of_nat n).
Proof.
  intros Hn Hlt. unfold ofNat. rewrite FloatAxioms.of_uint63_spec, Uint63.of_Z_spec.
  rewrite Z.mod_small.
  - apply binary_normalize_integer. lia.
  - split; [lia|]. eapply Z.lt_trans; [exact Hlt|]. reflexivity.
Qed.

Lemma val_ofNat (n : nat) :
  (0 < n)%nat -> (Z.of_nat n < 2 ^ prec)%Z ->
  exists m e,
    Prim2SF (ofNat n) = S754_finite false m e
    /\ val (ofNat n) = IZR (Z.of_nat n).
Proof.
  intros Hn Hlt. destruct (ofNat_exact n Hn Hlt) as (m & e & H & Hv).
  exists m, e. split; [exact H|]. unfold val. rewrite H. exact Hv.
Qed.


(** Signs *)

Lemma sqrt_notNegative (x : float) : notNegative (PrimFloat.sqrt x).
Proof.
  unfold notNegative. rewrite FloatAxioms.sqrt_spec. apply SFsqrt_notNeg.
Qed.

Lemma add_notNegative (x y : float) :
  notNegative x -> notNegative y -> notNegative (x + y)%float.
Proof.
  unfold notNegative. rewrite FloatAxioms.add_spec. apply SFadd_notNeg.
Qed.

Lemma div_notNegative (x : float) (n : nat) :
  notNegative x -> (0 < n)%nat -> (Z.of_nat n < 2 ^ prec)%Z ->
  notNegative (x / ofNat n)%float.
Proof.
  unfold notNegative. intros Hx Hn Hlt. rewrite FloatAxioms.div_spec.
  destruct (ofNat_exact n Hn Hlt) as (m & e & -> & _).
  apply SFdiv_notNeg. exact Hx.
Qed.

Lemma fmin_cases (a b : float) : fmin a b = nan \/ fmin a b = a \/ fmin a b = b.
Proof.
  unfold fmin. destruct (PrimFloat.is_nan a || PrimFloat.is_nan b); auto.
  destruct (a <? b)%float; auto. destruct (b <? a)%float; auto.
  destruct (PrimFloat.classify a); auto.
Qed.

Lemma fmin_notNegative (a b : float) :
  notNegative a -> notNegative b -> notNegative (fmin a b).
Proof.
  intros Ha Hb. destruct (fmin_cases a b) as [->|[->| ->]]; auto.
  reflexivity.
Qed.

(** The silhouette score *)

Lemma euclideanDistance_notNegative (a b : list float) :
  notNegative (euclideanDistance a b).
Proof. apply sqrt_notNegative. Qed.

(** A number that is not negative is not below 0. *)
Lemma notNegative_not_below_0 (x : float) :
  notNegative x ->
  js_lt x 0%float = false /\ (x = nan \/ js_le 0%float x = true).
Proof.
  intros H. unfold notNegative in H. cbn [js_lt js_le float_Number].
  rewrite FloatAxioms.ltb_spec, FloatAxioms.leb_spec, Prim2SF_zero.
  destruct (Prim2SF x) as [[|]|[|]| |[|] m e] eqn:E;
    try discriminate; (split; [reflexivity|]);
    try (right; reflexivity).
  left. apply Prim2SF_inj. rewrite E. reflexivity.
Qed.

(** X10: on binary64 the distance of two rows, whatever they hold and whatever
    their lengths, is never below 0: it is NaN, or a number not below 0, or
    [Infinity]. *)
Theorem distance_is_never_negative (a b : list float) :
  js_lt (euclideanDistance a b) 0%float = false
  /\ (euclideanDistance a b = nan
      \/ js_le 0%float (euclideanDistance a b) = true).
Proof. apply notNegative_not_below_0, euclideanDistance_notNegative. Qed.

Lemma computeInertia_notNegative (data : Matrix float) (labels : list nat)
      (centroids : Matrix float) :
  notNegative (computeInertia data labels centroids).
Proof.
  unfold computeInertia. apply fold_left_invariant; [|reflexivity].
  intros inertia i _ H. apply add_notNegative; [exact H|].
  apply euclideanDistance_notNegative.
Qed.

(** X15: on binary64 the inertia a run of K-means returns is never below 0:
    it is NaN, or a number not below 0, or [Infinity]. *)
Theorem inertia_is_never_negative (data : Matrix float)
        (k maxIterations : nat) (random : random_source float) (c : nat)
        (r : KMeansResult float) (c' : nat) :
  performKMeans data k maxIterations random c = Ok (r, c') ->
  js_lt (inertia r) 0%float = false
  /\ (inertia r = nan \/ js_le 0%float (inertia r) = true).
Proof.
  intros E. apply notNegative_not_below_0. revert E.
  unfold performKMeans.
  destruct data as [|row0 rest].
  - intros E; inversion E; reflexivity.
  - destruct (Nat.eqb (length row0) 0).
    + intros E; inversion E; reflexivity.
    + cbv zeta.
      destruct (initializeCentroids (row0 :: rest) k random c)
        as [[cs c1]|e]; cbn [bind]; [|discriminate].
      destruct (lloydLoop maxIterations (row0 :: rest) k (length row0)
                          (repeat 0%nat (length (row0 :: rest))) cs true)
        as [[ls cs']|e]; cbn [bind]; [|discriminate].
      intros E; inversion E; subst; cbn [inertia].
      apply computeInertia_notNegative.
Qed.

Lemma distancesTo_notNegative (data : Matrix float) (i : nat)
      (member : nat -> bool) :
  notNegative (fst (distancesTo data i member))
  /\ (snd (distancesTo data i member) <= length data)%nat.
Proof.
  unfold distancesTo.
  set (step := fun (acc : float * nat) (j : nat) => _).
  assert (H : forall l acc,
             notNegative (fst acc) ->
             notNegative (fst (fold_left step l acc))
             /\ (snd (fold_left step l acc) <= snd acc + length l)%nat).
  { induction l as [|j l IH]; intros acc Hacc; cbn [fold_left length].
    - split; [exact Hacc|lia].
    - destruct (IH (step acc j)) as [H1 H2].
      + unfold step. destruct (member j); [|exact Hacc]. cbn [fst].
        apply add_notNegative; [exact Hacc|].
        apply euclideanDistance_notNegative.
      + split; [exact H1|].
        assert (snd (step acc j) <= S (snd acc))%nat
          by (unfold step; destruct (member j); cbn [snd]; lia).
        lia. }
  destruct (H (seq 0 (length data)) (js_zero, 0%nat)) as [H1 H2];
    [reflexivity|].
  rewrite length_seq in H2. split; [exact H1|exact H2].
Qed.

Lemma intraCluster_notNegative (data : Matrix float) (labels : list nat)
      (i : nat) :
  (Z.of_nat (length data) < 2 ^ prec)%Z ->
  notNegative (intraCluster data labels i).
Proof.
  intros Hn. unfold intraCluster.
  match goal with |- context [distancesTo data i ?member] =>
    destruct (distancesTo_notNegative data i member) as [H1 H2];
    destruct (distancesTo data i member) as [sum count]
  end.
  cbn [fst snd] in *.
  destruct (Nat.ltb 0 count) eqn:E; [|reflexivity].
  apply Nat.ltb_lt in E. apply div_notNegative; [exact H1|exact E|lia].
Qed.

Lemma interCluster_notNegative (data : Matrix float) (labels : list nat)
      (i : nat) :
  (Z.of_nat (length data) < 2 ^ prec)%Z ->
  notNegative (interCluster data labels i).
Proof.
  intros Hn. unfold interCluster. cbv zeta.
  match goal with |- context [fold_left ?f ?l ?b] =>
    assert (H : notNegative (fold_left f l b))
  end.
  { apply fold_left_invariant; [|reflexivity].
    intros m cluster _ Hm.
    destruct (sameLabel (Some cluster) (nth_error labels i)); [exact Hm|].
    match goal with |- context [distancesTo data i ?member] =>
      destruct (distancesTo_notNegative data i member) as [H1 H2];
      destruct (distancesTo data i member) as [sum count]
    end.
    cbn [fst snd] in *.
    destruct (Nat.ltb 0 count) eqn:E; [|exact Hm].
    apply Nat.ltb_lt in E. apply fmin_notNegative; [exact Hm|].
    apply div_notNegative; [exact H1|exact E|lia]. }
  match goal with |- context [if ?c then _ else _] => destruct c end;
    [reflexivity|exact H].
Qed.

Lemma val_positive (x : float) (m : positive) (e : Z) :
  Prim2SF x = S754_finite false m e -> 0 < val x.
Proof.
  intros H. unfold val. rewrite H. cbn [B2R cond_Zopp].
  apply F2R_pos. lia.
Qed.

Lemma fmax_bound (a b : float) (ma : positive) (ea : Z) (mb : positive)
      (eb : Z) :
  Prim2SF a = S754_finite false ma ea ->
  Prim2SF b = S754_finite false mb eb ->
  (fmax a b = a \/ fmax a b = b)
  /\ val a <= val (fmax a b) /\ val b <= val (fmax a b).
Proof.
  intros Ha Hb.
  assert (Fa : fin a) by (unfold fin; rewrite Ha; reflexivity).
  assert (Fb : fin b) by (unfold fin; rewrite Hb; reflexivity).
  unfold fmax. rewrite (fin_not_nan a Fa), (fin_not_nan b Fb). cbn [orb].
  destruct (a <? b)%float eqn:E1.
  - apply (ltb_iff a b Fa Fb) in E1. split; [right; reflexivity|lra].
  - destruct (b <? a)%float eqn:E2.
    + apply (ltb_iff b a Fb Fa) in E2. split; [left; reflexivity|lra].
    + assert (H1 : ~ val a < val b)
        by (intros H; apply (ltb_iff a b Fa Fb) in H; congruence).
      assert (H2 : ~ val b < val a)
        by (intros H; apply (ltb_iff b a Fb Fa) in H; congruence).
      destruct (PrimFloat.classify a);
        (split; [auto|lra]).
Qed.

Lemma silhouetteOf_bound (a b : float) :
  fin a -> fin b -> notNegative a -> notNegative b ->
  fin (silhouetteOf a b) /\ Rabs (val (silhouetteOf a b)) <= 1.
Proof.
  intros Fa Fb Na Nb. unfold silhouetteOf.
  cbn [js_eq js_zero js_one js_sub js_div js_max float_Number].
  destruct (fin_notNegative a Fa Na) as [[Ea Va]|[Ea (ma & ea & Ha)]];
    rewrite Ea;
    destruct (fin_notNegative b Fb Nb) as [[Eb Vb]|[Eb (mb & eb & Hb)]];
    rewrite Eb; cbn [andb].
  - split; [reflexivity|]. rewrite val_zero, Rabs_R0. lra.
  - split; [reflexivity|]. rewrite val_one, Rabs_R1. lra.
  - split; [reflexivity|].
    rewrite val_minus_one. apply Rabs_le. lra.
  - destruct (fmax_bound a b ma ea mb eb Ha Hb) as (Hmax & Hva & Hvb).
    pose proof (val_positive a ma ea Ha) as Pa.
    pose proof (val_positive b mb eb Hb) as Pb.
    assert (Hy : exists my ey, Prim2SF (fmax a b) = S754_finite false my ey).
    { destruct Hmax as [-> | ->]; eauto. }
    destruct Hy as (my & ey & Hy).
    assert (Hvy : val (fmax a b) = F2R (Zpos my) ey)
      by (unfold val; rewrite Hy; reflexivity).
    assert (Hd : Rabs (val b - val a) <= F2R (Zpos my) ey).
    { rewrite <- Hvy. apply Rabs_le. lra. }
    destruct (sub_bound b a (Zpos my) ey (finite_format _ _ _ _ Hy) Fb Fa Hd)
      as [Fd Vd].
    apply (div_bound (b - a) (fmax a b) my ey Fd Hy).
    rewrite Hvy. exact Vd.
Qed.

Lemma sum_bound (f : nat -> float) (l : list nat) :
  forall (sum : float) (k : nat),
    fin sum -> Rabs (val sum) <= IZR (Z.of_nat k) ->
    (Z.of_nat (k + length l) < 2 ^ prec)%Z ->
    (forall i, In i l -> fin (f i) /\ Rabs (val (f i)) <= 1) ->
    fin (fold_left (fun s i => (s + f i)%float) l sum)
    /\ Rabs (val (fold_left (fun s i => (s + f i)%float) l sum))
       <= IZR (Z.of_nat (k + length l)).
Proof.
  induction l as [|x l IH]; intros sum k Fs Vs Hk Hf; cbn [fold_left length].
  - rewrite Nat.add_0_r. auto.
  - cbn [length] in Hk.
    destruct (Hf x (or_introl eq_refl)) as [Fx Vx].
    assert (HB : inFormat (Z.of_nat (S k)) 0) by (apply inFormat_integer; lia).
    assert (Hv : Rabs (val sum + val (f x)) <= F2R (Z.of_nat (S k)) 0).
    { rewrite F2R_integer, Nat2Z.inj_succ, succ_IZR.
      pose proof (Rabs_triang (val sum) (val (f x))). lra. }
    destruct (add_bound sum (f x) _ _ HB Fs Fx Hv) as [F1 V1].
    rewrite F2R_integer in V1.
    replace (k + S (length l))%nat with (S k + length l)%nat by lia.
    apply IH; auto.
    + replace (S k + length l)%nat with (k + S (length l))%nat by lia.
      exact Hk.
    + intros i Hi. apply Hf. right. exact Hi.
Qed.

(** Whenever the mean distances [a] and [b] of every point are finite, the
    score is a number of [[-1, 1]]. *)
Lemma silhouette_bound (data : Matrix float) (labels : list nat) :
  (Z.of_nat (length data) < 2 ^ prec)%Z ->
  (forall i, (i < length data)%nat ->
             isFinite (intraCluster data labels i) = true
             /\ isFinite (interCluster data labels i) = true) ->
  (2 <= length data)%nat -> (2 <= length (uniqueLabels labels))%nat ->
  fin (calculateSilhouetteScore data labels)
  /\ Rabs (val (calculateSilhouetteScore data labels)) <= 1.
Proof.
  intros Hn Hfin Hrows Hlabels. unfold calculateSilhouetteScore.
  assert (E : Nat.ltb (length data) 2
              || Nat.ltb (length (uniqueLabels labels)) 2 = false).
  { apply orb_false_iff. split; apply Nat.ltb_ge; assumption. }
  rewrite E. cbn [js_add js_div js_zero of_nat float_Number].
  destruct (sum_bound (pointSilhouette data labels) (seq 0 (length data))
                      0%float 0%nat) as [Fs Vs].
  - reflexivity.
  - rewrite val_zero, Rabs_R0. cbn. lra.
  - rewrite length_seq. exact Hn.
  - intros i Hi. apply in_seq in Hi. unfold pointSilhouette.
    destruct (Hfin i ltac:(lia)) as [Ha Hb].
    apply silhouetteOf_bound.
    + apply isFinite_fin, Ha.
    + apply isFinite_fin, Hb.
    + apply intraCluster_notNegative, Hn.
    + apply interCluster_notNegative, Hn.
  - rewrite length_seq in Vs. cbn [Nat.add] in Vs.
    destruct (val_ofNat (length data) ltac:(lia) Hn) as (m & e & Hm & Hv).
    apply (div_bound _ _ m e Fs Hm). rewrite Hv. exact Vs.
Qed.


Lemma val_minus_1 : val (-1) = -1.
Proof. exact val_minus_one. Qed.

(** Finite distances *)

Lemma fin_isFinite (x : float) : fin x -> isFinite x = true.
Proof.
  intros H. unfold isFinite. rewrite (fin_not_nan x H). cbn [negb andb].
  unfold PrimFloat.is_infinity.
  rewrite FloatAxioms.eqb_spec, FloatAxioms.abs_spec.
  unfold fin in H.
  destruct (Prim2SF x) as [s| | |s m e]; try discriminate; reflexivity.
Qed.

Lemma sqrt_fin_bound (x : float) :
  fin (PrimFloat.sqrt x) ->
  notNegative (PrimFloat.sqrt x)
  /\ Rabs (val (PrimFloat.sqrt x)) <= bpow 512.
Proof.
  intros H. split; [apply sqrt_notNegative|].
  unfold fin, val in *. rewrite FloatAxioms.sqrt_spec in *.
  unfold SF64sqrt in *.
  pose proof (Prim2SF_valid x) as V. pose proof (bpow_pos 512) as Hb.
  destruct (Prim2SF x) as [s|[|]| |[|] m e]; try discriminate.
  - cbn [SFsqrt B2R]. rewrite Rabs_R0. lra.
  - destruct (SFsqrt_bound m e V) as [->|(m' & e' & -> & Hle)].
    + cbn [B2R]. rewrite Rabs_R0. lra.
    + rewrite B2R_abs. exact Hle.
Qed.

Lemma div_bound_count (x : float) (n : nat) (mB eB : Z) :
  inFormat mB eB -> fin x -> Rabs (val x) <= F2R mB eB ->
  (0 < n)%nat -> (Z.of_nat n < 2 ^ prec)%Z ->
  fin (x / ofNat n)%float /\ Rabs (val (x / ofNat n)%float) <= F2R mB eB.
Proof.
  intros HB Hx Hv Hn Hlt. unfold fin, val in *.
  rewrite FloatAxioms.div_spec.
  destruct (ofNat_exact n Hn Hlt) as (m & e & -> & Hm).
  apply SFdiv_bound_count; auto.
  rewrite Hm. apply IZR_le. lia.
Qed.

Lemma inFormat_scaled (z : Z) : (0 < z < 2 ^ prec)%Z -> inFormat z 512.
Proof.
  intros [Hz Hlt]. unfold inFormat. split; [exact Hz|]. split.
  - destruct z as [|p|p]; try lia. apply digits_at_most_prec. exact Hlt.
  - unfold SpecFloat.emin, prec, emax. lia.
Qed.

Lemma F2R_scaled (z : Z) : F2R z 512 = IZR z * bpow 512.
Proof. reflexivity. Qed.

(** The sum of finite distances is finite: a distance is at most [2^512]. *)
Lemma distancesTo_fin (data : Matrix float) (i : nat) (member : nat -> bool) :
  (Z.of_nat (length data) < 2 ^ prec)%Z ->
  (forall j, (j < length data)%nat -> member j = true ->
             fin (euclideanDistance (nth i data []) (nth j data []))) ->
  fin (fst (distancesTo data i member))
  /\ Rabs (val (fst (distancesTo data i member)))
     <= IZR (Z.of_nat (snd (distancesTo data i member))) * bpow 512
  /\ (snd (distancesTo data i member) <= length data)%nat.
Proof.
  intros Hn Hfin. unfold distancesTo.
  set (step := fun (acc : float * nat) (j : nat) => _).
  assert (H : forall l acc,
             (forall j, In j l -> (j < length data)%nat) ->
             fin (fst acc) ->
             Rabs (val (fst acc)) <= IZR (Z.of_nat (snd acc)) * bpow 512 ->
             (Z.of_nat (snd acc + length l) < 2 ^ prec)%Z ->
             fin (fst (fold_left step l acc))
             /\ Rabs (val (fst (fold_left step l acc)))
                <= IZR (Z.of_nat (snd (fold_left step l acc))) * bpow 512
             /\ (snd (fold_left step l acc) <= snd acc + length l)%nat).
  { induction l as [|j l IH]; intros acc Hl Facc Vacc Hlen;
      cbn [fold_left length] in *.
    - split; [exact Facc|]. split; [exact Vacc|lia].
    - assert (Hstep : fin (fst (step acc j))
                      /\ Rabs (val (fst (step acc j)))
                         <= IZR (Z.of_nat (snd (step acc j))) * bpow 512
                      /\ (snd (step acc j) <= S (snd acc))%nat).
      { unfold step. destruct (member j) eqn:E; cbn [fst snd];
          [|split; [exact Facc|split; [exact Vacc|lia]]].
        assert (Fd : fin (euclideanDistance (nth i data []) (nth j data [])))
          by (apply Hfin; [apply Hl; left; reflexivity|exact E]).
        destruct (sqrt_fin_bound _ Fd) as [_ Vd].
        assert (HB : inFormat (Z.of_nat (S (snd acc))) 512)
          by (apply inFormat_scaled; lia).
        destruct (add_bound (fst acc)
                            (euclideanDistance (nth i data []) (nth j data []))
                            _ _ HB Facc Fd) as [F1 V1].
        - rewrite F2R_scaled, Nat2Z.inj_succ, succ_IZR.
          pose proof (Rabs_triang
                        (val (fst acc))
                        (val (euclideanDistance (nth i data [])
                                                (nth j data [])))).
          unfold euclideanDistance in *.
          cbn [js_sqrt float_Number] in *. lra.
        - rewrite F2R_scaled in V1.
          split; [exact F1|]. split; [exact V1|lia]. }
      destruct Hstep as (F1 & V1 & C1).
      destruct (IH (step acc j)) as (F2 & V2 & C2); auto.
      + intros j' Hj'. apply Hl. right. exact Hj'.
      + lia.
      + split; [exact F2|]. split; [exact V2|lia]. }
  destruct (H (seq 0 (length data)) (js_zero, 0%nat)) as (F1 & V1 & C1).
  - intros j Hj. apply in_seq in Hj. lia.
  - reflexivity.
  - cbn [fst snd]. change (val js_zero) with 0. rewrite Rabs_R0. cbn. lra.
  - cbn [snd]. rewrite length_seq. exact Hn.
  - rewrite length_seq in C1. cbn [snd Nat.add] in C1.
    split; [exact F1|]. split; [exact V1|exact C1].
Qed.

Lemma mean_distance_fin (data : Matrix float) (i : nat)
      (member : nat -> bool) :
  (Z.of_nat (length data) < 2 ^ prec)%Z ->
  (forall j, (j < length data)%nat -> member j = true ->
             fin (euclideanDistance (nth i data []) (nth j data []))) ->
  (0 < snd (distancesTo data i member))%nat ->
  fin (fst (distancesTo data i member)
       / ofNat (snd (distancesTo data i member)))%float.
Proof.
  intros Hn Hfin Hpos.
  destruct (distancesTo_fin data i member Hn Hfin) as (F1 & V1 & C1).
  assert (HB : inFormat (Z.of_nat (snd (distancesTo data i member))) 512)
    by (apply inFormat_scaled; lia).
  apply (div_bound_count _ _ _ _ HB F1); [|exact Hpos|lia].
  rewrite F2R_scaled. exact V1.
Qed.

Lemma intraCluster_fin (data : Matrix float) (labels : list nat) (i : nat) :
  (Z.of_nat (length data) < 2 ^ prec)%Z ->
  (forall j, (j < length data)%nat ->
             fin (euclideanDistance (nth i data []) (nth j data []))) ->
  fin (intraCluster data labels i).
Proof.
  intros Hn Hfin. unfold intraCluster.
  match goal with |- context [distancesTo data i ?member] =>
    pose proof (mean_distance_fin data i member Hn
                  (fun j Hj _ => Hfin j Hj)) as H;
    destruct (distancesTo data i member) as [sum count]
  end.
  cbn [fst snd] in H.
  destruct (Nat.ltb 0 count) eqn:E; [|reflexivity].
  apply Nat.ltb_lt in E. apply H. exact E.
Qed.

Lemma fmin_fin (m x : float) :
  m = infinity \/ fin m -> fin x -> fin (fmin m x).
Proof.
  intros Hm Hx. unfold fmin. rewrite (fin_not_nan x Hx).
  destruct Hm as [->|Hm].
  - change (PrimFloat.is_nan infinity) with false. cbn [orb].
    rewrite !FloatAxioms.ltb_spec.
    change (Prim2SF infinity) with (S754_infinity false).
    unfold fin in Hx.
    destruct (Prim2SF x) as [s| | |s mx ex] eqn:E; try discriminate;
      cbn [SFltb SFcompare]; unfold fin; rewrite E; reflexivity.
  - rewrite (fin_not_nan m Hm). cbn [orb].
    destruct (m <? x)%float; [exact Hm|].
    destruct (x <? m)%float; [exact Hx|].
    destruct (PrimFloat.classify m); assumption.
Qed.

Lemma interCluster_fin (data : Matrix float) (labels : list nat) (i : nat) :
  (Z.of_nat (length data) < 2 ^ prec)%Z ->
  (forall j, (j < length data)%nat ->
             fin (euclideanDistance (nth i data []) (nth j data []))) ->
  fin (interCluster data labels i).
Proof.
  intros Hn Hfin. unfold interCluster. cbv zeta.
  match goal with |- context [fold_left ?f ?l ?b] =>
    assert (H : fold_left f l b = infinity \/ fin (fold_left f l b))
  end.
  { apply fold_left_invariant; [|left; reflexivity].
    intros m cluster _ Hm.
    destruct (sameLabel (Some cluster) (nth_error labels i)); [exact Hm|].
    match goal with |- context [distancesTo data i ?member] =>
      pose proof (mean_distance_fin data i member Hn
                    (fun j Hj _ => Hfin j Hj)) as H;
      destruct (distancesTo data i member) as [sum count]
    end.
    cbn [fst snd] in H.
    destruct (Nat.ltb 0 count) eqn:E; [|exact Hm].
    apply Nat.ltb_lt in E. right.
    apply fmin_fin; [exact Hm|]. apply H. exact E. }
  destruct H as [-> | H].
  - reflexivity.
  - match goal with |- context [if ?c then _ else _] => destruct c end;
      [reflexivity|exact H].
Qed.

(** X14: on binary64, for a matrix of fewer than [2^53] rows, when the
    distance between any two rows is a finite number, so are the mean
    distances [a] and [b] of every point, whatever the labels: a distance is
    at most [2^512], so that no sum of distances overflows; and the score of
    at least 2 rows with labels of at least 2 distinct values is then a
    number of [[-1, 1]]. *)
Theorem finite_distances_give_a_score (data : Matrix float)
        (labels : list nat) :
  (Z.of_nat (length data) < 2 ^ 53)%Z ->
  (forall i j, (i < length data)%nat -> (j < length data)%nat ->
               isFinite (euclideanDistance (nth i data []) (nth j data []))
               = true) ->
  (forall i, (i < length data)%nat ->
             isFinite (intraCluster data labels i) = true
             /\ isFinite (interCluster data labels i) = true)
  /\ ((2 <= length data)%nat -> (2 <= length (uniqueLabels labels))%nat ->
      js_le (-1)%float (calculateSilhouetteScore data labels) = true
      /\ js_le (calculateSilhouetteScore data labels) 1%float = true).
Proof.
  intros Hn Hfin.
  assert (Hmeans : forall i, (i < length data)%nat ->
                     isFinite (intraCluster data labels i) = true
                     /\ isFinite (interCluster data labels i) = true).
  { intros i Hi.
    assert (Hi' : forall j, (j < length data)%nat ->
                    fin (euclideanDistance (nth i data []) (nth j data [])))
      by (intros j Hj; apply isFinite_fin, Hfin; assumption).
    split; apply fin_isFinite.
    - apply intraCluster_fin; assumption.
    - apply interCluster_fin; assumption. }
  split; [exact Hmeans|].
  intros Hrows Hlabels.
  destruct (silhouette_bound data labels Hn Hmeans Hrows Hlabels)
    as [Fs Vs].
  assert (Hs : -1 <= val (calculateSilhouetteScore data labels) <= 1)
    by (unfold Rabs in Vs; destruct (Rcase_abs _) in Vs; lra).
  cbn [js_le float_Number]. split.
  - apply leb_iff; [reflexivity|exact Fs|]. rewrite val_minus_1. lra.
  - apply leb_iff; [exact Fs|reflexivity|]. rewrite val_one. lra.
Qed.


End Binary64Facts.

Set Implicit Arguments.

(** ** Runs on binary64 *)

Module Runs.

Import Binary64 Samples.
Local Open Scope float_scope.

Lemma always_half_valid (n : nat) :
  (n = 2 \/ n = 3 \/ n = 4)%nat -> validDraws (always 0.5) n.
Proof.
  intros Hn _ c; unfold always.
  destruct Hn as [-> | [-> | ->]];
    [exists 1%nat | exists 1%nat | exists 2%nat];
    (split; [vm_compute; reflexivity | lia]).
Qed.

Lemma inertia_is_sum_of_distances_witness :
  performKMeans fourPoints 2 100 (always 0.5) 0 = Ok (fourPointsResult, 2%nat)
  /\ inertia fourPointsResult
     = sumOfDistances fourPoints (labels fourPointsResult)
                      (centroids fourPointsResult).
Proof.
  split; [vm_compute; reflexivity|].
  apply (@inertia_is_sum_of_distances float _ fourPoints 2 100 (always 0.5)
           0%nat fourPointsResult 2%nat).
  vm_compute; reflexivity.
Defined.

(** On the four points the inertia is 2, the sum of four distances of 0.5;
    the sum of their squares would be 1. *)
Lemma fourPoints_inertia_not_squared :
  performKMeans fourPoints 2 100 (always 0.5) 0 = Ok (fourPointsResult, 2%nat)
  /\ inertia fourPointsResult = 2
  /\ fold_left
       (fun acc (assigned : list float * nat) =>
          let distance :=
            euclideanDistance (fst assigned)
                              (nth (snd assigned)
                                   (centroids fourPointsResult) []) in
          acc + distance * distance)
       (combine fourPoints (labels fourPointsResult)) 0
     = 1.
Proof. repeat split; vm_compute; reflexivity. Qed.

(** C2 fails on the code: a matrix with a short row is not refused.
    [performKMeans] returns a clustering, with NaN where the short row has
    no cell, and [performPCA] returns a result made of NaN. *)
Lemma ragged_rows_are_not_refused :
  ragged raggedRows = true
  /\ performKMeans raggedRows 2 100 (always 0.5) 0
     = Ok ({| labels := [1; 0]%nat;
              centroids := [[3; nan]; [1; 2]];
              inertia := 0 |}, 2%nat)
  /\ performPCA raggedRows None (always 0.5) 0
     = ({| projectedData := [[nan; nan]; [nan; nan]];
           explainedVariance := [nan; nan];
           components := [[nan; nan]; [nan; nan]] |}, 4%nat).
Proof. repeat split; vm_compute; reflexivity. Qed.

Lemma no_input_validation_witness :
  (exists r c',
      performKMeans raggedRows 2 100 (always 0.5) 0 = Ok (r, c')
      /\ length (labels r) = length raggedRows
      /\ length (centroids r) = 2%nat)
  /\ length (projectedData (fst (performPCA raggedRows None (always 0.5) 0)))
     = length raggedRows.
Proof.
  apply (@no_input_validation float _ 1 [2] [[3]] 2%nat 100%nat None
           (always 0.5) 0%nat).
  - lia.
  - apply always_half_valid; left; reflexivity.
Defined.

(** C3 fails on the code: for two columns and one requested component, two
    eigenpairs are extracted (two vectors of two draws each), and one is
    returned. *)
Lemma one_requested_two_extracted :
  length (eigenvalues (fst (pcaEigen 2 threeRows (always 0.5) 0))) = 2%nat
  /\ snd (performPCA threeRows (Some 1%nat) (always 0.5) 0) = 4%nat
  /\ length (components (fst (performPCA threeRows (Some 1%nat)
                                         (always 0.5) 0))) = 1%nat.
Proof. repeat split; vm_compute; reflexivity. Qed.

(** C4 at its failing input: two rows at distinct positions, [k = 2], and
    [Math.random()] returning 0 twice.  The first draw picks row 0; in the
    second, [r <= cumulativeProb] holds at once for row 0, whose probability
    is 0, and row 0 is picked again. *)
Theorem seeding_repeats_row_when_draw_is_0 :
  seedCentroids twoOnALine 2 (always 0) 0
  = Ok ({| seed_centroids := [[0]; [0]]; seed_rows := [0; 0]%nat |}, 2%nat).
Proof. vm_compute; reflexivity. Qed.

(** The scan also falls through to row 0 without any draw of 0: on [spread]
    the probabilities add up to 0.99999999999999978 in binary64, below the
    second draw, no prefix sum reaches it, and [selectedIndex] stays 0. *)
Lemma seeding_repeats_row_by_rounding :
  sum_list (map (fun distance =>
                   distance / sum_list (map (nearestSquared [[0]]) spread))
                (map (nearestSquared [[0]]) spread))
  = 0x1.ffffffffffffep-1
  /\ seedCentroids spread 2 lateDraws 0
     = Ok ({| seed_centroids := [[0]; [0]]; seed_rows := [0; 0]%nat |}, 2%nat).
Proof. split; vm_compute; reflexivity. Qed.

(** For two equal rows the covariance matrix is zero, the first power step
    divides by a zero norm, and every ratio is NaN; their sum is not at most
    1. *)
Lemma equal_rows_give_nan_ratios :
  explainedVariance (fst (performPCA twoEqualRows None (always 0.5) 0))
  = [nan; nan]
  /\ js_le (sum_list (explainedVariance
                        (fst (performPCA twoEqualRows None (always 0.5) 0))))
           1 = false.
Proof. split; vm_compute; reflexivity. Qed.




(** C7 at its failing input: a column of three copies of 0.1.  Their sum is
    computed as 0.30000000000000004 and their mean as 0.10000000000000002, so
    that every cell is [2^-56] below the mean; the computed deviation is
    [2^-56], not 0, the test [stds[i] === 0] does not hold, the scale is not
    forced to 1, and the constant column comes out as -1 everywhere, not 0. *)
Lemma constant_column_is_not_zeroed :
  columnSums 1 constantColumn = [0x1.3333333333334p-2]
  /\ columnMeans 1 constantColumn = [0x1.999999999999bp-4]
  /\ columnStds 1 constantColumn (columnMeans 1 constantColumn) = [0x1p-56]
  /\ standardizeData constantColumn = [[-1]; [-1]; [-1]]
  /\ forallb (forallb (fun cell => js_eq cell 0))
             (standardizeData constantColumn) = false.
Proof. repeat split; vm_compute; reflexivity. Qed.

(** No overflow is looked for either: the sum of [hugeColumn] is beyond the
    largest double, its mean is [Infinity] and every cell comes out as NaN. *)
Lemma overflowing_column_gives_nan :
  columnMeans 1 hugeColumn = [infinity]
  /\ standardizeData hugeColumn = [[nan]; [nan]; [nan]]
  /\ columnMeans 1 (standardizeData hugeColumn) = [nan].
Proof. repeat split; vm_compute; reflexivity. Qed.

Lemma update_step_witness :
  let assigned := assignedPoints fourPoints [0; 0; 1; 1]%nat 0 in
  (assigned <> [] ->
   nth 0 [[0; 0.5]; [10; 0.5]] []
   = meanPoint 2 assigned ++ skipn 2 (nth 0 [[0; 0]; [10; 0]] []))
  /\ (assigned <> [] -> (length (nth 0 [[0; 0]; [10; 0]] []) <= 2)%nat ->
      nth 0 [[0; 0.5]; [10; 0.5]] [] = meanPoint 2 assigned)
  /\ (assigned = [] ->
      nth 0 [[0; 0.5]; [10; 0.5]] [] = nth 0 [[0; 0]; [10; 0]] []).
Proof.
  apply (@update_step_means_or_unchanged float _ fourPoints 2 2
           [0; 0; 0; 0]%nat [[0; 0]; [10; 0]] [0; 0; 1; 1]%nat
           [[0; 0.5]; [10; 0.5]] true 0%nat).
  - vm_compute; reflexivity.
  - lia.
Defined.

Lemma elbow_recommends_2_witness :
  exists scores c',
    findOptimalK fourPoints 3 Elbow (always 0.5) 0
    = Ok ({| scores := scores; recommendedK := 2 |}, c')
    /\ (length scores <= 2)%nat
    /\ differences (differences scores) = [].
Proof.
  apply (@elbow_recommends_2_up_to_maxK_3 float _ fourPoints 3 (always 0.5)
           0%nat).
  - lia.
  - apply always_half_valid; right; right; reflexivity.
Defined.

Lemma first_record_types_witness :
  (In "Age"%string (map fst (hd [] noAgeFirst)) ->
   (In "Age"%string (numericalFeatures (identifyFeatureTypes noAgeFirst))
    <-> isNumber (get (hd [] noAgeFirst) "Age") = true)
   /\ (In "Age"%string (categoricalFeatures (identifyFeatureTypes noAgeFirst))
       <-> isNumber (get (hd [] noAgeFirst) "Age") = false)
   /\ (isNumber (get (hd [] noAgeFirst) "Age") = false ->
       forall i p,
         nth_error noAgeFirst i = Some p ->
         get p "Age" = VNull ->
         exists p',
           nth_error (imputeMissingValues showCell readCell noAgeFirst) i
           = Some p'
           /\ get p' "Age" = VString (modeOf showCell noAgeFirst "Age")))
  /\ (~ In "Age"%string (map fst (hd [] noAgeFirst)) ->
      ~ In "Age"%string (numericalFeatures (identifyFeatureTypes noAgeFirst))
      /\ ~ In "Age"%string
             (categoricalFeatures (identifyFeatureTypes noAgeFirst))
      /\ map (fun p => get p "Age")
             (imputeMissingValues showCell readCell noAgeFirst)
         = map (fun p => get p "Age") noAgeFirst)
  /\ inherited (modeOf showCell noAgeFirst "Age") = false
  /\ (forall key,
         inherited key = false ->
         (occurrences showCell noAgeFirst "Age" key
          <= occurrences showCell noAgeFirst "Age"
                         (modeOf showCell noAgeFirst "Age"))%nat).
Proof.
  apply (@first_record_types_the_column float _ showCell readCell
           (hd [] noAgeFirst) (tl noAgeFirst) "Age"%string).
  - reflexivity.
  - reflexivity.
Defined.

(** C9 fails on the code: in [noAgeKey] the first record has no [Age], so
    that its value there is [undefined]; the column is in neither list, and
    the [null] of the second record is still [null] after imputation. *)
Lemma absent_column_keeps_its_nulls :
  get (hd [] noAgeKey) "Age" = VUndefined
  /\ map (fun p => get p "Age") noAgeKey = [VUndefined; VNull]
  /\ numericalFeatures (identifyFeatureTypes noAgeKey) = []
  /\ categoricalFeatures (identifyFeatureTypes noAgeKey) = ["Sex"%string]
  /\ map (fun p => get p "Age")
         (imputeMissingValues showCell readCell noAgeKey)
     = [VUndefined; VNull].
Proof. repeat split. Qed.

(** On [noAgeFirst] the missing age of the first passenger becomes the
    string ["22"], the mode of the column, where the median is the number
    22. *)
Lemma noAgeFirst_imputed :
  map (fun p => get p "Age") (imputeMissingValues showCell readCell noAgeFirst)
  = [VString "22"; VNumber 22]
  /\ categoricalFeatures (identifyFeatureTypes noAgeFirst)
     = ["Age"; "Sex"]%string.
Proof. split; vm_compute; reflexivity. Qed.

End Runs.

Module ExactRuns.

Import Exact ExactFacts ExactVocabulary ExactSamples StandardizeFacts
       SumsExact.
Local Open Scope R_scope.

Lemma silhouette_in_unit_interval_witness :
  exists s, calculateSilhouetteScore (inject threeOnALine) [0; 0; 1]%nat = Fin s
            /\ -1 <= s <= 1.
Proof.
  assert (Hrect : rectangular 1 threeOnALine)
    by (repeat constructor).
  destruct (@silhouette_in_unit_interval_exact 1%nat threeOnALine
              [0; 0; 1]%nat Hrect) as [H _].
  apply H; simpl; lia.
Defined.

Lemma standardize_witness :
  exists out,
    standardizeData (inject oneConstantColumn) = inject out
    /\ forall j, (j < 2)%nat ->
         (constant (column j oneConstantColumn) ->
          scale (column j oneConstantColumn) = 1
          /\ forall x, In x (column j out) -> x = 0)
         /\ (~ constant (column j oneConstantColumn) ->
             mean (column j out) = 0 /\ deviation (column j out) = 1).
Proof.
  apply (@standardize_exact 2%nat oneConstantColumn).
  - repeat constructor.
  - lia.
  - discriminate.
Defined.

End ExactRuns.

(** ** Further runs on binary64 *)

Module MoreRuns.

Import Binary64 Samples.
Local Open Scope float_scope.

Lemma kmeans_labels_below_k_witness :
  length (labels fourPointsResult) = 4%nat
  /\ Forall (fun l => (l < Nat.max 1 2)%nat) (labels fourPointsResult)
  /\ length (centroids fourPointsResult) = Nat.max 1 2
  /\ 2%nat = (0 + Nat.max 1 2)%nat.
Proof.
  apply (@kmeans_labels_below_k float _ 0 [0] [[0; 1]; [10; 0]; [10; 1]]
           2 100 (always 0.5) 0%nat fourPointsResult 2%nat).
  vm_compute; reflexivity.
Defined.

Lemma seeds_are_rows_of_the_data_witness :
  length fourPointsSeeds = Nat.max 1 2
  /\ Forall (fun centroid => In centroid fourPoints) fourPointsSeeds
  /\ 2%nat = (0 + Nat.max 1 2)%nat.
Proof.
  apply (@seeds_are_rows_of_the_data float _ fourPoints 2 (always 0.5) 0%nat
           fourPointsSeeds 2%nat).
  vm_compute; reflexivity.
Defined.

Lemma distance_ignores_extra_cells_witness :
  euclideanDistance [0; 0] ([3; 4] ++ [7]) = euclideanDistance [0; 0] [3; 4].
Proof.
  apply (@distance_ignores_extra_cells float _ [0; 0] [3; 4] [7]).
  cbn; lia.
Defined.

Lemma update_twice_is_update_once_witness :
  updateCentroids fourPoints fourPointsLabels 2 2 fourPointsMeans
  = Ok fourPointsMeans.
Proof.
  apply (@update_twice_is_update_once float _ fourPoints fourPointsLabels 2 2
           fourPointsSeeds fourPointsMeans).
  vm_compute; reflexivity.
Defined.

Lemma second_quiet_turn_witness :
  fourPointsLabels = fourPointsLabels
  /\ fourPointsMeans = fourPointsMeans
  /\ Forall2 (fun point l => l = nearestCentroid fourPointsMeans 2 point)
             fourPoints fourPointsLabels.
Proof.
  apply (@second_quiet_turn_is_a_fixed_point float _ fourPoints 2 2
           [0; 0; 0; 0]%nat fourPointsSeeds fourPointsLabels fourPointsMeans
           true fourPointsLabels fourPointsMeans).
  - reflexivity.
  - vm_compute; reflexivity.
  - vm_compute; reflexivity.
Defined.

Lemma findOptimalK_recommends_in_range_witness :
  length (scores fourPointsElbow) = (4 - 1)%nat
  /\ (2 <= recommendedK fourPointsElbow)%nat
  /\ (recommendedK fourPointsElbow <= Nat.max 2 (4 - 2))%nat.
Proof.
  apply (@findOptimalK_recommends_in_range float _ fourPoints 4 Elbow
           (always 0.5) 0%nat fourPointsElbow 9%nat).
  vm_compute; reflexivity.
Defined.

Lemma imputation_leaves_no_missing_cell_witness :
  isMissing (get noAgeFilled "Age") = false.
Proof.
  apply (@imputation_leaves_no_missing_cell float _ showCell readCell
           noAgeFirst "Age" noAgeFilled).
  - vm_compute; left; reflexivity.
  - vm_compute; left; reflexivity.
Defined.

Lemma imputation_only_fills_witness :
  exists p',
    nth_error (imputeMissingValues showCell readCell noAgeFirst) 1 = Some p'
    /\ (forall feature, isBlank (get aged22 feature) = false ->
                        get p' feature = get aged22 feature)
    /\ (forall feature,
           ~ In feature
                (numericalFeatures (identifyFeatureTypes noAgeFirst)
                 ++ categoricalFeatures (identifyFeatureTypes noAgeFirst)) ->
           get p' feature = get aged22 feature).
Proof.
  apply (@imputation_only_fills float _ showCell readCell noAgeFirst 1 aged22).
  reflexivity.
Defined.

Lemma title_is_the_word_after_the_comma_witness :
  exists p',
    engineerPassenger showCell braund = Ok p'
    /\ get p' "Title" = VString "Mr".
Proof.
  apply (@title_is_the_word_after_the_comma float _ showCell braund
           "Braund" " " "Mr" " Owen Harris").
  - reflexivity.
  - reflexivity.
  - discriminate.
  - reflexivity.
  - reflexivity.
Defined.

Lemma engineered_records_keep_their_fields_witness :
  length [braundEngineered] = length [braund]
  /\ (forall key, ~ In key ["FamilySize"; "Title"; "HasCabin"]%string ->
                  get braundEngineered key = get braund key)
  /\ get braundEngineered "HasCabin"
     = (if truthy (get braund "Cabin")
        then VNumber js_one else VNumber js_zero)
  /\ (truthy (get braund "Name") = false ->
      get braundEngineered "Title" = get braund "Title")
  /\ (forall name, get braund "Name" = VString name -> name <> ""%string ->
                   allChars (fun a => negb (Ascii.eqb a ",")) name = true ->
                   get braundEngineered "Title" = VString "Unknown").
Proof.
  apply (@engineered_records_keep_their_fields float _ showCell [braund]
           [braundEngineered] 0 braund braundEngineered).
  - vm_compute; reflexivity.
  - reflexivity.
  - reflexivity.
Defined.

Lemma separated_features_lack_survived_witness :
  exists p',
    nth_error (fst (separateFeatures [braund])) 0 = Some p'
    /\ nth_error (snd (separateFeatures [braund])) 0
       = Some (orElse (get braund "Survived") (VNumber js_zero))
    /\ ~ In "Survived"%string (ownKeys p')
    /\ get p' "Survived" = VUndefined
    /\ forall key, key <> "Survived"%string -> get p' key = get braund key.
Proof.
  apply (@separated_features_lack_survived float _ [braund] 0 braund).
  reflexivity.
Defined.

Lemma encoded_rows_match_feature_names_witness :
  length (encodedData (oneHotEncodeCategorical showCell noAgeFirst
                                                ["Sex"%string]))
  = length noAgeFirst
  /\ length [VNumber 1; VNumber 0]
     = length (features (oneHotEncodeCategorical showCell noAgeFirst
                                                ["Sex"%string])).
Proof.
  apply (@encoded_rows_match_feature_names float _ showCell noAgeFirst
           ["Sex"%string] [VNumber 1; VNumber 0]).
  vm_compute; left; reflexivity.
Defined.

Lemma one_hot_block_has_one_1_witness :
  exists before after,
    oneHotBlock noAgeFirst aged22 "Sex"
    = repeat (VNumber js_zero) before
      ++ VNumber js_one :: repeat (VNumber js_zero) after
    /\ length (categoricalValuesOf noAgeFirst "Sex")
       = (before + 1 + after)%nat.
Proof.
  apply (@one_hot_block_has_one_1 float _ noAgeFirst aged22 "Sex" "female").
  - right; left; reflexivity.
  - reflexivity.
  - discriminate.
Defined.

Lemma written_fields_are_read_back_witness :
  splitFields (joinFields (map writeField threeFields))
  = map snd threeFields.
Proof.
  apply (@written_fields_are_read_back threeFields).
  - discriminate.
  - repeat constructor; cbn; discriminate.
Defined.

Lemma parsed_records_have_the_header_columns_witness :
  let lines := split newlineChar (trim twoLines) in
  let headers := map trim (split "," (hd EmptyString lines)) in
  length (parseCSV readNumeral readNumeral twoLines) = (length lines - 1)%nat
  /\ (In "Age"%string (map fst braundParsed)
      <-> In "Age"%string headers /\ "Age"%string <> "__proto__"%string)
  /\ (In "Age"%string headers -> "Age"%string <> "__proto__"%string ->
      typedAs "Age" (get braundParsed "Age"))
  /\ (~ In "Age"%string headers \/ "Age"%string = "__proto__"%string ->
      lookup "Age" braundParsed = None).
Proof.
  apply (@parsed_records_have_the_header_columns float readNumeral readNumeral
           twoLines braundParsed "Age").
  vm_compute; left; reflexivity.
Defined.

Lemma parsed_line_has_its_fields_witness :
  get (parseLine readNumeral readNumeral ["Name"; "Age"]%string
                 (joinFields (map writeField quotedName)))
      (nth 0 ["Name"; "Age"]%string EmptyString)
  = convertField readNumeral readNumeral
                 (nth 0 ["Name"; "Age"]%string EmptyString)
                 (snd (nth 0 quotedName (false, EmptyString))).
Proof.
  apply (@parsed_line_has_its_fields float readNumeral readNumeral
           ["Name"; "Age"]%string quotedName 0%nat).
  - constructor; [intros [H|[]]; discriminate|].
    constructor; [intros []|constructor].
  - reflexivity.
  - repeat constructor; cbn; discriminate.
  - cbn; lia.
  - discriminate.
Defined.

(** Under the header [__proto__] a record gets no field. *)
Lemma proto_header_makes_no_field :
  parseLine readNumeral readNumeral ["Name"; "__proto__"]%string
            "Braund,x"%string
  = [("Name"%string, VString "Braund"%string)].
Proof. reflexivity. Qed.

Lemma mode_is_a_most_frequent_value_witness :
  let mode := modeOf showCell threePorts "Embarked" in
  inherited mode = false
  /\ (occurrences showCell threePorts "Embarked" "S"
      <= occurrences showCell threePorts "Embarked" mode)%nat
  /\ (mode = ""%string
      \/ (0 < occurrences showCell threePorts "Embarked" mode)%nat).
Proof.
  apply (@mode_is_a_most_frequent_value float showCell threePorts
           "Embarked" "S"); reflexivity.
Defined.

(** In [threePorts] two of the three passengers embarked at [constructor];
    what is held under that name is no count, and the mode is [S]. *)
Lemma member_name_is_never_the_mode :
  valueCountsOf showCell threePorts "Embarked"
  = [("constructor"%string, Garbled); ("S"%string, Tally 1)]
  /\ modeOf showCell threePorts "Embarked" = "S"%string.
Proof. split; reflexivity. Qed.

Lemma finite_distances_give_a_score_witness :
  (forall i, (i < length fourPoints)%nat ->
             Binary64Vocabulary.isFinite
               (intraCluster fourPoints [0; 0; 1; 1]%nat i) = true
             /\ Binary64Vocabulary.isFinite
                  (interCluster fourPoints [0; 0; 1; 1]%nat i) = true)
  /\ ((2 <= length fourPoints)%nat ->
      (2 <= length (uniqueLabels [0; 0; 1; 1]%nat))%nat ->
      js_le (-1) (calculateSilhouetteScore fourPoints [0; 0; 1; 1]%nat) = true
      /\ js_le (calculateSilhouetteScore fourPoints [0; 0; 1; 1]%nat) 1
         = true).
Proof.
  apply (Binary64Facts.finite_distances_give_a_score fourPoints
           [0; 0; 1; 1]%nat).
  - reflexivity.
  - intros i j Hi Hj.
    destruct i as [|[|[|[|i]]]]; [| | | |cbn in Hi; lia];
      (destruct j as [|[|[|[|j]]]]; [| | | |cbn in Hj; lia]);
      vm_compute; reflexivity.
Defined.

Lemma inertia_is_never_negative_witness :
  js_lt (inertia fourPointsResult) 0 = false
  /\ (inertia fourPointsResult = nan
      \/ js_le 0 (inertia fourPointsResult) = true).
Proof.
  apply (Binary64Facts.inertia_is_never_negative fourPoints 2 100
           (always 0.5) 0%nat fourPointsResult 2%nat).
  vm_compute; reflexivity.
Defined.

End MoreRuns.

(** ** Further runs in exact arithmetic *)

Module MoreExactRuns.

Import Exact ExactVocabulary ExactSamples.
Local Open Scope R_scope.

Lemma distance_to_shorter_row_is_nan_witness :
  euclideanDistance [Fin 1; Fin 2] [Fin 1] = NaN.
Proof.
  apply (@DistanceExact.distance_to_shorter_row_is_nan [Fin 1; Fin 2] [Fin 1]).
  cbn; lia.
Defined.

Lemma assignment_picks_first_nearest_witness :
  let dist := fun j =>
    euclideanDistance (map Fin [0]) (nth j (inject [[1]; [1]]) []) in
  let m := nearestCentroid (inject [[1]; [1]]) 2 (map Fin [0]) in
  (m < 2)%nat
  /\ (forall j, (j < 2)%nat -> js_lt (dist j) (dist m) = false)
  /\ (forall j, (j < m)%nat -> js_lt (dist m) (dist j) = true).
Proof.
  apply (@AssignmentExact.assignment_picks_first_nearest 1%nat [0]
           [[1]; [1]] 2%nat).
  - reflexivity.
  - repeat constructor.
  - cbn; lia.
Defined.

Lemma survival_rates_are_between_0_and_1_witness :
  let rates :=
    getClusterSurvivalRates (Some (map Fin threeFlags)) twoClusters in
  (forall cluster, In cluster twoClusters ->
                   lookup (keyOfLabel cluster) rates <> None)
  /\ (forall key rate, lookup key rates = Some rate ->
                       exists r, rate = Fin r /\ 0 <= r <= 1).
Proof.
  apply (@RatesExact.survival_rates_are_between_0_and_1 threeFlags
           twoClusters).
  constructor; [right; reflexivity|].
  constructor; [left; reflexivity|].
  constructor; [right; reflexivity|constructor].
Defined.

Lemma lone_point_has_silhouette_1_or_0_witness :
  pointSilhouette threeNumbers twoClusters 2
  = if js_eq (interCluster threeNumbers twoClusters 2) js_zero
    then Fin 0 else Fin 1.
Proof.
  apply (@LonePointExact.lone_point_has_silhouette_1_or_0 threeNumbers
           twoClusters 2%nat).
  intros j Hj Hne. cbn in Hj.
  destruct j as [|[|[|j]]]; try reflexivity; lia.
Defined.

End MoreExactRuns.
